(** * CPMpy solver interfaces: the Exact (flat pseudo-Boolean) and Z3
      (nested expression) backends

    A shallow embedding of [cpmpy/solvers/exact.py] and
    [cpmpy/solvers/z3.py].  Each solver interface is a Python object whose
    methods mutate the object and talk to an external engine; here a
    method is a function from the object's state to an outcome and the
    state it leaves behind.  The external engine is kept as the list of
    calls made to it, and its answers are functions of that list. *)

From Stdlib Require Import ZArith Lia DecimalString DecimalPos DecimalZ.
From stdpp Require Import gmap strings list.

Set Warnings "-register-all".
Open Scope Z_scope.

(** ** Python conventions *)

(** The exceptions the two files can raise, by Python class. *)
Inductive exn : Type :=
  | AssertionError
  | NotImplementedError
  | AttributeError
  | ValueError
  | IndexError
  | TypeError
  | NameError
  | Z3Exception.

(** What a call does: return a value, raise, or (for the loops that have
    no bound in the source) exhaust the unrolling budget. *)
Inductive outcome (A : Type) : Type :=
  | Ret (a : A)
  | Raise (e : exn)
  | OutOfFuel.

Arguments Ret {A} a.
Arguments Raise {A} e.
Arguments OutOfFuel {A}.

(** A method on an object of state [S]: the state left behind is kept
    also when the method raises, as a Python object keeps the writes made
    before the exception. *)
Definition M (S A : Type) : Type := S -> outcome A * S.

Definition ret {S A} (a : A) : M S A := fun s => (Ret a, s).
Definition raise {S A} (e : exn) : M S A := fun s => (Raise e, s).
Definition out_of_fuel {S A} : M S A := fun s => (OutOfFuel, s).

Definition bind {S A B} (m : M S A) (k : A -> M S B) : M S B :=
  fun s =>
    match m s with
    | (Ret a, s') => k a s'
    | (Raise e, s') => (Raise e, s')
    | (OutOfFuel, s') => (OutOfFuel, s')
    end.

Definition gets {S A} (f : S -> A) : M S A := fun s => (Ret (f s), s).
Definition modify {S} (f : S -> S) : M S unit := fun s => (Ret tt, f s).

Notation "'let*' x ':=' m 'in' k" := (bind m (fun x => k))
  (at level 10, x pattern, m at level 100, k at level 200).
Notation "m ';;' k" := (bind m (fun _ => k))
  (at level 100, k at level 200, right associativity).

(** [assert c] *)
Definition assert {S} (c : bool) : M S unit :=
  if c then ret tt else raise AssertionError.

Section Loops.

Context {S A B : Type}.

(** [for x in l: body x] *)
Fixpoint for_each (body : A -> M S unit) (l : list A) : M S unit :=
  match l with
  | [] => ret tt
  | x :: l' => body x ;; for_each body l'
  end.

Context (f : A -> M S B).

(** [[f x for x in l]] *)
Fixpoint map_M (l : list A) : M S (list B) :=
  match l with
  | [] => ret []
  | x :: l' =>
      let* y := f x in
      let* ys := map_M l' in
      ret (y :: ys)
  end.

End Loops.

(** [str(n)] on a Python [int]: the decimal numeral, ["-"] first when
    negative. *)
Definition py_str (n : Z) : string := NilZero.string_of_int (Z.to_int n).

(** [int(s)], used only to read back what [py_str] wrote. *)
Definition py_int (s : string) : option Z :=
  Z.of_int <$> NilZero.int_of_string s.

(** [max(l)]: Python raises [ValueError] on an empty sequence. *)
Definition py_max (l : list Z) : option Z :=
  match l with
  | [] => None
  | x :: l' => Some (fold_left Z.max l' x)
  end.

(** The threshold [1e18].  Python compares an [int] with a [float]
    exactly, and [1e18] is exactly [10^18]. *)
Definition threshold : Z := 10 ^ 18.

(** ** CPMpy expressions *)

(** Decision variables, by class: [_BoolVarImpl], [_IntVarImpl], a bare
    [_NumVarImpl] that is neither, and [NegBoolView] with its [_bv].
    CPMpy hashes a variable by its name, so the name is its identity. *)
Inductive cpm_var : Type :=
  | BoolVar (name : string)
  | IntVar (name : string) (lb ub : Z)
  | NumVar (name : string) (lb ub : Z)
  | NegBoolView (_bv : cpm_var).

(** [str(v)] *)
Fixpoint var_name (v : cpm_var) : string :=
  match v with
  | BoolVar n | IntVar n _ _ | NumVar n _ _ => n
  | NegBoolView bv => "~" +:+ var_name bv
  end.

(** [isinstance(v, NegBoolView)] *)
Definition is_NegBoolView (v : cpm_var) : bool :=
  match v with NegBoolView _ => true | _ => false end.

(** [isinstance(v, _BoolVarImpl)]; [NegBoolView] is a subclass. *)
Definition is_BoolVarImpl (v : cpm_var) : bool :=
  match v with BoolVar _ | NegBoolView _ => true | _ => false end.

(** [isinstance(v, _IntVarImpl)]; [_BoolVarImpl] is a subclass. *)
Definition is_IntVarImpl (v : cpm_var) : bool :=
  match v with NumVar _ _ _ => false | _ => true end.

(** Expression trees.  [Num] is a Python integer (floats are outside the
    model), [EList] a Python list; [Operator], [Comparison] and
    [GlobalConstraint] are the three expression classes, each with its
    [name] and [args].  A weighted sum is [Operator "wsum" [EList ws;
    EList xs]]. *)
Inductive expr : Type :=
  | Num (n : Z)
  | Var (v : cpm_var)
  | EList (l : list expr)
  | Operator (name : string) (args : list expr)
  | Comparison (name : string) (lhs rhs : expr)
  | GlobalConstraint (name : string) (args : list expr).

(** [is_num(e)] *)
Definition is_num (e : expr) : bool :=
  match e with Num _ => true | _ => false end.

(** [e.name], for the objects that have the attribute. *)
Definition expr_name (e : expr) : option string :=
  match e with
  | Num _ | EList _ => None
  | Var v => Some (var_name v)
  | Operator n _ | Comparison n _ _ | GlobalConstraint n _ => Some n
  end.

(** [e.args] *)
Definition expr_args (e : expr) : list expr :=
  match e with
  | Operator _ args | GlobalConstraint _ args => args
  | Comparison _ l r => [l; r]
  | _ => []
  end.

(** [raise E("... {}".format(e.name, ...))]: the message is built first,
    and reading [.name] of an object without it raises
    [AttributeError]. *)
Definition raise_naming {S A} (e : expr) (x : exn) : M S A :=
  match expr_name e with
  | Some _ => raise x
  | None => raise AttributeError
  end.

(** Values stored in a variable's [_value]. *)
Inductive pyval : Type :=
  | VInt (n : Z)
  | VBool (b : bool).

(** [ExitStatus] and [SolverStatus] of [solver_interface.py]. *)
Inductive ExitStatus : Type :=
  | NOT_RUN | OPTIMAL | FEASIBLE | UNSATISFIABLE | ERROR | UNKNOWN.

Record SolverStatus : Type := {
  exitstatus : ExitStatus;
  runtime : Z
}.

(** [s.update(l)] on a set of variables kept in insertion order: a
    variable whose name is already present is not added again. *)
Definition var_in (v : cpm_var) (s : list cpm_var) : bool :=
  existsb (fun w => String.eqb (var_name w) (var_name v)) s.

Definition set_add (s : list cpm_var) (v : cpm_var) : list cpm_var :=
  if var_in v s then s else s ++ [v].

Definition set_update (s : list cpm_var) (l : list cpm_var) : list cpm_var :=
  fold_left set_add l s.

(** The transformations of [cpmpy/transformations], which the solver
    interfaces call and which are not part of these two files. *)
Class Transformations : Type := {
  get_variables : expr -> list cpm_var;
  flatten_constraint : expr -> list expr;
  reify_rewrite : list expr -> list expr;
  only_bv_implies : list expr -> list expr;
  linearize_constraint : list expr -> list expr;
  only_numexpr_equality : list expr -> list expr;
  only_positive_bv : list expr -> list expr;
  flatten_objective : expr -> expr * list expr;
  decompose : expr -> list expr
}.

(** ** The Exact interface ([exact.py]) *)

Module Exact.

(** A number as handed to the engine: a native integer, or its decimal
    string for the values that do not fit 64 bits. *)
Inductive xnum : Type :=
  | XInt (n : Z)
  | XStr (s : string).

(** The calls [exact.py] makes on [self.xct_solver] that change the
    engine. *)
Inductive xct_call : Type :=
  | AddVariable (name : string) (lb ub : xnum)
  | AddConstraint (coefs : list xnum) (vars : list string)
      (uselb : bool) (lb : xnum) (useub : bool) (ub : xnum)
  | AddReification (head : string) (coefs : list xnum)
      (vars : list string) (lb : xnum)
  | AddRightReification (head : string) (coefs : list xnum)
      (vars : list string) (rhs : xnum)
  | AddLeftReification (head : string) (coefs : list xnum)
      (vars : list string) (rhs : xnum)
  | Init (coefs : list Z) (vars : list string)
  | SetOption (key value : string)
  | RunFull
  | RunOnce
  | InvalidateLastSol.

(** The engine's answers, as functions of the calls made so far. *)
Class Engine : Type := {
  xct_runFull : list xct_call -> Z;
  xct_runOnce : list xct_call -> Z;
  xct_hasSolution : list xct_call -> bool;
  xct_getLastSolutionFor : list xct_call -> list string -> list Z;
  xct_getObjectiveBounds : list xct_call -> Z * Z
}.

(** The attributes of a [CPM_exact] object.  [var_value] holds the
    [_value] attribute of the variable objects, by variable name; a
    missing entry is [None]. *)
Record CPM_exact : Type := {
  xct_solver : list xct_call;
  has_objective : bool;
  objective_minimize : bool;
  objective_value_ : option Z;
  cpm_status : SolverStatus;
  user_vars : list cpm_var;
  _varmap : gmap string string;
  var_value : gmap string pyval
}.

Definition xct_emit (c : xct_call) (s : CPM_exact) : CPM_exact :=
  {| xct_solver := xct_solver s ++ [c];
     has_objective := has_objective s;
     objective_minimize := objective_minimize s;
     objective_value_ := objective_value_ s;
     cpm_status := cpm_status s;
     user_vars := user_vars s;
     _varmap := _varmap s;
     var_value := var_value s |}.

Definition set_has_objective (b : bool) (s : CPM_exact) : CPM_exact :=
  {| xct_solver := xct_solver s;
     has_objective := b;
     objective_minimize := objective_minimize s;
     objective_value_ := objective_value_ s;
     cpm_status := cpm_status s;
     user_vars := user_vars s;
     _varmap := _varmap s;
     var_value := var_value s |}.

Definition set_objective_minimize (b : bool) (s : CPM_exact) : CPM_exact :=
  {| xct_solver := xct_solver s;
     has_objective := has_objective s;
     objective_minimize := b;
     objective_value_ := objective_value_ s;
     cpm_status := cpm_status s;
     user_vars := user_vars s;
     _varmap := _varmap s;
     var_value := var_value s |}.

Definition set_objective_value_ (o : option Z) (s : CPM_exact) : CPM_exact :=
  {| xct_solver := xct_solver s;
     has_objective := has_objective s;
     objective_minimize := objective_minimize s;
     objective_value_ := o;
     cpm_status := cpm_status s;
     user_vars := user_vars s;
     _varmap := _varmap s;
     var_value := var_value s |}.

Definition set_cpm_status (st : SolverStatus) (s : CPM_exact) : CPM_exact :=
  {| xct_solver := xct_solver s;
     has_objective := has_objective s;
     objective_minimize := objective_minimize s;
     objective_value_ := objective_value_ s;
     cpm_status := st;
     user_vars := user_vars s;
     _varmap := _varmap s;
     var_value := var_value s |}.

Definition set_user_vars (u : list cpm_var) (s : CPM_exact) : CPM_exact :=
  {| xct_solver := xct_solver s;
     has_objective := has_objective s;
     objective_minimize := objective_minimize s;
     objective_value_ := objective_value_ s;
     cpm_status := cpm_status s;
     user_vars := u;
     _varmap := _varmap s;
     var_value := var_value s |}.

Definition set_varmap (m : gmap string string) (s : CPM_exact) : CPM_exact :=
  {| xct_solver := xct_solver s;
     has_objective := has_objective s;
     objective_minimize := objective_minimize s;
     objective_value_ := objective_value_ s;
     cpm_status := cpm_status s;
     user_vars := user_vars s;
     _varmap := m;
     var_value := var_value s |}.

Definition set_var_value (m : gmap string pyval) (s : CPM_exact) : CPM_exact :=
  {| xct_solver := xct_solver s;
     has_objective := has_objective s;
     objective_minimize := objective_minimize s;
     objective_value_ := objective_value_ s;
     cpm_status := cpm_status s;
     user_vars := user_vars s;
     _varmap := _varmap s;
     var_value := m |}.

(** [__init__] without a model: a fresh engine, no objective, direction
    minimize; the parent constructor leaves the rest empty. *)
Definition init_session : CPM_exact :=
  {| xct_solver := [];
     has_objective := false;
     objective_minimize := true;
     objective_value_ := None;
     cpm_status := {| exitstatus := NOT_RUN; runtime := 0 |};
     user_vars := [];
     _varmap := ∅;
     var_value := ∅ |}.

(** [h.Not()] on a handle.  The handles of this interface are Python
    strings ([revar = str(cpm_var)]), and [str] has no attribute
    [Not]. *)
Definition str_Not (h : string) : M CPM_exact string :=
  raise AttributeError.

(** [solver_var]: the handle of a variable, declared to the engine on
    first use. *)
Fixpoint solver_var (cpm_var : cpm_var) : M CPM_exact string :=
  match cpm_var with
  | NegBoolView bv =>
      let* h := solver_var bv in
      str_Not h
  | _ =>
      let* cached := gets (fun self => _varmap self !! var_name cpm_var) in
      match cached with
      | Some h => ret h
      | None =>
          let revar := var_name cpm_var in
          (if is_BoolVarImpl cpm_var then
             modify (xct_emit (AddVariable revar (XInt 0) (XInt 1)))
           else if is_IntVarImpl cpm_var then
             match cpm_var with
             | IntVar _ lb ub =>
                 if threshold <? Z.max (Z.abs lb) (Z.abs ub) then
                   modify (xct_emit
                     (AddVariable revar (XStr (py_str lb)) (XStr (py_str ub))))
                 else
                   modify (xct_emit (AddVariable revar (XInt lb) (XInt ub)))
             | _ => raise NotImplementedError
             end
           else raise NotImplementedError) ;;
          modify (fun self =>
            set_varmap (<[var_name cpm_var := revar]> (_varmap self)) self) ;;
          ret revar
      end
  end.

(** [solver_var] on an arbitrary argument: a number fails the assertion
    on the first line, a list is not hashable, and any other expression
    is "not a known var". *)
Definition solver_var_of (e : expr) : M CPM_exact string :=
  match e with
  | Num _ => raise AssertionError
  | Var v => solver_var v
  | EList _ => raise TypeError
  | _ => raise NotImplementedError
  end.

(** The local accumulators of [_make_numexpr]. *)
Definition numexpr : Type := list Z * list string * Z.

(** One round of the loop over the arguments of a [sum]. *)
Definition sum_step (acc : numexpr) (x : expr) : M CPM_exact numexpr :=
  let '(xcoefs, xvars, xrhs) := acc in
  match x with
  | Num n => ret (xcoefs, xvars, xrhs - n)
  | _ =>
      let* h := solver_var_of x in
      ret (xcoefs ++ [1], xvars ++ [h], xrhs)
  end.

(** One round of the loop over [zip(weights, terms)] of a [wsum]. *)
Definition wsum_step (acc : numexpr) (cx : expr * expr) : M CPM_exact numexpr :=
  let '(xcoefs, xvars, xrhs) := acc in
  let '(c, x) := cx in
  match c with
  | Num c =>
      match x with
      | Num n => ret (xcoefs, xvars, xrhs - c * n)
      | _ =>
          let* h := solver_var_of x in
          ret (xcoefs ++ [c], xvars ++ [h], xrhs)
      end
  | _ => raise AssertionError
  end.

Fixpoint fold_M {A} (step : numexpr -> A -> M CPM_exact numexpr)
    (l : list A) (acc : numexpr) : M CPM_exact numexpr :=
  match l with
  | [] => ret acc
  | x :: l' =>
      let* acc' := step acc x in
      fold_M step l' acc'
  end.

(** [_make_numexpr(lhs, rhs)]: the triple [(xcoefs, xvars, xrhs)] with
    [lhs - rhs] read as [sum xcoefs*xvars - xrhs].  A [wsum] whose
    arguments are not the two lists that CPMpy's [Operator] builds
    cannot be unpacked by the [zip] over its starred arguments. *)
Definition _make_numexpr (lhs rhs : expr) : M CPM_exact numexpr :=
  let* acc :=
    match rhs with
    | Num n => ret ([], [], 0 + n)
    | Var v =>
        let* h := solver_var v in
        ret ([-1], [h], 0)
    | _ => raise_naming rhs NotImplementedError
    end in
  let '(xcoefs, xvars, xrhs) := acc in
  match lhs with
  | Num n => ret (xcoefs, xvars, xrhs - n)
  | Var v =>
      let* h := solver_var v in
      ret (xcoefs ++ [1], xvars ++ [h], xrhs)
  | _ =>
      match expr_name lhs with
      | None => raise AttributeError
      | Some name =>
          if String.eqb name "sum" then
            fold_M sum_step (expr_args lhs) acc
          else if String.eqb name "wsum" then
            match expr_args lhs with
            | [EList ws; EList xs] => fold_M wsum_step (combine ws xs) acc
            | _ => raise TypeError
            end
          else if String.eqb name "sub" then
            assert (Nat.eqb (length (expr_args lhs)) 2) ;;
            match expr_args lhs with
            | [a; b] =>
                let* ha := solver_var_of a in
                let* hb := solver_var_of b in
                ret (xcoefs ++ [1; -1], xvars ++ [ha; hb], xrhs)
            | _ => raise AssertionError
            end
          else raise NotImplementedError
      end
  end.

(** [fix(o)]: unwraps a numpy scalar; the identity on a Python [int]. *)
Definition fix_ (o : Z) : Z := o.

(** [max([max([abs(x) for x in xct_coefs]), b1, ...])] *)
Definition maximum_of (xct_coefs : list Z) (bounds : list Z) : option Z :=
  match py_max (map Z.abs xct_coefs) with
  | None => None
  | Some m => py_max (m :: bounds)
  end.

(** [_add_xct_constr] *)
Definition _add_xct_constr (xct_coefs : list Z) (xct_vars : list string)
    (uselb : bool) (lb : Z) (useub : bool) (ub : Z) : M CPM_exact unit :=
  match maximum_of xct_coefs
          [Z.abs (if uselb then lb else 0); Z.abs (if useub then ub else 0)] with
  | None => raise ValueError
  | Some maximum =>
      if threshold <? maximum then
        modify (xct_emit (AddConstraint (map (fun x => XStr (py_str x)) xct_coefs)
                            xct_vars uselb (XStr (py_str lb)) useub (XStr (py_str ub))))
      else
        modify (xct_emit (AddConstraint (map (fun x => XInt (fix_ x)) xct_coefs)
                            xct_vars uselb (XInt (fix_ lb)) useub (XInt (fix_ ub))))
  end.

(** [_add_xct_reif] *)
Definition _add_xct_reif (head : string) (xct_coefs : list Z)
    (xct_vars : list string) (lb : Z) : M CPM_exact unit :=
  match maximum_of xct_coefs [Z.abs lb] with
  | None => raise ValueError
  | Some maximum =>
      if threshold <? maximum then
        modify (xct_emit (AddReification head
                            (map (fun x => XStr (py_str x)) xct_coefs) xct_vars
                            (XStr (py_str lb))))
      else
        modify (xct_emit (AddReification head
                            (map (fun x => XInt (fix_ x)) xct_coefs) xct_vars
                            (XInt (fix_ lb))))
  end.

(** [_add_xct_reif_right] *)
Definition _add_xct_reif_right (head : string) (xct_coefs : list Z)
    (xct_vars : list string) (xct_rhs : Z) : M CPM_exact unit :=
  match maximum_of xct_coefs [Z.abs xct_rhs] with
  | None => raise ValueError
  | Some maximum =>
      if threshold <? maximum then
        modify (xct_emit (AddRightReification head
                            (map (fun x => XStr (py_str x)) xct_coefs) xct_vars
                            (XStr (py_str xct_rhs))))
      else
        modify (xct_emit (AddRightReification head
                            (map (fun x => XInt (fix_ x)) xct_coefs) xct_vars
                            (XInt (fix_ xct_rhs))))
  end.

(** [_add_xct_reif_left] *)
Definition _add_xct_reif_left (head : string) (xct_coefs : list Z)
    (xct_vars : list string) (xct_rhs : Z) : M CPM_exact unit :=
  match maximum_of xct_coefs [Z.abs xct_rhs] with
  | None => raise ValueError
  | Some maximum =>
      if threshold <? maximum then
        modify (xct_emit (AddLeftReification head
                            (map (fun x => XStr (py_str x)) xct_coefs) xct_vars
                            (XStr (py_str xct_rhs))))
      else
        modify (xct_emit (AddLeftReification head
                            (map (fun x => XInt (fix_ x)) xct_coefs) xct_vars
                            (XInt (fix_ xct_rhs))))
  end.

Section Methods.

Context `{!Transformations} `{!Engine}.

(** The test [isinstance(lhs, _NumVarImpl) or lhs.name == "sum" or
    lhs.name == "wsum"] of the indicator branch. *)
Definition indicator_lhs_ok (lhs : expr) : M CPM_exact bool :=
  match lhs with
  | Var _ => ret true
  | _ =>
      match expr_name lhs with
      | None => raise AttributeError
      | Some name => ret (String.eqb name "sum" || String.eqb name "wsum")
      end
  end.

(** [_post_constraint]; [self_add] is [self += ...], used by the branch
    of the global constraints. *)
Definition _post_constraint (self_add : expr -> M CPM_exact unit)
    (cpm_expr : expr) : M CPM_exact unit :=
  match cpm_expr with
  | Comparison name lhs rhs =>
      let* (xct_coefs, xct_vars, xct_rhs) := _make_numexpr lhs rhs in
      if String.eqb name "<=" then
        _add_xct_constr xct_coefs xct_vars false 0 true xct_rhs
      else if String.eqb name ">=" then
        _add_xct_constr xct_coefs xct_vars true xct_rhs false 0
      else if String.eqb name "==" then
        _add_xct_constr xct_coefs xct_vars true xct_rhs true xct_rhs
      else raise_naming lhs NotImplementedError
  | Operator name args =>
      if String.eqb name "->" then
        match args with
        | [cond; sub_expr] =>
            match cond with
            | Var cv =>
                assert (is_BoolVarImpl cv) ;;
                match sub_expr with
                | Comparison sub_name lhs rhs =>
                    let* ok := indicator_lhs_ok lhs in
                    assert ok ;;
                    let* (xct_coefs, xct_vars, xct_rhs) := _make_numexpr lhs rhs in
                    let* (cond, bool_val) :=
                      match cv with
                      | NegBoolView bv =>
                          let* h := solver_var bv in ret (h, false)
                      | _ =>
                          let* h := solver_var cv in ret (h, true)
                      end in
                    if String.eqb sub_name "==" then
                      if (bool_val : bool) then
                        _add_xct_reif_right cond xct_coefs xct_vars xct_rhs ;;
                        _add_xct_reif_right cond (map Z.opp xct_coefs) xct_vars (- xct_rhs)
                      else
                        _add_xct_reif_left cond xct_coefs xct_vars (1 + xct_rhs) ;;
                        _add_xct_reif_left cond (map Z.opp xct_coefs) xct_vars (1 - xct_rhs)
                    else if String.eqb sub_name ">=" then
                      if bool_val then
                        _add_xct_reif_right cond xct_coefs xct_vars xct_rhs
                      else
                        _add_xct_reif_left cond (map Z.opp xct_coefs) xct_vars (1 - xct_rhs)
                    else if String.eqb sub_name "<=" then
                      if bool_val then
                        _add_xct_reif_right cond (map Z.opp xct_coefs) xct_vars (- xct_rhs)
                      else
                        _add_xct_reif_left cond xct_coefs xct_vars (1 + xct_rhs)
                    else raise NotImplementedError
                | _ => raise AssertionError
                end
            | _ => raise AssertionError
            end
        | _ => raise ValueError
        end
      else raise AttributeError
  | GlobalConstraint _ _ => self_add (EList (decompose cpm_expr))
  | _ => raise AttributeError
  end.

(** [__add__], that is [self += cpm_con].  A global constraint is posted
    through its decomposition, which is added in turn; [fuel] bounds how
    deep decompositions may nest. *)
Fixpoint __add__ (fuel : nat) (cpm_con : expr) : M CPM_exact unit :=
  match fuel with
  | O => out_of_fuel
  | S fuel' =>
      modify (fun self =>
        set_user_vars (set_update (user_vars self) (get_variables cpm_con)) self) ;;
      let cpm_cons := flatten_constraint cpm_con in
      let cpm_cons := reify_rewrite cpm_cons in
      let cpm_cons := only_bv_implies cpm_cons in
      let cpm_cons := linearize_constraint cpm_cons in
      let cpm_cons := only_numexpr_equality cpm_cons in
      let cpm_cons := only_positive_bv cpm_cons in
      for_each (_post_constraint (__add__ fuel')) cpm_cons
  end.

(** [objective(expr, minimize)] *)
Definition objective (fuel : nat) (expr : expr) (minimize : bool)
    : M CPM_exact unit :=
  let* already := gets has_objective in
  assert (negb already) ;;
  modify (set_has_objective true) ;;
  modify (set_objective_minimize minimize) ;;
  let '(flat_obj, flat_cons) := flatten_objective expr in
  __add__ fuel (EList flat_cons) ;;
  modify (fun self =>
    set_user_vars (set_update (user_vars self) (get_variables flat_obj)) self) ;;
  let* (xct_coefs, xct_vars, xct_rhs) := _make_numexpr flat_obj (Num 0) in
  let* objective_minimize := gets objective_minimize in
  let xct_coefs :=
    if negb objective_minimize then map Z.opp xct_coefs else xct_coefs in
  modify (xct_emit (Init xct_coefs xct_vars)).

(** The loop of [getSolAndObj] that stores [exact_vals[i]] as the value
    of the [i]-th variable; [bool(n)] is [n != 0]. *)
Fixpoint fill_values (exact_vals : list Z) (i : nat) (vars : list cpm_var)
    : M CPM_exact unit :=
  match vars with
  | [] => ret tt
  | cpm_var :: vars' =>
      match exact_vals !! i with
      | None => raise IndexError
      | Some n =>
          let value :=
            if is_BoolVarImpl cpm_var then VBool (negb (n =? 0)) else VInt n in
          modify (fun self =>
            set_var_value (<[var_name cpm_var := value]> (var_value self)) self) ;;
          fill_values exact_vals (S i) vars'
      end
  end.

(** [getSolAndObj] *)
Definition getSolAndObj : M CPM_exact bool :=
  let* has := gets (fun self => xct_hasSolution (xct_solver self)) in
  if negb has then
    modify (set_objective_value_ None) ;;
    ret false
  else
    let* vars := gets user_vars in
    let* handles := map_M solver_var vars in
    let* exact_vals :=
      gets (fun self => xct_getLastSolutionFor (xct_solver self) handles) in
    fill_values exact_vals 0 vars ;;
    let* bounds := gets (fun self => xct_getObjectiveBounds (xct_solver self)) in
    modify (set_objective_value_ (Some (snd bounds))) ;;
    let* minimize := gets objective_minimize in
    (if negb minimize then
       modify (fun self =>
         set_objective_value_ (Z.opp <$> objective_value_ self) self)
     else ret tt) ;;
    ret true.

(** [SolverStatus(self.name)], with [runtime = 0] *)
Definition new_status : SolverStatus :=
  {| exitstatus := NOT_RUN; runtime := 0 |}.

Definition set_exitstatus (e : ExitStatus) (s : CPM_exact) : CPM_exact :=
  set_cpm_status {| exitstatus := e; runtime := runtime (cpm_status s) |} s.

(** The first lines of [solve] and [solveAll]: an engine without
    objective is initialised with the empty one. *)
Definition init_if_no_objective : M CPM_exact unit :=
  let* has := gets has_objective in
  if negb has then
    modify (set_has_objective true) ;;
    modify (xct_emit (Init [] []))
  else ret tt.

(** [setOption(kw, str(val))] for each keyword argument; the values are
    given by their [str]. *)
Definition set_options (kwargs : list (string * string)) : M CPM_exact unit :=
  for_each (fun kv => modify (xct_emit (SetOption (fst kv) (snd kv)))) kwargs.

Definition set_time_limit (time_limit : option Z) : M CPM_exact unit :=
  match time_limit with
  | Some t => modify (xct_emit (SetOption "timeout" (py_str t)))
  | None => ret tt
  end.

(** [solve(time_limit, assumptions, **kwargs)]; the time limit is in
    whole seconds. *)
Definition solve (time_limit : option Z) (assumptions : option (list cpm_var))
    (kwargs : list (string * string)) : M CPM_exact bool :=
  init_if_no_objective ;;
  set_time_limit time_limit ;;
  set_options kwargs ;;
  match assumptions with
  | Some _ => assert false
  | None => ret tt
  end ;;
  let* my_status := gets (fun self => xct_runFull (xct_solver self)) in
  modify (xct_emit RunFull) ;;
  modify (set_cpm_status new_status) ;;
  (if my_status =? 0 then
     let* has := gets (fun self => xct_hasSolution (xct_solver self)) in
     if (has : bool) then modify (set_exitstatus OPTIMAL)
     else modify (set_exitstatus UNSATISFIABLE)
   else if my_status =? 2 then
     modify (set_exitstatus UNKNOWN)
   else raise NotImplementedError) ;;
  getSolAndObj.

(** The inner loop of [solveAll]: [runOnce] until the status is no
    longer 3. *)
Fixpoint run_while_in_progress (fuel : nat) : M CPM_exact Z :=
  match fuel with
  | O => out_of_fuel
  | S fuel' =>
      let* status := gets (fun self => xct_runOnce (xct_solver self)) in
      modify (xct_emit RunOnce) ;;
      if status =? 3 then run_while_in_progress fuel' else ret status
  end.

(** The outer loop of [solveAll]. *)
Fixpoint solveAll_loop (fuel : nat) (solution_limit : option Z)
    (solsfound : Z) : M CPM_exact Z :=
  if match solution_limit with
     | None => true
     | Some limit => solsfound <? limit
     end
  then
    match fuel with
    | O => out_of_fuel
    | S fuel' =>
        let* status := run_while_in_progress fuel in
        assert ((status =? 0) || (status =? 1)) ;;
        if status =? 0 then ret solsfound
        else
          getSolAndObj ;;
          modify (xct_emit InvalidateLastSol) ;;
          solveAll_loop fuel' solution_limit (solsfound + 1)
    end
  else ret solsfound.

(** [solveAll(display, time_limit, solution_limit, **kwargs)]; [display]
    is not used by the method. *)
Definition solveAll (fuel : nat) (time_limit : option Z)
    (solution_limit : option Z) (kwargs : list (string * string))
    : M CPM_exact Z :=
  init_if_no_objective ;;
  modify (xct_emit (SetOption "opt-boundupper" (py_str 0))) ;;
  set_time_limit time_limit ;;
  set_options kwargs ;;
  solveAll_loop fuel solution_limit 0.

(** [get_core] *)
Definition get_core : M CPM_exact unit := raise NotImplementedError.

End Methods.

End Exact.

(** ** The Z3 interface ([z3.py]) *)

Module Z3.

(** The function symbols of the z3 API that [z3.py] applies. *)
Inductive z3fun : Type :=
  | Not | And | Or | Xor | Implies | Sum | Mul | Distinct
  | Le | Lt | Ge | Gt | Ne | Eq.

(** What [_z3_expr] builds: Python numbers and lists, the constants
    [z3.Bool(name)] and [z3.Int(name)], and applications, kept with the
    arguments as they are passed. *)
Inductive z3expr : Type :=
  | ZNum (n : Z)
  | ZBool (name : string)
  | ZInt (name : string)
  | ZList (l : list z3expr)
  | ZApp (f : z3fun) (args : list z3expr).

(** The calls [z3.py] makes on [self.z3_solver] that change it. *)
Inductive z3_call : Type :=
  | ZAdd (e : z3expr)
  | ZSet (key value : string)
  | ZCheck (assumptions : list expr).

(** A z3 model: the interpretation of the constants it knows. *)
Record model : Type := {
  m_int : string -> option Z;
  m_bool : string -> option bool
}.

(** The solver's answers, as functions of the calls made so far:
    [repr(check(assumptions))], the ['time'] statistic and [model()]. *)
Class Engine : Type := {
  z3_check : list z3_call -> list expr -> string;
  z3_time : list z3_call -> Z;
  z3_model : list z3_call -> model
}.

(** The attributes of a [CPM_z3] object. *)
Record CPM_z3 : Type := {
  z3_solver : list z3_call;
  objective_value_ : option Z;
  cpm_status : SolverStatus;
  user_vars : list cpm_var;
  _varmap : gmap string z3expr;
  var_value : gmap string pyval
}.

Definition z3_emit (c : z3_call) (s : CPM_z3) : CPM_z3 :=
  {| z3_solver := z3_solver s ++ [c];
     objective_value_ := objective_value_ s;
     cpm_status := cpm_status s;
     user_vars := user_vars s;
     _varmap := _varmap s;
     var_value := var_value s |}.

Definition set_objective_value_ (o : option Z) (s : CPM_z3) : CPM_z3 :=
  {| z3_solver := z3_solver s;
     objective_value_ := o;
     cpm_status := cpm_status s;
     user_vars := user_vars s;
     _varmap := _varmap s;
     var_value := var_value s |}.

Definition set_cpm_status (st : SolverStatus) (s : CPM_z3) : CPM_z3 :=
  {| z3_solver := z3_solver s;
     objective_value_ := objective_value_ s;
     cpm_status := st;
     user_vars := user_vars s;
     _varmap := _varmap s;
     var_value := var_value s |}.

Definition set_user_vars (u : list cpm_var) (s : CPM_z3) : CPM_z3 :=
  {| z3_solver := z3_solver s;
     objective_value_ := objective_value_ s;
     cpm_status := cpm_status s;
     user_vars := u;
     _varmap := _varmap s;
     var_value := var_value s |}.

Definition set_varmap (m : gmap string z3expr) (s : CPM_z3) : CPM_z3 :=
  {| z3_solver := z3_solver s;
     objective_value_ := objective_value_ s;
     cpm_status := cpm_status s;
     user_vars := user_vars s;
     _varmap := m;
     var_value := var_value s |}.

Definition set_var_value (m : gmap string pyval) (s : CPM_z3) : CPM_z3 :=
  {| z3_solver := z3_solver s;
     objective_value_ := objective_value_ s;
     cpm_status := cpm_status s;
     user_vars := user_vars s;
     _varmap := _varmap s;
     var_value := m |}.

(** [__init__] without a model. *)
Definition init_session : CPM_z3 :=
  {| z3_solver := [];
     objective_value_ := None;
     cpm_status := {| exitstatus := NOT_RUN; runtime := 0 |};
     user_vars := [];
     _varmap := ∅;
     var_value := ∅ |}.

(** [solver_var] on a variable.  The variable joins [user_vars] before
    its kind is looked at. *)
Fixpoint solver_var (cpm_var : cpm_var) : M CPM_z3 z3expr :=
  match cpm_var with
  | NegBoolView bv =>
      let* h := solver_var bv in
      ret (ZApp Not [h])
  | _ =>
      let* cached := gets (fun self => _varmap self !! var_name cpm_var) in
      match cached with
      | Some h => ret h
      | None =>
          modify (fun self => set_user_vars (set_add (user_vars self) cpm_var) self) ;;
          let* revar :=
            if is_BoolVarImpl cpm_var then ret (ZBool (var_name cpm_var))
            else if is_IntVarImpl cpm_var then
              match cpm_var with
              | IntVar _ lb ub =>
                  let revar := ZInt (var_name cpm_var) in
                  modify (z3_emit (ZAdd (ZApp Ge [revar; ZNum lb]))) ;;
                  modify (z3_emit (ZAdd (ZApp Le [revar; ZNum ub]))) ;;
                  ret revar
              | _ => raise NotImplementedError
              end
            else raise NotImplementedError in
          modify (fun self =>
            set_varmap (<[var_name cpm_var := revar]> (_varmap self)) self) ;;
          ret revar
      end
  end.

(** [solver_var] on an arbitrary argument: a number is returned as it
    is, a list is not hashable, and another expression is "not a known
    var" (the source has by then added it to [user_vars], which here
    holds variables only). *)
Definition solver_var_of (e : expr) : M CPM_z3 z3expr :=
  match e with
  | Num n => ret (ZNum n)
  | Var v => solver_var v
  | EList _ => raise TypeError
  | _ => raise NotImplementedError
  end.

(** Modelled from the spec: [solver_vars] of the parent class
    [SolverInterface], which is not in these files; variables are
    translated through the materializer, element by element. *)
Definition solver_vars (l : list expr) : M CPM_z3 (list z3expr) :=
  map_M solver_var_of l.

(** [wi*xi]: a product of two Python numbers is a number. *)
Definition py_mul (w : Z) (x : z3expr) : z3expr :=
  match x with
  | ZNum n => ZNum (w * n)
  | _ => ZApp Mul [ZNum w; x]
  end.

(** [wi*xi for wi,xi in zip(w,x)]; the weights are Python numbers. *)
Fixpoint weighted (w : list expr) (x : list z3expr) : M CPM_z3 (list z3expr) :=
  match w, x with
  | Num wi :: w', xi :: x' =>
      let* rest := weighted w' x' in
      ret (py_mul wi xi :: rest)
  | _ :: _, _ :: _ => raise TypeError
  | _, _ => ret []
  end.

(** The comparison operators [_z3_expr] knows. *)
Definition comparison_fun (name : string) : option z3fun :=
  if String.eqb name "<=" then Some Le
  else if String.eqb name "<" then Some Lt
  else if String.eqb name ">=" then Some Ge
  else if String.eqb name ">" then Some Gt
  else if String.eqb name "!=" then Some Ne
  else if String.eqb name "==" then Some Eq
  else None.

(** [_z3_expr] *)
Fixpoint _z3_expr (cpm_con : expr) : M CPM_z3 z3expr :=
  match cpm_con with
  | Num n => ret (ZNum n)
  | EList l =>
      let* es := map_M _z3_expr l in
      ret (ZList es)
  | Var v => solver_var v
  | Operator name args =>
      if String.eqb name "and" then
        let* es := map_M _z3_expr args in ret (ZApp And [ZList es])
      else if String.eqb name "or" then
        let* es := map_M _z3_expr args in ret (ZApp Or [ZList es])
      else if String.eqb name "xor" then
        let* es := map_M _z3_expr args in ret (ZApp Xor [ZList es])
      else if String.eqb name "->" then
        let* es := map_M _z3_expr args in
        match es with
        | [a; b] => ret (ZApp Implies [a; b])
        | _ => raise TypeError
        end
      else if String.eqb name "sum" then
        let* xs := solver_vars args in ret (ZApp Sum [ZList xs])
      else if String.eqb name "wsum" then
        match args with
        | [EList w; EList x] =>
            let* xs := solver_vars x in
            let* terms := weighted w xs in
            ret (ZApp Sum [ZList terms])
        | _ => raise TypeError
        end
      else raise NotImplementedError
  | Comparison name lhs rhs =>
      let* lhs := _z3_expr lhs in
      let* rhs := _z3_expr rhs in
      match comparison_fun name with
      | Some f => ret (ZApp f [lhs; rhs])
      | None => raise NotImplementedError
      end
  | GlobalConstraint name args =>
      if String.eqb name "alldifferent" then
        let* es := map_M _z3_expr args in ret (ZApp Distinct [ZList es])
      else raise NotImplementedError
  end.

(** [__add__]: a list is posted element by element, anything else is
    translated and added. *)
Fixpoint __add__ (cpm_con : expr) : M CPM_z3 unit :=
  match cpm_con with
  | EList l => for_each __add__ l
  | _ =>
      let* e := _z3_expr cpm_con in
      modify (z3_emit (ZAdd e))
  end.

(** [objective]: the expression is translated, then the method reaches
    the name [TEMPLATEpy], which nothing defines. *)
Definition objective (expr : expr) (minimize : bool) : M CPM_z3 unit :=
  let* obj := _z3_expr expr in
  raise NameError.

(** Modelled from the spec: [_solve_return] of the parent class
    [SolverInterface], which is not in these files; there is a solution
    to read exactly when the exit status is [FEASIBLE] or [OPTIMAL]. *)
Definition _solve_return (st : SolverStatus) : bool :=
  match exitstatus st with
  | OPTIMAL | FEASIBLE => true
  | _ => false
  end.

(** [sol[sol_var]]: the interpretation of a constant, [None] when the
    model has none; any other index is refused. *)
Definition model_getitem (sol : model) (sol_var : z3expr)
    : M CPM_z3 (option pyval) :=
  match sol_var with
  | ZInt x => ret (VInt <$> m_int sol x)
  | ZBool x => ret (VBool <$> m_bool sol x)
  | _ => raise Z3Exception
  end.

(** [cpm_var._value = v] *)
Definition store_value (name : string) (v : option pyval) (s : CPM_z3) : CPM_z3 :=
  match v with
  | Some v => set_var_value (<[name := v]> (var_value s)) s
  | None => set_var_value (delete name (var_value s)) s
  end.

Section Methods.

Context `{!Engine}.

(** [solve(time_limit, assumptions, **kwargs)]; the time limit is in
    whole seconds, the keyword values are given by their text. *)
Definition solve (time_limit : option Z) (assumptions : list expr)
    (kwargs : list (string * string)) : M CPM_z3 bool :=
  match time_limit with
  | Some t => modify (z3_emit (ZSet "timeout" (py_str (t * 1000))))
  | None => ret tt
  end ;;
  for_each (fun kv => modify (z3_emit (ZSet (fst kv) (snd kv)))) kwargs ;;
  let* my_status := gets (fun self => z3_check (z3_solver self) assumptions) in
  modify (z3_emit (ZCheck assumptions)) ;;
  modify (fun self =>
    set_cpm_status {| exitstatus := NOT_RUN; runtime := z3_time (z3_solver self) |} self) ;;
  let set_exit e :=
    modify (fun self =>
      set_cpm_status {| exitstatus := e; runtime := runtime (cpm_status self) |} self) in
  (if String.eqb my_status "sat" then set_exit FEASIBLE
   else if String.eqb my_status "unsat" then set_exit UNSATISFIABLE
   else if String.eqb my_status "unknown" then set_exit UNKNOWN
   else raise NotImplementedError) ;;
  let* has_sol := gets (fun self => _solve_return (cpm_status self)) in
  modify (set_objective_value_ None) ;;
  let* vars := gets user_vars in
  (if (has_sol : bool) then
     let* sol := gets (fun self => z3_model (z3_solver self)) in
     for_each (fun cpm_var =>
       let* sol_var := solver_var cpm_var in
       let* v := model_getitem sol sol_var in
       modify (store_value (var_name cpm_var) v)) vars
   else
     for_each (fun cpm_var => modify (store_value (var_name cpm_var) None)) vars) ;;
  ret has_sol.

End Methods.

End Z3.

(** ** What constraints and primitives mean *)

Module Meaning.

Import Exact.

(** An assignment gives every engine variable, by its handle, an
    integer; a Boolean variable is true when its value is 1. *)
Definition assignment : Type := string -> Z.

(** [sum(c*x)] over paired coefficients and handles. *)
Fixpoint lin (σ : assignment) (coefs : list Z) (vars : list string) : Z :=
  match coefs, vars with
  | c :: coefs', v :: vars' => c * σ v + lin σ coefs' vars'
  | _, _ => 0
  end.

(** The integer a transferred number stands for. *)
Definition xnum_value (x : xnum) : Z :=
  match x with
  | XInt n => n
  | XStr s => default 0 (py_int s)
  end.

(** Modelled from the spec: the meaning the flat engine gives to its
    primitives (sections 4.3 and 6; the engine is not in these files).
    A bounded-linear constraint holds when the weighted sum is within
    its active bounds; [Right] is "condition implies sum >= bound",
    [Left] is "sum >= bound implies condition", and the plain
    reification is both; a declaration bounds its variable. *)
Definition accepts (σ : assignment) (c : xct_call) : bool :=
  match c with
  | AddVariable name lb ub =>
      (xnum_value lb <=? σ name) && (σ name <=? xnum_value ub)
  | AddConstraint coefs vars uselb lb useub ub =>
      let v := lin σ (map xnum_value coefs) vars in
      (negb uselb || (xnum_value lb <=? v)) && (negb useub || (v <=? xnum_value ub))
  | AddReification head coefs vars lb =>
      Bool.eqb (σ head =? 1) (xnum_value lb <=? lin σ (map xnum_value coefs) vars)
  | AddRightReification head coefs vars rhs =>
      implb (σ head =? 1) (xnum_value rhs <=? lin σ (map xnum_value coefs) vars)
  | AddLeftReification head coefs vars rhs =>
      implb (xnum_value rhs <=? lin σ (map xnum_value coefs) vars) (σ head =? 1)
  | _ => true
  end.

(** Modelled from the spec: the value of a variable, of a linear
    expression and of a constraint under an assignment (CPMpy's own
    evaluation is not in these files).  A negated view is the
    complement of its variable. *)
Fixpoint var_eval (σ : assignment) (v : cpm_var) : Z :=
  match v with
  | NegBoolView bv => 1 - var_eval σ bv
  | _ => σ (var_name v)
  end.

Fixpoint cond_holds (σ : assignment) (v : cpm_var) : bool :=
  match v with
  | NegBoolView bv => negb (cond_holds σ bv)
  | _ => σ (var_name v) =? 1
  end.

Fixpoint eval (σ : assignment) (e : expr) {struct e} : option Z :=
  let sum_all :=
    fix sum_all (l : list expr) : option Z :=
      match l with
      | [] => Some 0
      | x :: l' =>
          match eval σ x, sum_all l' with
          | Some a, Some b => Some (a + b)
          | _, _ => None
          end
      end in
  let wsum_all :=
    fix wsum_all (ws xs : list expr) {struct xs} : option Z :=
      match ws, xs with
      | Num c :: ws', x :: xs' =>
          match eval σ x, wsum_all ws' xs' with
          | Some a, Some b => Some (c * a + b)
          | _, _ => None
          end
      | _ :: _, _ :: _ => None
      | _, _ => Some 0
      end in
  match e with
  | Num n => Some n
  | Var v => Some (var_eval σ v)
  | Operator name args =>
      if String.eqb name "sum" then sum_all args
      else if String.eqb name "wsum" then
        match args with
        | [EList ws; EList xs] => wsum_all ws xs
        | _ => None
        end
      else if String.eqb name "sub" then
        match args with
        | [a; b] =>
            match eval σ a, eval σ b with
            | Some x, Some y => Some (x - y)
            | _, _ => None
            end
        | _ => None
        end
      else None
  | _ => None
  end.

(** The comparison operators of the flat interface. *)
Definition compare (name : string) (a b : Z) : option bool :=
  if String.eqb name "<=" then Some (a <=? b)
  else if String.eqb name ">=" then Some (b <=? a)
  else if String.eqb name "==" then Some (a =? b)
  else None.

(** A comparison, or an implication from a Boolean variable (or its
    negated view) to a comparison. *)
Definition holds (σ : assignment) (c : expr) : option bool :=
  match c with
  | Comparison name lhs rhs =>
      match eval σ lhs, eval σ rhs with
      | Some a, Some b => compare name a b
      | _, _ => None
      end
  | Operator op [Var cv; Comparison name lhs rhs] =>
      if String.eqb op "->" then
        match eval σ lhs, eval σ rhs with
        | Some a, Some b => implb (cond_holds σ cv) <$> compare name a b
        | _, _ => None
        end
      else None
  | _ => None
  end.

(** Following the spec: the directional reifications of the table in
    section 4.3, before they are encoded for transfer. *)
Inductive reif : Type :=
  | Right (cond : string) (coefs : list Z) (vars : list string) (bound : Z)
  | Left (cond : string) (coefs : list Z) (vars : list string) (bound : Z).


(** Following the spec: a primitive goes through the string-encoded
    variant exactly when some coefficient or active bound has absolute
    value above 1e18. *)
Definition needs_string (values : list Z) : bool :=
  existsb (fun x => threshold <? Z.abs x) values.

Definition encode_all (as_string : bool) (l : list Z) : list xnum :=
  if as_string then map (fun x => XStr (py_str x)) l else map XInt l.

Definition encode (as_string : bool) (x : Z) : xnum :=
  if as_string then XStr (py_str x) else XInt x.

Definition encode_reif (r : reif) : xct_call :=
  match r with
  | Right cond coefs vars bound =>
      let s := needs_string (coefs ++ [bound]) in
      AddRightReification cond (encode_all s coefs) vars (encode s bound)
  | Left cond coefs vars bound =>
      let s := needs_string (coefs ++ [bound]) in
      AddLeftReification cond (encode_all s coefs) vars (encode s bound)
  end.


Definition encode_constr (coefs : list Z) (vars : list string)
    (q : bool * Z * bool * Z) : xct_call :=
  let '(uselb, lb, useub, ub) := q in
  let s := needs_string
             (coefs ++ (if uselb then [lb] else []) ++ (if useub then [ub] else [])) in
  AddConstraint (encode_all s coefs) vars uselb (encode s lb) useub (encode s ub).

(** The variant a transferred call uses. *)
Definition is_string (x : xnum) : bool :=
  match x with XStr _ => true | XInt _ => false end.

Definition string_variant (c : xct_call) : bool :=
  match c with
  | AddVariable _ lb ub => is_string lb && is_string ub
  | AddConstraint coefs _ _ lb _ ub =>
      forallb is_string coefs && is_string lb && is_string ub
  | AddReification _ coefs _ b
  | AddRightReification _ coefs _ b
  | AddLeftReification _ coefs _ b => forallb is_string coefs && is_string b
  | _ => false
  end.

Definition native_variant (c : xct_call) : bool :=
  match c with
  | AddVariable _ lb ub => negb (is_string lb) && negb (is_string ub)
  | AddConstraint coefs _ _ lb _ ub =>
      forallb (fun x => negb (is_string x)) coefs
      && negb (is_string lb) && negb (is_string ub)
  | AddReification _ coefs _ b
  | AddRightReification _ coefs _ b
  | AddLeftReification _ coefs _ b =>
      forallb (fun x => negb (is_string x)) coefs && negb (is_string b)
  | _ => false
  end.

(** The numbers a transferred call carries: its coefficients and the
    bounds that are in use. *)
Definition call_values (c : xct_call) : list Z :=
  match c with
  | AddVariable _ lb ub => [xnum_value lb; xnum_value ub]
  | AddConstraint coefs _ uselb lb useub ub =>
      map xnum_value coefs
      ++ (if uselb then [xnum_value lb] else [])
      ++ (if useub then [xnum_value ub] else [])
  | AddReification _ coefs _ b
  | AddRightReification _ coefs _ b
  | AddLeftReification _ coefs _ b => map xnum_value coefs ++ [xnum_value b]
  | _ => []
  end.

(** The handle cache maps every name to the handle made from it. *)
Definition varmap_ok (self : CPM_exact) : Prop :=
  forall n h, _varmap self !! n = Some h -> h = n.

(** A declaration call. *)
Definition is_decl (c : xct_call) : bool :=
  match c with AddVariable _ _ _ => true | _ => false end.

(** The calls that transfer a primitive: a declaration, a bounded-linear
    constraint or a reification. *)
Definition is_primitive (c : xct_call) : bool :=
  match c with
  | AddVariable _ _ _ | AddConstraint _ _ _ _ _ _ | AddReification _ _ _ _
  | AddRightReification _ _ _ _ | AddLeftReification _ _ _ _ => true
  | _ => false
  end.

(** Following the spec: a primitive is routed by the threshold when it
    uses the string-encoded variant if one of its numbers is above 1e18
    in absolute value, and the native variant if none is. *)
Definition routed (c : xct_call) : Prop :=
  is_primitive c = true ->
  (Exists (fun x => threshold < Z.abs x) (call_values c) ->
   string_variant c = true)
  /\ (Forall (fun x => Z.abs x <= threshold) (call_values c) ->
      native_variant c = true).

End Meaning.

(** ** What z3 expressions mean *)

Module Z3Meaning.

Import Z3.

(** The integers of a list of values, when all of them are integers. *)
Fixpoint all_ints (l : list (option pyval)) : option (list Z) :=
  match l with
  | [] => Some []
  | Some (VInt n) :: l' => cons n <$> all_ints l'
  | _ => None
  end.

(** The Booleans of a list of values, when all of them are Booleans. *)
Fixpoint all_bools (l : list (option pyval)) : option (list bool) :=
  match l with
  | [] => Some []
  | Some (VBool b) :: l' => cons b <$> all_bools l'
  | _ => None
  end.

Fixpoint distinct (l : list Z) : bool :=
  match l with
  | [] => true
  | x :: l' => negb (existsb (Z.eqb x) l') && distinct l'
  end.

(** Modelled from the spec: the value z3 gives to the expressions of
    section 4.4 under a model (z3 itself is not in these files).  An
    expression that is ill typed, or whose constants the model does not
    interpret, has no value. *)
Fixpoint z3_eval (m : model) (e : z3expr) {struct e} : option pyval :=
  match e with
  | ZNum n => Some (VInt n)
  | ZInt x => VInt <$> m_int m x
  | ZBool x => VBool <$> m_bool m x
  | ZList _ => None
  | ZApp f args =>
      match f, args with
      | Not, [a] =>
          match z3_eval m a with
          | Some (VBool b) => Some (VBool (negb b))
          | _ => None
          end
      | And, [ZList l] =>
          (fun bs => VBool (forallb (fun b => b) bs))
            <$> all_bools (map (z3_eval m) l)
      | Or, [ZList l] =>
          (fun bs => VBool (existsb (fun b => b) bs))
            <$> all_bools (map (z3_eval m) l)
      | Xor, [a; b] =>
          match z3_eval m a, z3_eval m b with
          | Some (VBool x), Some (VBool y) => Some (VBool (xorb x y))
          | _, _ => None
          end
      | Implies, [a; b] =>
          match z3_eval m a, z3_eval m b with
          | Some (VBool x), Some (VBool y) => Some (VBool (implb x y))
          | _, _ => None
          end
      | Sum, [ZList l] =>
          (fun ns => VInt (fold_right Z.add 0 ns))
            <$> all_ints (map (z3_eval m) l)
      | Mul, [a; b] =>
          match z3_eval m a, z3_eval m b with
          | Some (VInt x), Some (VInt y) => Some (VInt (x * y))
          | _, _ => None
          end
      | Distinct, [ZList l] =>
          (fun ns => VBool (distinct ns)) <$> all_ints (map (z3_eval m) l)
      | Le, [a; b] =>
          match z3_eval m a, z3_eval m b with
          | Some (VInt x), Some (VInt y) => Some (VBool (x <=? y))
          | _, _ => None
          end
      | Lt, [a; b] =>
          match z3_eval m a, z3_eval m b with
          | Some (VInt x), Some (VInt y) => Some (VBool (x <? y))
          | _, _ => None
          end
      | Ge, [a; b] =>
          match z3_eval m a, z3_eval m b with
          | Some (VInt x), Some (VInt y) => Some (VBool (y <=? x))
          | _, _ => None
          end
      | Gt, [a; b] =>
          match z3_eval m a, z3_eval m b with
          | Some (VInt x), Some (VInt y) => Some (VBool (y <? x))
          | _, _ => None
          end
      | Eq, [a; b] =>
          match z3_eval m a, z3_eval m b with
          | Some (VInt x), Some (VInt y) => Some (VBool (x =? y))
          | Some (VBool x), Some (VBool y) => Some (VBool (Bool.eqb x y))
          | _, _ => None
          end
      | Ne, [a; b] =>
          match z3_eval m a, z3_eval m b with
          | Some (VInt x), Some (VInt y) => Some (VBool (negb (x =? y)))
          | Some (VBool x), Some (VBool y) => Some (VBool (negb (Bool.eqb x y)))
          | _, _ => None
          end
      | _, _ => None
      end
  end.

(** The model satisfies an asserted expression. *)
Definition z3_true (m : model) (e : z3expr) : bool :=
  match z3_eval m e with
  | Some (VBool true) => true
  | _ => false
  end.

(** The model satisfies every assertion among the calls. *)
Definition satisfies (m : model) (calls : list z3_call) : bool :=
  forallb (fun c => match c with ZAdd e => z3_true m e | _ => true end) calls.

(** Modelled from the spec: what "sat" promises (z3 itself is not in
    these files): the model read after a check that answered "sat"
    satisfies every expression added before the check. *)
Definition sound (E : Engine) : Prop :=
  forall calls assumptions,
    z3_check calls assumptions = "sat" ->
    satisfies (z3_model (calls ++ [ZCheck assumptions])) calls = true.

End Z3Meaning.

(** ** Concrete collaborators *)

(** Small transformations and engines on which the statements below are
    exercised. *)
Module Demo.

Import Exact.

(** Transformations for constraints that are already primitive: a list
    is its elements, everything else is left as it is. *)
Definition plain : Transformations :=
  {| get_variables := fun _ => [];
     flatten_constraint :=
       fun e => match e with EList l => l | _ => [e] end;
     reify_rewrite := fun l => l;
     only_bv_implies := fun l => l;
     linearize_constraint := fun l => l;
     only_numexpr_equality := fun l => l;
     only_positive_bv := fun l => l;
     flatten_objective := fun e => (e, []);
     decompose := fun _ => [] |}.

(** An engine that always times out without a solution. *)
Definition undecided : Engine :=
  {| xct_runFull := fun _ => 2;
     xct_runOnce := fun _ => 2;
     xct_hasSolution := fun _ => false;
     xct_getLastSolutionFor := fun _ _ => [];
     xct_getObjectiveBounds := fun _ => (0, 0) |}.

(** An engine that proves optimality at once, with every variable at 1
    and 7 as the objective's upper bound. *)
Definition decided : Engine :=
  {| xct_runFull := fun _ => 0;
     xct_runOnce := fun _ => 0;
     xct_hasSolution := fun _ => true;
     xct_getLastSolutionFor := fun _ handles => map (fun _ => 1) handles;
     xct_getObjectiveBounds := fun _ => (0, 7) |}.

Definition x : cpm_var := IntVar "x" 0 5.
Definition y : cpm_var := IntVar "y" 0 5.
Definition b : cpm_var := BoolVar "b".

(** A z3 model with every integer at 3 and every Boolean true. *)
Definition threes : Z3.model :=
  {| Z3.m_int := fun _ => Some 3; Z3.m_bool := fun _ => Some true |}.

(** A solver that answers "sat" with that model when it satisfies
    everything added so far, and "unknown" otherwise. *)
Definition guesser : Z3.Engine :=
  {| Z3.z3_check := fun calls _ =>
       if Z3Meaning.satisfies threes calls then "sat" else "unknown";
     Z3.z3_time := fun _ => 0;
     Z3.z3_model := fun _ => threes |}.

(** A solver that gives up on every check. *)
Definition clueless : Z3.Engine :=
  {| Z3.z3_check := fun _ _ => "unknown";
     Z3.z3_time := fun _ => 0;
     Z3.z3_model := fun _ => threes |}.

End Demo.

(** ** Reasoning about methods *)

Lemma bind_ret_l {S A B} (a : A) (k : A -> M S B) (s : S) :
  bind (ret a) k s = k a s.
Proof. reflexivity. Qed.

Lemma bind_run {S A B} (m : M S A) (k : A -> M S B) (s s' : S) (a : A) :
  m s = (Ret a, s') -> bind m k s = k a s'.
Proof. intros H. unfold bind. now rewrite H. Qed.

Lemma bind_raise {S A B} (m : M S A) (k : A -> M S B) (s s' : S) (e : exn) :
  m s = (Raise e, s') -> bind m k s = (Raise e, s').
Proof. intros H. unfold bind. now rewrite H. Qed.

Lemma bind_inv {S A B} (m : M S A) (k : A -> M S B) (s s2 : S) (b : B) :
  bind m k s = (Ret b, s2) ->
  exists a s1, m s = (Ret a, s1) /\ k a s1 = (Ret b, s2).
Proof.
  unfold bind. destruct (m s) as [[a|e|] s1]; intros H; try discriminate.
  now exists a, s1.
Qed.

(** A relation between the state before and after, which every step of
    a method respects. *)
Section Preserved.

Context {S : Type} (R : S -> S -> Prop).
Hypothesis R_refl : forall s, R s s.
Hypothesis R_trans : forall s1 s2 s3, R s1 s2 -> R s2 s3 -> R s1 s3.

Definition preserves {A} (m : M S A) : Prop :=
  forall s, R s (snd (m s)).

Lemma preserves_ret {A} (a : A) : preserves (ret a).
Proof. intros s. apply R_refl. Qed.

Lemma preserves_raise {A} (e : exn) : preserves (@raise S A e).
Proof. intros s. apply R_refl. Qed.

Lemma preserves_out_of_fuel {A} : preserves (@out_of_fuel S A).
Proof. intros s. apply R_refl. Qed.

Lemma preserves_gets {A} (f : S -> A) : preserves (gets f).
Proof. intros s. apply R_refl. Qed.

Lemma preserves_assert (c : bool) : preserves (@assert S c).
Proof. destruct c; intros s; apply R_refl. Qed.

Lemma preserves_modify (f : S -> S) :
  (forall s, R s (f s)) -> preserves (modify f).
Proof. intros H s. apply H. Qed.

Lemma preserves_bind {A B} (m : M S A) (k : A -> M S B) :
  preserves m -> (forall a, preserves (k a)) -> preserves (bind m k).
Proof.
  intros Hm Hk s. unfold bind.
  specialize (Hm s). destruct (m s) as [[a|e|] s1]; simpl in *; auto.
  eapply R_trans; [exact Hm | apply Hk].
Qed.

Lemma preserves_for_each {A} (body : A -> M S unit) (l : list A) :
  (forall x, preserves (body x)) -> preserves (for_each body l).
Proof.
  intros H. induction l as [|x l IH]; simpl.
  - apply preserves_ret.
  - apply preserves_bind; auto.
Qed.

Lemma preserves_map_M {A B} (f : A -> M S B) (l : list A) :
  (forall x, preserves (f x)) -> preserves (map_M f l).
Proof.
  intros H. induction l as [|x l IH]; simpl.
  - apply preserves_ret.
  - apply preserves_bind; [apply H|]. intros y.
    apply preserves_bind; [apply IH|]. intros ys. apply preserves_ret.
Qed.

End Preserved.

Ltac pres_step :=
  match goal with
  | |- preserves _ _ => assumption
  | |- preserves _ (bind _ _) => apply preserves_bind; [assumption| |intros ?]
  | |- preserves _ (ret _) => apply preserves_ret; assumption
  | |- preserves _ (raise _) => apply preserves_raise; assumption
  | |- preserves _ out_of_fuel => apply preserves_out_of_fuel; assumption
  | |- preserves _ (raise_naming _ _) => unfold raise_naming
  | |- preserves _ (gets _) => apply preserves_gets; assumption
  | |- preserves _ (assert _) => apply preserves_assert; assumption
  | |- preserves _ (modify _) =>
      apply preserves_modify; intros ?; cbv beta; solve [auto]
  | |- preserves _ (for_each _ _) =>
      apply preserves_for_each; [assumption|assumption|intros ?]
  | |- preserves _ (map_M _ _) =>
      apply preserves_map_M; [assumption|assumption|intros ?]
  | |- preserves _ (match ?x with _ => _ end) => destruct x
  | |- preserves _ _ => solve [auto]
  end.

Ltac pres := repeat pres_step.

(** ** Facts about the Exact interface *)

Module ExactFacts.

Import Exact Meaning.

(** The methods that emit primitives respect a relation that every
    call to the engine and every cache entry respects. *)
Section Emitters.

Context (R : CPM_exact -> CPM_exact -> Prop).
Hypothesis R_refl : forall s, R s s.
Hypothesis R_trans : forall s1 s2 s3, R s1 s2 -> R s2 s3 -> R s1 s3.
Hypothesis R_emit : forall c s, R s (xct_emit c s).
Hypothesis R_insert :
  forall n s, R s (set_varmap (<[n := n]> (_varmap s)) s).

Lemma solver_var_emits v : preserves R (solver_var v).
Proof.
  induction v; simpl; pres.
Qed.

Lemma _add_xct_constr_emits cs vs uselb lb useub ub :
  preserves R (_add_xct_constr cs vs uselb lb useub ub).
Proof. unfold _add_xct_constr. pres. Qed.

Lemma _add_xct_reif_emits h cs vs lb :
  preserves R (_add_xct_reif h cs vs lb).
Proof. unfold _add_xct_reif. pres. Qed.

Lemma _add_xct_reif_right_emits h cs vs rhs :
  preserves R (_add_xct_reif_right h cs vs rhs).
Proof. unfold _add_xct_reif_right. pres. Qed.

Lemma _add_xct_reif_left_emits h cs vs rhs :
  preserves R (_add_xct_reif_left h cs vs rhs).
Proof. unfold _add_xct_reif_left. pres. Qed.

End Emitters.

(** Every method respects a relation that the emitting methods and all
    the other writes of the class respect. *)
Section Frame.

Context {TR : Transformations} {EN : Engine}.
Context (R : CPM_exact -> CPM_exact -> Prop).
Hypothesis R_refl : forall s, R s s.
Hypothesis R_trans : forall s1 s2 s3, R s1 s2 -> R s2 s3 -> R s1 s3.
Hypothesis solver_var_preserves : forall v, preserves R (solver_var v).
Hypothesis _add_xct_constr_preserves :
  forall cs vs uselb lb useub ub,
    preserves R (_add_xct_constr cs vs uselb lb useub ub).
Hypothesis _add_xct_reif_right_preserves :
  forall h cs vs rhs, preserves R (_add_xct_reif_right h cs vs rhs).
Hypothesis _add_xct_reif_left_preserves :
  forall h cs vs rhs, preserves R (_add_xct_reif_left h cs vs rhs).
Hypothesis R_other :
  forall c s, is_primitive c = false -> R s (xct_emit c s).
Hypothesis R_user_vars : forall u s, R s (set_user_vars u s).
Hypothesis R_objective_value : forall o s, R s (set_objective_value_ o s).
Hypothesis R_status : forall st s, R s (set_cpm_status st s).
Hypothesis R_var_value : forall m s, R s (set_var_value m s).
Hypothesis R_minimize : forall b s, R s (set_objective_minimize b s).
Hypothesis R_flag : forall s, R s (set_has_objective true s).

Lemma solver_var_of_preserves e : preserves R (solver_var_of e).
Proof.
  destruct e; simpl; pres.
Qed.

Lemma fold_M_preserves {A} (step : numexpr -> A -> M CPM_exact numexpr) l acc :
  (forall a x, preserves R (step a x)) -> preserves R (fold_M step l acc).
Proof.
  intros H. revert acc. induction l as [|x l IH]; intros acc; simpl; pres.
Qed.

Lemma sum_step_preserves acc x : preserves R (sum_step acc x).
Proof.
  pose proof solver_var_of_preserves.
  unfold sum_step. destruct acc as [[cs vs] r]. pres.
Qed.

Lemma wsum_step_preserves acc cx : preserves R (wsum_step acc cx).
Proof.
  pose proof solver_var_of_preserves.
  unfold wsum_step. destruct acc as [[cs vs] r], cx as [c x]. pres.
Qed.

Lemma _make_numexpr_preserves lhs rhs : preserves R (_make_numexpr lhs rhs).
Proof.
  pose proof solver_var_of_preserves.
  pose proof sum_step_preserves. pose proof wsum_step_preserves.
  assert (forall A (step : numexpr -> A -> M CPM_exact numexpr) l acc,
    (forall a x, preserves R (step a x)) -> preserves R (fold_M step l acc))
    by (intros; now apply fold_M_preserves).
  unfold _make_numexpr. pres.
Qed.

Lemma _post_constraint_preserves self_add e :
  (forall c, preserves R (self_add c)) ->
  preserves R (_post_constraint self_add e).
Proof.
  intros Hadd.
  pose proof _make_numexpr_preserves.
  unfold _post_constraint, indicator_lhs_ok. pres.
Qed.

Lemma __add___preserves fuel e : preserves R (__add__ fuel e).
Proof.
  revert e. induction fuel as [|fuel IH]; intros e; simpl; pres.
  apply _post_constraint_preserves. exact IH.
Qed.

Lemma objective_preserves fuel e minimize :
  preserves R (objective fuel e minimize).
Proof.
  pose proof __add___preserves. pose proof _make_numexpr_preserves.
  unfold objective. pres.
Qed.

Lemma fill_values_preserves vals i vars :
  preserves R (fill_values vals i vars).
Proof.
  revert i. induction vars as [|v vars IH]; intros i; simpl; pres.
Qed.

Lemma getSolAndObj_preserves : preserves R getSolAndObj.
Proof.
  pose proof fill_values_preserves.
  unfold getSolAndObj. pres.
Qed.

Lemma init_if_no_objective_preserves : preserves R init_if_no_objective.
Proof. unfold init_if_no_objective. pres. Qed.

Lemma set_options_preserves kwargs : preserves R (set_options kwargs).
Proof. unfold set_options. pres. Qed.

Lemma set_time_limit_preserves t : preserves R (set_time_limit t).
Proof. unfold set_time_limit. pres. Qed.

Lemma solve_preserves t a kw : preserves R (solve t a kw).
Proof.
  pose proof getSolAndObj_preserves. pose proof init_if_no_objective_preserves.
  pose proof set_options_preserves. pose proof set_time_limit_preserves.
  unfold solve, set_exitstatus. pres.
Qed.

Lemma run_while_in_progress_preserves fuel :
  preserves R (run_while_in_progress fuel).
Proof. induction fuel as [|fuel IH]; simpl; pres. Qed.

Lemma solveAll_loop_preserves fuel limit found :
  preserves R (solveAll_loop fuel limit found).
Proof.
  pose proof getSolAndObj_preserves. pose proof run_while_in_progress_preserves.
  revert found. induction fuel as [|fuel IH]; intros found; simpl; pres.
Qed.

Lemma solveAll_preserves fuel t limit kw : preserves R (solveAll fuel t limit kw).
Proof.
  pose proof solveAll_loop_preserves. pose proof init_if_no_objective_preserves.
  pose proof set_options_preserves. pose proof set_time_limit_preserves.
  unfold solveAll. pres.
Qed.

End Frame.

(** One call of a public method of the class, however it ends. *)
Inductive step {TR : Transformations} {EN : Engine}
    : CPM_exact -> CPM_exact -> Prop :=
  | step_add fuel e s : step s (snd (__add__ fuel e s))
  | step_objective fuel e minimize s :
      step s (snd (objective fuel e minimize s))
  | step_solve t a kw s : step s (snd (solve t a kw s))
  | step_solveAll fuel t limit kw s :
      step s (snd (solveAll fuel t limit kw s))
  | step_solver_var v s : step s (snd (solver_var v s))
  | step_getSolAndObj s : step s (snd (getSolAndObj s)).

(** A relation that the emitting methods and the other writes respect
    holds across every method call. *)
Section Steps.

Context {TR : Transformations} {EN : Engine}.
Context (R : CPM_exact -> CPM_exact -> Prop).
Hypothesis R_refl : forall s, R s s.
Hypothesis R_trans : forall s1 s2 s3, R s1 s2 -> R s2 s3 -> R s1 s3.
Hypothesis solver_var_preserves : forall v, preserves R (solver_var v).
Hypothesis _add_xct_constr_preserves :
  forall cs vs uselb lb useub ub,
    preserves R (_add_xct_constr cs vs uselb lb useub ub).
Hypothesis _add_xct_reif_right_preserves :
  forall h cs vs rhs, preserves R (_add_xct_reif_right h cs vs rhs).
Hypothesis _add_xct_reif_left_preserves :
  forall h cs vs rhs, preserves R (_add_xct_reif_left h cs vs rhs).
Hypothesis R_other :
  forall c s, is_primitive c = false -> R s (xct_emit c s).
Hypothesis R_user_vars : forall u s, R s (set_user_vars u s).
Hypothesis R_objective_value : forall o s, R s (set_objective_value_ o s).
Hypothesis R_status : forall st s, R s (set_cpm_status st s).
Hypothesis R_var_value : forall m s, R s (set_var_value m s).
Hypothesis R_minimize : forall b s, R s (set_objective_minimize b s).
Hypothesis R_flag : forall s, R s (set_has_objective true s).

Lemma step_respects s s' : step s s' -> R s s'.
Proof.
  destruct 1.
  - now apply __add___preserves.
  - now apply objective_preserves.
  - now apply solve_preserves.
  - now apply solveAll_preserves.
  - apply solver_var_preserves.
  - now apply getSolAndObj_preserves.
Qed.

Lemma steps_respect s s' : rtc step s s' -> R s s'.
Proof.
  induction 1 as [|s1 s2 s3 H12 _ IH]; [apply R_refl|].
  eapply R_trans; [|exact IH]. now apply step_respects.
Qed.

End Steps.

(** The same for a relation that every write of the class respects. *)
Section Writes.

Context {TR : Transformations} {EN : Engine}.
Context (R : CPM_exact -> CPM_exact -> Prop).
Hypothesis R_refl : forall s, R s s.
Hypothesis R_trans : forall s1 s2 s3, R s1 s2 -> R s2 s3 -> R s1 s3.
Hypothesis R_emit : forall c s, R s (xct_emit c s).
Hypothesis R_insert :
  forall n s, R s (set_varmap (<[n := n]> (_varmap s)) s).
Hypothesis R_user_vars : forall u s, R s (set_user_vars u s).
Hypothesis R_objective_value : forall o s, R s (set_objective_value_ o s).
Hypothesis R_status : forall st s, R s (set_cpm_status st s).
Hypothesis R_var_value : forall m s, R s (set_var_value m s).
Hypothesis R_minimize : forall b s, R s (set_objective_minimize b s).
Hypothesis R_flag : forall s, R s (set_has_objective true s).

Lemma steps_respect_writes s s' : rtc step s s' -> R s s'.
Proof.
  apply steps_respect; auto; intros.
  - now apply solver_var_emits.
  - now apply _add_xct_constr_emits.
  - now apply _add_xct_reif_right_emits.
  - now apply _add_xct_reif_left_emits.
Qed.

Lemma _make_numexpr_respects lhs rhs : preserves R (_make_numexpr lhs rhs).
Proof.
  apply _make_numexpr_preserves; auto; intros.
  now apply solver_var_emits.
Qed.

Lemma __add___respects fuel e : preserves R (__add__ fuel e).
Proof.
  apply __add___preserves; auto; intros.
  - now apply solver_var_emits.
  - now apply _add_xct_constr_emits.
  - now apply _add_xct_reif_right_emits.
  - now apply _add_xct_reif_left_emits.
Qed.

End Writes.

End ExactFacts.

(** ** The Exact interface: the objective and the extraction *)

Module ExactCorrect.

Import Exact Meaning ExactFacts.

Section Session.

Context {TR : Transformations} {EN : Engine}.

(** Once set, [has_objective] stays set. *)
Definition flag_kept (s s' : CPM_exact) : Prop :=
  has_objective s = true -> has_objective s' = true.

(** The engine's call log only grows. *)
Definition log_grows (s s' : CPM_exact) : Prop :=
  exists calls, xct_solver s' = xct_solver s ++ calls.

Lemma log_grows_refl s : log_grows s s.
Proof. exists []. now rewrite app_nil_r. Qed.

Lemma log_grows_trans s1 s2 s3 :
  log_grows s1 s2 -> log_grows s2 s3 -> log_grows s1 s3.
Proof.
  intros [c1 H1] [c2 H2]. exists (c1 ++ c2).
  now rewrite H2, H1, app_assoc.
Qed.

Lemma log_grows_emit c s : log_grows s (xct_emit c s).
Proof. now exists [c]. Qed.

Lemma steps_flag_kept s s' : rtc step s s' -> flag_kept s s'.
Proof.
  apply steps_respect_writes; unfold flag_kept; simpl; auto.
Qed.

Lemma log_grows_same s s' : xct_solver s' = xct_solver s -> log_grows s s'.
Proof. intros H. exists []. now rewrite app_nil_r. Qed.

Lemma steps_log_grows s s' : rtc step s s' -> log_grows s s'.
Proof.
  apply steps_respect_writes;
    auto using log_grows_refl, log_grows_emit; try apply log_grows_trans;
    intros; now apply log_grows_same.
Qed.

(** The assertion on the first line of [objective]. *)
Lemma objective_refused fuel e minimize s :
  has_objective s = true ->
  objective fuel e minimize s = (Raise AssertionError, s).
Proof.
  intros H. unfold objective, bind, gets, assert. now rewrite H.
Qed.

Lemma flag_kept_refl s : flag_kept s s.
Proof. now intros ?. Qed.

Lemma flag_kept_trans s1 s2 s3 :
  flag_kept s1 s2 -> flag_kept s2 s3 -> flag_kept s1 s3.
Proof. unfold flag_kept. auto. Qed.

Lemma objective_sets_flag fuel e minimize s :
  has_objective (snd (objective fuel e minimize s)) = true.
Proof.
  destruct (has_objective s) eqn:Hs.
  - now rewrite objective_refused.
  - unfold objective.
    rewrite (bind_run _ _ s s false) by (unfold gets; now rewrite Hs).
    simpl negb. rewrite (bind_run _ _ s s tt) by reflexivity.
    rewrite (bind_run _ _ s (set_has_objective true s) tt) by reflexivity.
    match goal with
    | |- has_objective (snd (?m ?s0)) = true =>
        assert (Hp : preserves flag_kept m)
    end.
    { pose proof flag_kept_refl. pose proof flag_kept_trans.
      assert (forall fuel e, preserves flag_kept (__add__ fuel e))
        by (intros; apply __add___respects; unfold flag_kept; simpl; auto).
      assert (forall l r, preserves flag_kept (_make_numexpr l r))
        by (intros; apply _make_numexpr_respects; unfold flag_kept; simpl; auto).
      pres; unfold flag_kept; simpl; auto. }
    apply Hp. reflexivity.
Qed.

(** C5. The objective can be set once per session.  A call to
    [objective] on a session that already has one raises the assertion
    error and leaves the session exactly as it was: the check comes
    before every write.  And whatever a first call to [objective] does,
    the session it leaves refuses every later call. *)
Theorem objective_set_at_most_once fuel e minimize s :
  (has_objective s = true ->
   objective fuel e minimize s = (Raise AssertionError, s))
  /\ (forall fuel' e' minimize',
        let s' := snd (objective fuel e minimize s) in
        objective fuel' e' minimize' s' = (Raise AssertionError, s')).
Proof.
  split.
  - apply objective_refused.
  - intros. apply objective_refused, objective_sets_flag.
Qed.

Lemma getSolAndObj_without_solution s :
  xct_hasSolution (xct_solver s) = false ->
  getSolAndObj s = (Ret false, set_objective_value_ None s).
Proof.
  intros H. unfold getSolAndObj, bind, gets. now rewrite H.
Qed.

(** C7. When the engine has no solution, [getSolAndObj] returns [False]
    and stores [None] as the objective value; the value of every
    variable, and every other attribute of the session, is left as it
    was. *)
Theorem getSolAndObj_no_solution s :
  xct_hasSolution (xct_solver s) = false ->
  getSolAndObj s = (Ret false, set_objective_value_ None s)
  /\ objective_value_ (snd (getSolAndObj s)) = None
  /\ var_value (snd (getSolAndObj s)) = var_value s
  /\ _varmap (snd (getSolAndObj s)) = _varmap s
  /\ xct_solver (snd (getSolAndObj s)) = xct_solver s.
Proof.
  intros H. rewrite (getSolAndObj_without_solution s H). auto.
Qed.

Lemma init_if_no_objective_fresh s :
  has_objective s = false ->
  init_if_no_objective s
  = (Ret tt, xct_emit (Init [] []) (set_has_objective true s)).
Proof.
  intros H. unfold init_if_no_objective, bind, gets. now rewrite H.
Qed.

Lemma solve_marks_objective t a kw s :
  has_objective s = false ->
  has_objective (snd (solve t a kw s)) = true
  /\ exists calls,
       xct_solver (snd (solve t a kw s)) = xct_solver s ++ Init [] [] :: calls.
Proof.
  intros H. unfold solve.
  rewrite (bind_run _ _ _ _ _ (init_if_no_objective_fresh s H)).
  match goal with
  | |- has_objective (snd (?m ?s0)) = true /\ _ =>
      assert (Hp : rtc step s0 (snd (m s0)))
        by apply rtc_once, (step_solve t a kw s0)
  end.
  split.
  - now apply (steps_flag_kept _ _ Hp).
  - destruct (steps_log_grows _ _ Hp) as [calls Hc].
    exists calls. rewrite Hc. simpl. now rewrite <- app_assoc.
Qed.

Lemma solveAll_marks_objective fuel t limit kw s :
  has_objective s = false ->
  has_objective (snd (solveAll fuel t limit kw s)) = true
  /\ exists calls,
       xct_solver (snd (solveAll fuel t limit kw s))
       = xct_solver s ++ Init [] [] :: calls.
Proof.
  intros H. unfold solveAll.
  rewrite (bind_run _ _ _ _ _ (init_if_no_objective_fresh s H)).
  match goal with
  | |- has_objective (snd (?m ?s0)) = true /\ _ =>
      assert (Hp : rtc step s0 (snd (m s0)))
        by apply rtc_once, (step_solveAll fuel t limit kw s0)
  end.
  split.
  - now apply (steps_flag_kept _ _ Hp).
  - destruct (steps_log_grows _ _ Hp) as [calls Hc].
    exists calls. rewrite Hc. simpl. now rewrite <- app_assoc.
Qed.

(** C9. On a session without objective, [solve] and [solveAll] mark the
    session as having one and initialise the engine with the empty
    objective [init([],[])]; the mark stays through every later method
    call, so that every later call to [objective] raises the assertion
    error, although no objective was posted. *)
Theorem solve_blocks_later_objective s :
  has_objective s = false ->
  (forall t a kw s1, s1 = snd (solve t a kw s) ->
     has_objective s1 = true
     /\ (exists calls, xct_solver s1 = xct_solver s ++ Init [] [] :: calls)
     /\ forall s2, rtc step s1 s2 ->
          forall fuel e minimize,
            objective fuel e minimize s2 = (Raise AssertionError, s2))
  /\ (forall fuel t limit kw s1, s1 = snd (solveAll fuel t limit kw s) ->
     has_objective s1 = true
     /\ (exists calls, xct_solver s1 = xct_solver s ++ Init [] [] :: calls)
     /\ forall s2, rtc step s1 s2 ->
          forall fuel e minimize,
            objective fuel e minimize s2 = (Raise AssertionError, s2)).
Proof.
  intros H. split.
  - intros t a kw s1 ->.
    destruct (solve_marks_objective t a kw s H) as [Hf Hl].
    repeat split; auto. intros s2 Hs fuel e minimize.
    apply objective_refused. now apply (steps_flag_kept _ _ Hs).
  - intros fuel t limit kw s1 ->.
    destruct (solveAll_marks_objective fuel t limit kw s H) as [Hf Hl].
    repeat split; auto. intros s2 Hs fuel' e minimize.
    apply objective_refused. now apply (steps_flag_kept _ _ Hs).
Qed.

End Session.

Lemma objective_set_at_most_once_witness :
  let s := set_has_objective true init_session in
  has_objective s = true
  /\ @objective Demo.plain 1 (Var Demo.x) true s = (Raise AssertionError, s).
Proof.
  split; [reflexivity|].
  apply (proj1 (@objective_set_at_most_once Demo.plain 1 (Var Demo.x) true
                  (set_has_objective true init_session))).
  reflexivity.
Defined.

Lemma getSolAndObj_no_solution_witness :
  let s := set_var_value {["x" := VInt 3]} init_session in
  @xct_hasSolution Demo.undecided (xct_solver s) = false
  /\ var_value (snd (@getSolAndObj Demo.undecided s)) = {["x" := VInt 3]}.
Proof.
  split; [reflexivity|].
  exact (proj1 (proj2 (proj2
    (@getSolAndObj_no_solution Demo.undecided
       (set_var_value {["x" := VInt 3]} init_session) eq_refl)))).
Defined.

Lemma solve_blocks_later_objective_witness :
  has_objective init_session = false
  /\ @objective Demo.plain 1 (Var Demo.x) true
       (snd (@solve Demo.undecided None None [] init_session))
     = (Raise AssertionError,
        snd (@solve Demo.undecided None None [] init_session)).
Proof.
  split; [reflexivity|].
  apply (proj2 (proj2 (proj1
    (@solve_blocks_later_objective Demo.plain Demo.undecided init_session
       eq_refl) None None [] _ eq_refl))).
  apply rtc_refl.
Defined.

End ExactCorrect.

(** ** The Exact interface: transfer of numbers and the threshold *)

Module ExactTransfer.

Import Exact Meaning ExactFacts.

Lemma py_int_py_str z : py_int (py_str z) = Some z.
Proof.
  unfold py_int, py_str.
  rewrite NilZero.isi.
  - simpl. now rewrite DecimalZ.of_to.
  - destruct z; simpl; try discriminate.
    intros [= H]. now apply DecimalPos.Unsigned.to_uint_nonnil in H.
  - destruct z; simpl; try discriminate.
    intros [= H]. now apply DecimalPos.Unsigned.to_uint_nonnil in H.
Qed.

Lemma xnum_value_str z : xnum_value (XStr (py_str z)) = z.
Proof. simpl. now rewrite py_int_py_str. Qed.

Lemma xnum_value_encode b z : xnum_value (encode b z) = z.
Proof. destruct b; [apply xnum_value_str | reflexivity]. Qed.

Lemma xnum_value_encode_all b l : map xnum_value (encode_all b l) = l.
Proof.
  destruct b; simpl; induction l as [|x l IH]; simpl; auto;
    rewrite ?py_int_py_str; simpl; now f_equal.
Qed.

Lemma is_string_encode_all l :
  forallb is_string (encode_all true l) = true.
Proof. induction l; simpl; auto. Qed.

Lemma is_native_encode_all l :
  forallb (fun x => negb (is_string x)) (encode_all false l) = true.
Proof. induction l; simpl; auto. Qed.

Lemma threshold_large : 1 < threshold.
Proof. reflexivity. Qed.

Lemma fold_max_above t l x :
  (t <? fold_left Z.max l x) = (t <? x) || existsb (fun y => t <? y) l.
Proof.
  revert x. induction l as [|y l IH]; intros x; simpl.
  - now rewrite orb_false_r.
  - rewrite IH, orb_assoc. f_equal.
    destruct (Z.ltb_spec t (Z.max x y)), (Z.ltb_spec t x), (Z.ltb_spec t y);
      simpl; auto; lia.
Qed.

Lemma py_max_above t l m :
  py_max l = Some m -> (t <? m) = existsb (fun y => t <? y) l.
Proof.
  destruct l as [|x l]; simpl; [discriminate|].
  intros [= <-]. apply fold_max_above.
Qed.

Lemma existsb_abs l :
  existsb (fun y => threshold <? y) (map Z.abs l) = needs_string l.
Proof. unfold needs_string. induction l; simpl; auto. now f_equal. Qed.

(** The maximum computed by the emitters exists exactly for a non-empty
    coefficient list, and is above the threshold exactly when one of the
    numbers is. *)
Lemma maximum_of_spec cs bounds :
  cs <> [] ->
  exists m, maximum_of cs (map Z.abs bounds) = Some m
            /\ (threshold <? m) = needs_string (cs ++ bounds).
Proof.
  intros Hcs. unfold maximum_of.
  destruct cs as [|c cs]; [easy|].
  destruct (py_max (map Z.abs (c :: cs))) as [m0|] eqn:E0; [|discriminate].
  eexists. split; [reflexivity|].
  rewrite (py_max_above threshold (m0 :: map Z.abs bounds) _ eq_refl).
  simpl existsb. rewrite (py_max_above _ _ _ E0).
  rewrite <- existsb_abs, map_app, existsb_app. reflexivity.
Qed.

Lemma maximum_of_nil bounds : maximum_of [] bounds = None.
Proof. reflexivity. Qed.

Lemma needs_string_skip_zero cs (uselb useub : bool) lb ub :
  needs_string (cs ++ [if uselb then lb else 0; if useub then ub else 0])
  = needs_string (cs ++ (if uselb then [lb] else []) ++ (if useub then [ub] else [])).
Proof.
  unfold needs_string. rewrite !existsb_app.
  destruct uselb, useub; simpl; rewrite ?orb_false_r; reflexivity.
Qed.

Lemma needs_string_true l :
  needs_string l = true <-> Exists (fun x => threshold < Z.abs x) l.
Proof.
  unfold needs_string. rewrite existsb_exists, List.Exists_exists.
  split; intros (x & Hx & H); exists x; split; auto; now apply Z.ltb_lt.
Qed.

Lemma needs_string_false l :
  needs_string l = false <-> Forall (fun x => Z.abs x <= threshold) l.
Proof.
  rewrite <- not_true_iff_false, needs_string_true, <- List.Forall_Exists_neg.
  apply Forall_iff. intros x. lia.
Qed.

(** What each emitter does: nothing but raise on an empty coefficient
    list, and otherwise one call, encoded by the threshold. *)
Lemma _add_xct_constr_run cs vs uselb lb useub ub s :
  cs <> [] ->
  _add_xct_constr cs vs uselb lb useub ub s
  = (Ret tt, xct_emit (encode_constr cs vs (uselb, lb, useub, ub)) s).
Proof.
  intros Hcs. unfold _add_xct_constr, encode_constr.
  destruct (maximum_of_spec cs [if uselb then lb else 0; if useub then ub else 0] Hcs)
    as (m & Hm & Hs).
  simpl map in Hm. rewrite needs_string_skip_zero in Hs. rewrite Hm, Hs.
  clear Hs. destruct (needs_string _); reflexivity.
Qed.

Lemma _add_xct_reif_right_run h cs vs rhs s :
  cs <> [] ->
  _add_xct_reif_right h cs vs rhs s
  = (Ret tt, xct_emit (encode_reif (Right h cs vs rhs)) s).
Proof.
  intros Hcs. unfold _add_xct_reif_right, encode_reif.
  destruct (maximum_of_spec cs [rhs] Hcs) as (m & Hm & Hs).
  simpl map in Hm. rewrite Hm, Hs.
  clear Hs. destruct (needs_string _); reflexivity.
Qed.

Lemma _add_xct_reif_left_run h cs vs rhs s :
  cs <> [] ->
  _add_xct_reif_left h cs vs rhs s
  = (Ret tt, xct_emit (encode_reif (Left h cs vs rhs)) s).
Proof.
  intros Hcs. unfold _add_xct_reif_left, encode_reif.
  destruct (maximum_of_spec cs [rhs] Hcs) as (m & Hm & Hs).
  simpl map in Hm. rewrite Hm, Hs.
  clear Hs. destruct (needs_string _); reflexivity.
Qed.

Lemma _add_xct_reif_run h cs vs lb s :
  cs <> [] ->
  _add_xct_reif h cs vs lb s
  = (Ret tt,
     xct_emit (AddReification h (encode_all (needs_string (cs ++ [lb])) cs) vs
                 (encode (needs_string (cs ++ [lb])) lb)) s).
Proof.
  intros Hcs. unfold _add_xct_reif.
  destruct (maximum_of_spec cs [lb] Hcs) as (m & Hm & Hs).
  simpl map in Hm. rewrite Hm, Hs.
  clear Hs. destruct (needs_string _); reflexivity.
Qed.


(** The encoded calls are routed by the threshold. *)
Lemma routed_by_flag c :
  (needs_string (call_values c) = true -> string_variant c = true) ->
  (needs_string (call_values c) = false -> native_variant c = true) ->
  routed c.
Proof.
  intros Hs Hn _. split; intros H.
  - now apply Hs, needs_string_true.
  - now apply Hn, needs_string_false.
Qed.

Lemma routed_encode_reif r : routed (encode_reif r).
Proof.
  destruct r; apply routed_by_flag; simpl;
    rewrite xnum_value_encode_all, xnum_value_encode; intros ->; simpl;
    repeat (apply andb_true_intro; split); try reflexivity;
    first [apply is_string_encode_all | apply is_native_encode_all].
Qed.

Lemma routed_reification h cs vs lb :
  routed (AddReification h (encode_all (needs_string (cs ++ [lb])) cs) vs
            (encode (needs_string (cs ++ [lb])) lb)).
Proof.
  apply routed_by_flag; simpl;
    rewrite xnum_value_encode_all, xnum_value_encode; intros ->; simpl;
    repeat (apply andb_true_intro; split); try reflexivity;
    first [apply is_string_encode_all | apply is_native_encode_all].
Qed.

Lemma routed_encode_constr cs vs q : routed (encode_constr cs vs q).
Proof.
  destruct q as [[[uselb lb] useub] ub].
  apply routed_by_flag; simpl;
    rewrite xnum_value_encode_all, !xnum_value_encode; intros ->; simpl;
    repeat (apply andb_true_intro; split); try reflexivity;
    first [apply is_string_encode_all | apply is_native_encode_all].
Qed.

Lemma routed_declaration n lb ub :
  routed (if threshold <? Z.max (Z.abs lb) (Z.abs ub)
          then AddVariable n (XStr (py_str lb)) (XStr (py_str ub))
          else AddVariable n (XInt lb) (XInt ub)).
Proof.
  destruct (Z.ltb_spec threshold (Z.max (Z.abs lb) (Z.abs ub))) as [Hb|Hb];
    apply routed_by_flag; simpl; rewrite ?py_int_py_str; simpl;
    unfold needs_string; simpl; auto;
    destruct (Z.ltb_spec threshold (Z.abs lb)), (Z.ltb_spec threshold (Z.abs ub));
    simpl; auto; try discriminate; lia.
Qed.

Lemma routed_bool_declaration n : routed (AddVariable n (XInt 0) (XInt 1)).
Proof.
  apply routed_by_flag; simpl; auto; discriminate.
Qed.

Lemma routed_other c : is_primitive c = false -> routed c.
Proof. intros H H'. congruence. Qed.

(** The calls a method appends to the engine's log are all routed. *)
Definition routing (s s' : CPM_exact) : Prop :=
  exists calls, xct_solver s' = xct_solver s ++ calls /\ Forall routed calls.

Lemma routing_refl s : routing s s.
Proof. exists []. split; [now rewrite app_nil_r | constructor]. Qed.

Lemma routing_trans s1 s2 s3 : routing s1 s2 -> routing s2 s3 -> routing s1 s3.
Proof.
  intros (c1 & H1 & F1) (c2 & H2 & F2). exists (c1 ++ c2). split.
  - now rewrite H2, H1, app_assoc.
  - now apply Forall_app.
Qed.

Lemma routing_emit c s : routed c -> routing s (xct_emit c s).
Proof. intros H. exists [c]. split; [reflexivity | now constructor]. Qed.

Lemma routing_same s s' : xct_solver s' = xct_solver s -> routing s s'.
Proof.
  intros H. exists []. split; [now rewrite app_nil_r | constructor].
Qed.

Lemma solver_var_routing v : preserves routing (solver_var v).
Proof.
  pose proof routing_refl. pose proof routing_trans.
  induction v; cbn [solver_var var_name is_BoolVarImpl is_IntVarImpl];
    try (pose proof (routed_declaration name lb ub) as Hr;
         destruct (threshold <? Z.max (Z.abs lb) (Z.abs ub)));
    pres;
    try (apply preserves_modify; intros s; cbv beta);
    try (now apply routing_same); try (now apply routing_emit).
  apply routing_emit, routed_bool_declaration.
Qed.

Lemma emitter_routing cs vs uselb lb useub ub (h : string) :
  preserves routing (_add_xct_constr cs vs uselb lb useub ub)
  /\ preserves routing (_add_xct_reif h cs vs lb)
  /\ preserves routing (_add_xct_reif_right h cs vs lb)
  /\ preserves routing (_add_xct_reif_left h cs vs lb).
Proof.
  destruct cs as [|c cs].
  - repeat split; intros s; apply routing_refl.
  - repeat split; intros s.
    + rewrite _add_xct_constr_run by easy.
      apply routing_emit, routed_encode_constr.
    + rewrite _add_xct_reif_run by easy.
      apply routing_emit, routed_reification.
    + rewrite _add_xct_reif_right_run by easy.
      apply routing_emit, routed_encode_reif.
    + rewrite _add_xct_reif_left_run by easy.
      apply routing_emit, routed_encode_reif.
Qed.

Section Uniform.

Context {TR : Transformations} {EN : Engine}.

Lemma steps_routing s s' : rtc step s s' -> routing s s'.
Proof.
  apply steps_respect;
    auto using routing_refl, solver_var_routing; try apply routing_trans;
    intros; try (now apply routing_same).
  - apply (emitter_routing cs vs uselb lb useub ub "").
  - apply (emitter_routing cs vs false rhs false 0 h).
  - apply (emitter_routing cs vs false rhs false 0 h).
  - now apply routing_emit, routed_other.
Qed.

(** C4. Every primitive the interface emits is routed by the threshold:
    it uses the string-encoded variant when the largest absolute value
    among its coefficients and the bounds in use is above 1e18, and the
    native variant when all of them are at most 1e18.  This holds for
    the declaration made by [solver_var], for the one call made by each
    of the four emitters when it returns (the call carries exactly the
    numbers it was given), and for every call any method of the class
    appends to the engine's log. *)
Theorem threshold_routing :
  (forall v s, routing s (snd (solver_var v s)))
  /\ (forall cs vs uselb lb useub ub s s',
        _add_xct_constr cs vs uselb lb useub ub s = (Ret tt, s') ->
        exists coefs lb' ub',
          s' = xct_emit (AddConstraint coefs vs uselb lb' useub ub') s
          /\ map xnum_value coefs = cs /\ xnum_value lb' = lb
          /\ xnum_value ub' = ub
          /\ routed (AddConstraint coefs vs uselb lb' useub ub'))
  /\ (forall h cs vs lb s s',
        _add_xct_reif h cs vs lb s = (Ret tt, s') ->
        exists coefs lb',
          s' = xct_emit (AddReification h coefs vs lb') s
          /\ map xnum_value coefs = cs /\ xnum_value lb' = lb
          /\ routed (AddReification h coefs vs lb'))
  /\ (forall h cs vs rhs s s',
        _add_xct_reif_right h cs vs rhs s = (Ret tt, s') ->
        exists coefs rhs',
          s' = xct_emit (AddRightReification h coefs vs rhs') s
          /\ map xnum_value coefs = cs /\ xnum_value rhs' = rhs
          /\ routed (AddRightReification h coefs vs rhs'))
  /\ (forall h cs vs rhs s s',
        _add_xct_reif_left h cs vs rhs s = (Ret tt, s') ->
        exists coefs rhs',
          s' = xct_emit (AddLeftReification h coefs vs rhs') s
          /\ map xnum_value coefs = cs /\ xnum_value rhs' = rhs
          /\ routed (AddLeftReification h coefs vs rhs'))
  /\ (forall s s', rtc step s s' -> routing s s').
Proof.
  split; [intros; apply solver_var_routing|].
  split.
  { intros cs vs uselb lb useub ub s s' H.
    destruct cs as [|c cs]; [discriminate|].
    rewrite _add_xct_constr_run in H by easy. injection H as <-.
    pose proof (routed_encode_constr (c :: cs) vs (uselb, lb, useub, ub)) as Hr.
    unfold encode_constr in *.
    eexists _, _, _. split; [reflexivity|].
    rewrite xnum_value_encode_all, !xnum_value_encode.
    exact (conj eq_refl (conj eq_refl (conj eq_refl Hr))). }
  split.
  { intros h cs vs lb s s' H.
    destruct cs as [|c cs]; [discriminate|].
    rewrite _add_xct_reif_run in H by easy. injection H as <-.
    eexists _, _. split; [reflexivity|].
    rewrite xnum_value_encode_all, !xnum_value_encode.
    exact (conj eq_refl (conj eq_refl (routed_reification h (c :: cs) vs lb))). }
  split.
  { intros h cs vs rhs s s' H.
    destruct cs as [|c cs]; [discriminate|].
    rewrite _add_xct_reif_right_run in H by easy. injection H as <-.
    pose proof (routed_encode_reif (Right h (c :: cs) vs rhs)) as Hr.
    unfold encode_reif in *.
    eexists _, _. split; [reflexivity|].
    rewrite xnum_value_encode_all, !xnum_value_encode.
    exact (conj eq_refl (conj eq_refl Hr)). }
  split.
  { intros h cs vs rhs s s' H.
    destruct cs as [|c cs]; [discriminate|].
    rewrite _add_xct_reif_left_run in H by easy. injection H as <-.
    pose proof (routed_encode_reif (Left h (c :: cs) vs rhs)) as Hr.
    unfold encode_reif in *.
    eexists _, _. split; [reflexivity|].
    rewrite xnum_value_encode_all, !xnum_value_encode.
    exact (conj eq_refl (conj eq_refl Hr)). }
  apply steps_routing.
Qed.

End Uniform.

Lemma threshold_routing_witness :
  let big := 10 ^ 18 + 1 in
  _add_xct_constr [2; big] ["x"; "y"] false 0 true 7 init_session
  = (Ret tt,
     xct_emit (AddConstraint [XStr "2"; XStr "1000000000000000001"] ["x"; "y"]
                 false (XStr "0") true (XStr "7")) init_session)
  /\ exists coefs lb' ub',
       xct_emit (AddConstraint [XStr "2"; XStr "1000000000000000001"] ["x"; "y"]
                   false (XStr "0") true (XStr "7")) init_session
       = xct_emit (AddConstraint coefs ["x"; "y"] false lb' true ub') init_session
       /\ map xnum_value coefs = [2; big] /\ xnum_value lb' = 0
       /\ xnum_value ub' = 7
       /\ routed (AddConstraint coefs ["x"; "y"] false lb' true ub').
Proof.
  split; [reflexivity|].
  apply (proj1 (proj2 (@threshold_routing Demo.plain Demo.undecided))
           [2; 10 ^ 18 + 1] ["x"; "y"] false 0 true 7 init_session).
  reflexivity.
Defined.

End ExactTransfer.

(** ** The Exact interface: comparisons and indicator constraints *)

Module ExactCompile.

Import Exact Meaning ExactFacts ExactTransfer.


Ltac run_in H :=
  unfold bind, gets, modify, ret, raise, assert, raise_naming in H;
  simpl in H.


Lemma lin_app σ cs vs cs' vs' :
  length cs = length vs ->
  lin σ (cs ++ cs') (vs ++ vs') = lin σ cs vs + lin σ cs' vs'.
Proof.
  revert vs. induction cs as [|c cs IH]; intros [|v vs] H; simpl in *;
    try discriminate; auto.
  rewrite IH by congruence. lia.
Qed.

(** What the encoded primitives accept. *)
Lemma accepts_right σ h cs vs b :
  accepts σ (encode_reif (Right h cs vs b))
  = implb (σ h =? 1) (b <=? lin σ cs vs).
Proof.
  simpl. now rewrite xnum_value_encode_all, xnum_value_encode.
Qed.

Lemma accepts_left σ h cs vs b :
  accepts σ (encode_reif (Left h cs vs b))
  = implb (b <=? lin σ cs vs) (σ h =? 1).
Proof.
  simpl. now rewrite xnum_value_encode_all, xnum_value_encode.
Qed.


(** The handle cache stays well formed. *)
Lemma varmap_ok_insert n s :
  varmap_ok s -> varmap_ok (set_varmap (<[n := n]> (_varmap s)) s).
Proof.
  intros H k h. simpl. rewrite lookup_insert.
  destruct (decide (n = k)); [now intros [= <-] | apply H].
Qed.

Lemma varmap_ok_kept s s' : _varmap s' = _varmap s -> varmap_ok s -> varmap_ok s'.
Proof. unfold varmap_ok. now intros ->. Qed.

(** A handle is returned only for a variable that is not a negated
    view, and it is the variable's name. *)
Lemma solver_var_ret v s h s' :
  varmap_ok s ->
  solver_var v s = (Ret h, s') ->
  h = var_name v /\ is_NegBoolView v = false /\ varmap_ok s'.
Proof.
  intros Hok H. destruct v as [n|n lb ub|n lb ub|bv];
    cbn [solver_var var_name is_BoolVarImpl is_IntVarImpl] in H.
  - unfold bind at 1 in H. unfold gets in H.
    destruct (_varmap s !! n) as [h0|] eqn:E.
    + injection H as <- <-. auto.
    + run_in H. injection H as <- <-. repeat split; auto.
      now apply (varmap_ok_insert n (xct_emit _ s)).
  - unfold bind at 1 in H. unfold gets in H.
    destruct (_varmap s !! n) as [h0|] eqn:E.
    + injection H as <- <-. auto.
    + destruct (threshold <? Z.max (Z.abs lb) (Z.abs ub));
        run_in H; injection H as <- <-; repeat split; auto;
        now apply (varmap_ok_insert n (xct_emit _ s)).
  - unfold bind at 1 in H. unfold gets in H.
    destruct (_varmap s !! n) as [h0|] eqn:E.
    + injection H as <- <-. auto.
    + run_in H. discriminate.
  - unfold bind, str_Not, raise in H.
    destruct (solver_var bv s) as [[h0|e|] s0]; discriminate.
Qed.

Lemma solver_var_of_ret e s h s' :
  varmap_ok s ->
  solver_var_of e s = (Ret h, s') ->
  exists v, e = Var v /\ h = var_name v /\ is_NegBoolView v = false
            /\ varmap_ok s'.
Proof.
  intros Hok H. destruct e; simpl in H; try discriminate.
  exists v. split; auto. now apply (solver_var_ret v s).
Qed.

Lemma var_eval_positive σ v :
  is_NegBoolView v = false -> var_eval σ v = σ (var_name v).
Proof. now destruct v. Qed.

(** The value of a sum and of a weighted sum, argument by argument. *)
Lemma eval_sum_cons σ x args :
  eval σ (Operator "sum" (x :: args))
  = match eval σ x, eval σ (Operator "sum" args) with
    | Some a, Some b => Some (a + b)
    | _, _ => None
    end.
Proof. reflexivity. Qed.

Lemma eval_wsum_cons σ c x ws xs :
  eval σ (Operator "wsum" [EList (Num c :: ws); EList (x :: xs)])
  = match eval σ x, eval σ (Operator "wsum" [EList ws; EList xs]) with
    | Some a, Some b => Some (c * a + b)
    | _, _ => None
    end.
Proof. reflexivity. Qed.

Lemma eval_wsum_nil_l σ xs :
  eval σ (Operator "wsum" [EList []; EList xs]) = Some 0.
Proof. now destruct xs. Qed.

Lemma eval_wsum_nil_r σ ws :
  eval σ (Operator "wsum" [EList ws; EList []]) = Some 0.
Proof. destruct ws as [|[]]; reflexivity. Qed.

(** The accumulators of [_make_numexpr] stand for [value]: paired
    coefficients and handles whose weighted sum, less the constant, is
    [value]. *)
Definition stands_for (σ : assignment) (acc : numexpr) (value : Z) : Prop :=
  let '(cs, vs, r) := acc in
  length cs = length vs /\ lin σ cs vs - r = value.

Lemma stands_for_push σ cs vs r value c h :
  stands_for σ (cs, vs, r) value ->
  stands_for σ (cs ++ [c], vs ++ [h], r) (value + c * σ h).
Proof.
  intros [Hl Hv]. split.
  - rewrite !length_app. simpl. lia.
  - rewrite lin_app by assumption. simpl. lia.
Qed.

Lemma sum_step_sound σ acc x s acc' s' value :
  varmap_ok s -> stands_for σ acc value ->
  sum_step acc x s = (Ret acc', s') ->
  varmap_ok s'
  /\ exists t, eval σ x = Some t /\ stands_for σ acc' (value + t).
Proof.
  intros Hok Hacc H. destruct acc as [[cs vs] r]. unfold sum_step in H.
  assert (Hvar : forall h s1,
             solver_var_of x s = (Ret h, s1) ->
             (cs ++ [1], vs ++ [h], r) = acc' -> s1 = s' ->
             varmap_ok s'
             /\ exists t, eval σ x = Some t /\ stands_for σ acc' (value + t)).
  { intros h s1 Hh <- <-.
    destruct (solver_var_of_ret x s h s1 Hok Hh) as (v & -> & -> & Hpos & Hok1).
    split; auto. exists (σ (var_name v)). split.
    - simpl. now rewrite var_eval_positive.
    - pose proof (stands_for_push σ cs vs r value 1 (var_name v) Hacc) as Hp.
      now rewrite Z.mul_1_l in Hp. }
  destruct x;
    try (apply bind_inv in H; destruct H as (h & s1 & Hh & H);
         injection H as H1 H2; now apply (Hvar h s1)).
  injection H as <- <-. split; auto. exists n. split; auto.
  destruct Hacc as [Hl Hv]. split; auto. lia.
Qed.

Lemma sum_fold_sound σ args :
  forall acc s acc' s' value,
    varmap_ok s -> stands_for σ acc value ->
    fold_M sum_step args acc s = (Ret acc', s') ->
    varmap_ok s'
    /\ exists t, eval σ (Operator "sum" args) = Some t
                 /\ stands_for σ acc' (value + t).
Proof.
  induction args as [|x args IH]; intros acc s acc' s' value Hok Hacc H.
  - injection H as <- <-. split; auto. exists 0. split; auto.
    now rewrite Z.add_0_r.
  - simpl in H. apply bind_inv in H. destruct H as (acc1 & s1 & H1 & H2).
    destruct (sum_step_sound σ acc x s acc1 s1 value Hok Hacc H1)
      as (Hok1 & t1 & Ht1 & Hacc1).
    destruct (IH acc1 s1 acc' s' (value + t1) Hok1 Hacc1 H2)
      as (Hok2 & t2 & Ht2 & Hacc2).
    split; auto. exists (t1 + t2). split.
    + now rewrite eval_sum_cons, Ht1, Ht2.
    + now rewrite Z.add_assoc.
Qed.

Lemma wsum_step_sound σ acc c x s acc' s' value :
  varmap_ok s -> stands_for σ acc value ->
  wsum_step acc (c, x) s = (Ret acc', s') ->
  varmap_ok s'
  /\ exists w t, c = Num w /\ eval σ x = Some t
                 /\ stands_for σ acc' (value + w * t).
Proof.
  intros Hok Hacc H. destruct acc as [[cs vs] r]. unfold wsum_step in H.
  destruct c as [w| | | | |]; try discriminate.
  assert (Hvar : forall h s1,
             solver_var_of x s = (Ret h, s1) ->
             (cs ++ [w], vs ++ [h], r) = acc' -> s1 = s' ->
             varmap_ok s'
             /\ exists w' t, Num w = Num w' /\ eval σ x = Some t
                            /\ stands_for σ acc' (value + w' * t)).
  { intros h s1 Hh <- <-.
    destruct (solver_var_of_ret x s h s1 Hok Hh) as (v & -> & -> & Hpos & Hok1).
    split; auto. exists w, (σ (var_name v)). repeat split.
    - simpl. now rewrite var_eval_positive.
    - apply (stands_for_push σ cs vs r value w (var_name v) Hacc).
    - apply (stands_for_push σ cs vs r value w (var_name v) Hacc). }
  destruct x;
    try (apply bind_inv in H; destruct H as (h & s1 & Hh & H);
         injection H as H1 H2; now apply (Hvar h s1)).
  injection H as <- <-. split; auto. exists w, n. repeat split; auto.
  - apply Hacc.
  - destruct Hacc as [Hl Hv]. lia.
Qed.

Lemma wsum_fold_sound σ ws :
  forall xs acc s acc' s' value,
    varmap_ok s -> stands_for σ acc value ->
    fold_M wsum_step (combine ws xs) acc s = (Ret acc', s') ->
    varmap_ok s'
    /\ exists t, eval σ (Operator "wsum" [EList ws; EList xs]) = Some t
                 /\ stands_for σ acc' (value + t).
Proof.
  induction ws as [|c ws IH]; intros xs acc s acc' s' value Hok Hacc H.
  - injection H as <- <-. split; auto. exists 0. split.
    + apply eval_wsum_nil_l.
    + now rewrite Z.add_0_r.
  - destruct xs as [|x xs].
    + injection H as <- <-. split; auto. exists 0. split.
      * apply eval_wsum_nil_r.
      * now rewrite Z.add_0_r.
    + simpl in H. apply bind_inv in H. destruct H as (acc1 & s1 & H1 & H2).
      destruct (wsum_step_sound σ acc c x s acc1 s1 value Hok Hacc H1)
        as (Hok1 & w & t1 & -> & Ht1 & Hacc1).
      destruct (IH xs acc1 s1 acc' s' (value + w * t1) Hok1 Hacc1 H2)
        as (Hok2 & t2 & Ht2 & Hacc2).
      split; auto. exists (w * t1 + t2). split.
      * now rewrite eval_wsum_cons, Ht1, Ht2.
      * now rewrite Z.add_assoc.
Qed.

(** The left-hand sides [_make_numexpr] is meant for: a number, a
    variable or an operator expression. *)
Definition linear_shape (e : expr) : bool :=
  match e with
  | Num _ | Var _ | Operator _ _ => true
  | _ => false
  end.

(** [_make_numexpr] is sound: the triple it returns stands for
    [lhs - rhs]. *)
Lemma _make_numexpr_sound σ lhs rhs s cs vs r s' :
  linear_shape lhs = true ->
  varmap_ok s ->
  _make_numexpr lhs rhs s = (Ret (cs, vs, r), s') ->
  varmap_ok s' /\ length cs = length vs
  /\ exists a b, eval σ lhs = Some a /\ eval σ rhs = Some b
                 /\ lin σ cs vs - r = a - b.
Proof.
  intros Hshape Hok H. unfold _make_numexpr in H.
  apply bind_inv in H. destruct H as (acc0 & s0 & Hrhs & H).
  assert (Hacc0 : varmap_ok s0
                  /\ exists b, eval σ rhs = Some b /\ stands_for σ acc0 (- b)).
  { destruct rhs; try (unfold raise_naming in Hrhs; simpl in Hrhs; discriminate).
    - injection Hrhs as <- <-. split; auto. exists n. split; auto.
      split; simpl; auto; lia.
    - apply bind_inv in Hrhs. destruct Hrhs as (h & s1 & Hh & Hrhs).
      injection Hrhs as <- <-.
      destruct (solver_var_ret v s h s1 Hok Hh) as (-> & Hpos & Hok1).
      split; auto. exists (σ (var_name v)). split.
      + simpl. now rewrite var_eval_positive.
      + split; simpl; auto; lia. }
  destruct Hacc0 as (Hok0 & b & Hb & Hacc0).
  assert (Hfin : forall acc a,
             varmap_ok s' -> eval σ lhs = Some a ->
             stands_for σ acc (- b + a) -> acc = (cs, vs, r) ->
             varmap_ok s' /\ length cs = length vs
             /\ exists a b, eval σ lhs = Some a /\ eval σ rhs = Some b
                            /\ lin σ cs vs - r = a - b).
  { intros acc a Hok' Ha Hst ->. destruct Hst as [Hl Hv].
    repeat split; auto. exists a, b. repeat split; auto. lia. }
  destruct acc0 as [[xcoefs xvars] xrhs].
  destruct lhs as [n|v| |name args| |]; try discriminate.
  - unfold ret in H. simplify_eq.
    refine (Hfin _ n Hok0 eq_refl _ eq_refl).
    destruct Hacc0 as [Hl Hv]. split; auto. lia.
  - apply bind_inv in H. destruct H as (h & s1 & Hh & H).
    destruct (solver_var_ret v s0 h s1 Hok0 Hh) as (-> & Hpos & Hok1).
    unfold ret in H. simplify_eq.
    refine (Hfin _ (σ (var_name v)) Hok1 _ _ eq_refl).
    + simpl. now rewrite var_eval_positive.
    + pose proof (stands_for_push σ _ _ _ _ 1 (var_name v) Hacc0) as Hp.
      now rewrite Z.mul_1_l in Hp.
  - cbn [expr_name expr_args] in H.
    destruct (String.eqb_spec name "sum") as [->|Hsum].
    { destruct (sum_fold_sound σ args _ _ _ _ _ Hok0 Hacc0 H)
        as (Hok1 & t & Ht & Hacc1).
      now apply (Hfin (cs, vs, r) t). }
    destruct (String.eqb_spec name "wsum") as [->|Hwsum].
    { destruct args as [|[| |ws| | |] [|[| |xs| | |] [|]]]; try discriminate.
      destruct (wsum_fold_sound σ ws xs _ _ _ _ _ Hok0 Hacc0 H)
        as (Hok1 & t & Ht & Hacc1).
      now apply (Hfin (cs, vs, r) t). }
    destruct (String.eqb_spec name "sub") as [->|Hsub]; [|discriminate].
    destruct args as [|a [|c [|]]]; try discriminate.
    simpl in H. apply bind_inv in H. destruct H as ([] & s1 & Hs1 & H).
    unfold ret in Hs1. simplify_eq.
    apply bind_inv in H. destruct H as (ha & s2 & Ha & H).
    apply bind_inv in H. destruct H as (hc & s3 & Hc & H).
    destruct (solver_var_of_ret a s1 ha s2 Hok0 Ha)
      as (va & -> & -> & Hpa & Hok2).
    destruct (solver_var_of_ret c s2 hc s3 Hok2 Hc)
      as (vc & -> & -> & Hpc & Hok3).
    unfold ret in H. simplify_eq.
    refine (Hfin _ (σ (var_name va) - σ (var_name vc)) Hok3 _ _ eq_refl).
    + simpl. now rewrite !var_eval_positive.
    + destruct Hacc0 as [Hl Hv]. split.
      * rewrite !length_app. simpl. lia.
      * rewrite lin_app by assumption. simpl. lia.
Qed.








Section Compile.

Context {TR : Transformations}.


(** X4. The handle cache of every session reached from a fresh one is well
    formed. *)
Lemma reachable_varmap_ok {EN : Engine} s :
  rtc step init_session s -> varmap_ok s.
Proof.
  intros H.
  refine (steps_respect_writes
            (fun s0 s1 => varmap_ok s0 -> varmap_ok s1)
            _ _ _ _ _ _ _ _ _ _ init_session s H _).
  - auto.
  - auto.
  - intros c s0. now apply varmap_ok_kept.
  - intros n s0. apply varmap_ok_insert.
  - intros u s0. now apply varmap_ok_kept.
  - intros o s0. now apply varmap_ok_kept.
  - intros st s0. now apply varmap_ok_kept.
  - intros m s0. now apply varmap_ok_kept.
  - intros b s0. now apply varmap_ok_kept.
  - intros s0. now apply varmap_ok_kept.
  - intros n h Hn. discriminate Hn.
Qed.



End Compile.

Lemma reachable_varmap_ok_witness :
  let s := snd (solver_var Demo.x init_session) in
  _varmap s !! "x" = Some "x" /\ varmap_ok s.
Proof.
  split; [reflexivity|].
  apply (@reachable_varmap_ok Demo.plain Demo.undecided).
  apply rtc_once, (@step_solver_var Demo.plain Demo.undecided).
Defined.



(** The reifications [_post_constraint] emits for a constraint on a
    fresh session. *)
Definition emitted_reifications (constraint : expr) : list xct_call :=
  filter (fun c => negb (is_decl c))
    (xct_solver
       (snd (@_post_constraint Demo.plain (fun _ => ret tt) constraint init_session))).

(** The emitted reifications agree with the constraint on every value
    of ["cond"] in 0..1 and of ["lhs"] and ["rhs"] in 0..5. *)
Definition truth_table_agrees (constraint : expr) : bool :=
  forallb (fun c =>
    forallb (fun l =>
      forallb (fun r =>
        let σ := fun n : string =>
          if String.eqb n "cond" then c
          else if String.eqb n "lhs" then l else r in
        Bool.eqb (forallb (accepts σ) (emitted_reifications constraint))
                 (default false (holds σ constraint)))
        [0; 1; 2; 3; 4; 5])
      [0; 1; 2; 3; 4; 5])
    [0; 1].

(** X3. The exhaustive check of section 8: for [cond -> (lhs == rhs)] and
    [not(cond) -> (lhs == rhs)], the emitted pair of reifications is
    equivalent to the implication for both values of [cond] and every
    pair in [0,5] x [0,5]. *)
Example equality_indicator_truth_table :
  let lhs := Var (IntVar "lhs" 0 5) in
  let rhs := Var (IntVar "rhs" 0 5) in
  length (emitted_reifications
            (Operator "->" [Var (BoolVar "cond"); Comparison "==" lhs rhs])) = 2%nat
  /\ truth_table_agrees
       (Operator "->" [Var (BoolVar "cond"); Comparison "==" lhs rhs]) = true
  /\ truth_table_agrees
       (Operator "->" [Var (NegBoolView (BoolVar "cond")); Comparison "==" lhs rhs])
     = true.
Proof. repeat split; vm_compute; reflexivity. Qed.


(** C2 at a comparison between two constants: it normalizes to the
    triple with no coefficient, it holds under every assignment, and
    [_post_constraint] raises [ValueError] (the maximum of an empty
    list) without emitting a primitive. *)
Lemma constant_comparison_raises :
  let constraint := Comparison "<=" (Num 3) (Num 5) in
  _make_numexpr (Num 3) (Num 5) init_session = (Ret ([], [], 2), init_session)
  /\ (forall σ, holds σ constraint = Some true)
  /\ @_post_constraint Demo.plain (fun _ => ret tt) constraint init_session
     = (Raise ValueError, init_session).
Proof. repeat split. Qed.

End ExactCompile.

(** ** The Exact interface: the direction of the objective *)

Module ExactDirection.

Import Exact Meaning ExactFacts.

(** A method that neither reads nor writes [objective_minimize]: run on
    a session with another direction, it does the same and leaves that
    direction. *)
Definition indep {A} (m : M CPM_exact A) : Prop :=
  forall b s,
    m (set_objective_minimize b s)
    = (fst (m s), set_objective_minimize b (snd (m s))).

Lemma indep_ret {A} (a : A) : indep (ret a).
Proof. now intros b s. Qed.

Lemma indep_raise {A} e : indep (@raise CPM_exact A e).
Proof. now intros b s. Qed.

Lemma indep_out_of_fuel {A} : indep (@out_of_fuel CPM_exact A).
Proof. now intros b s. Qed.

Lemma indep_assert c : indep (@assert CPM_exact c).
Proof. destruct c; now intros b s. Qed.

Lemma indep_gets {A} (f : CPM_exact -> A) :
  (forall b s, f (set_objective_minimize b s) = f s) -> indep (gets f).
Proof. intros H b s. unfold gets. simpl. now rewrite H. Qed.

Lemma indep_modify (f : CPM_exact -> CPM_exact) :
  (forall b s, f (set_objective_minimize b s) = set_objective_minimize b (f s)) ->
  indep (modify f).
Proof. intros H b s. unfold modify. simpl. now rewrite H. Qed.

Lemma indep_bind {A B} (m : M CPM_exact A) (k : A -> M CPM_exact B) :
  indep m -> (forall a, indep (k a)) -> indep (bind m k).
Proof.
  intros Hm Hk b s. unfold bind. rewrite Hm.
  destruct (m s) as [[a|e|] s1]; simpl; auto. apply Hk.
Qed.

Lemma indep_for_each {A} (body : A -> M CPM_exact unit) l :
  (forall x, indep (body x)) -> indep (for_each body l).
Proof.
  intros H. induction l; simpl.
  - apply indep_ret.
  - apply indep_bind; auto.
Qed.

Lemma indep_map_M {A B} (f : A -> M CPM_exact B) l :
  (forall x, indep (f x)) -> indep (map_M f l).
Proof.
  intros H. induction l; simpl.
  - apply indep_ret.
  - apply indep_bind; auto. intros y.
    apply indep_bind; auto. intros ys. apply indep_ret.
Qed.

Lemma indep_fold_M {A} (step : numexpr -> A -> M CPM_exact numexpr) l acc :
  (forall a x, indep (step a x)) -> indep (fold_M step l acc).
Proof.
  intros H. revert acc. induction l; intros acc; simpl.
  - apply indep_ret.
  - apply indep_bind; auto.
Qed.

Ltac indep_step :=
  match goal with
  | |- indep (bind _ _) => apply indep_bind; [|intros ?]
  | |- indep (ret _) => apply indep_ret
  | |- indep (raise _) => apply indep_raise
  | |- indep out_of_fuel => apply indep_out_of_fuel
  | |- indep (raise_naming _ _) => unfold raise_naming
  | |- indep (gets _) => apply indep_gets; reflexivity
  | |- indep (assert _) => apply indep_assert
  | |- indep (modify _) => apply indep_modify; reflexivity
  | |- indep (for_each _ _) => apply indep_for_each; intros ?
  | |- indep (map_M _ _) => apply indep_map_M; intros ?
  | |- indep (fold_M _ _ _) => apply indep_fold_M; intros ? ?
  | |- indep (match ?x with _ => _ end) => destruct x
  | |- indep _ => solve [auto]
  end.

Ltac indep_auto := repeat indep_step.

Lemma solver_var_indep v : indep (solver_var v).
Proof. induction v; simpl; unfold str_Not; indep_auto. Qed.

Lemma solver_var_of_indep e : indep (solver_var_of e).
Proof. pose proof solver_var_indep. destruct e; simpl; indep_auto. Qed.

Lemma sum_step_indep acc x : indep (sum_step acc x).
Proof.
  pose proof solver_var_of_indep.
  unfold sum_step. destruct acc as [[cs vs] r]. indep_auto.
Qed.

Lemma wsum_step_indep acc cx : indep (wsum_step acc cx).
Proof.
  pose proof solver_var_of_indep.
  unfold wsum_step. destruct acc as [[cs vs] r], cx as [c x]. indep_auto.
Qed.

Lemma _make_numexpr_indep lhs rhs : indep (_make_numexpr lhs rhs).
Proof.
  pose proof solver_var_indep. pose proof solver_var_of_indep.
  pose proof sum_step_indep. pose proof wsum_step_indep.
  unfold _make_numexpr. indep_auto.
Qed.

Lemma emitters_indep cs vs uselb lb useub ub (h : string) :
  indep (_add_xct_constr cs vs uselb lb useub ub)
  /\ indep (_add_xct_reif_right h cs vs lb)
  /\ indep (_add_xct_reif_left h cs vs lb).
Proof.
  unfold _add_xct_constr, _add_xct_reif_right, _add_xct_reif_left.
  repeat split; indep_auto.
Qed.

Section Direction.

Context {TR : Transformations} {EN : Engine}.

Lemma _post_constraint_indep self_add e :
  (forall c, indep (self_add c)) -> indep (_post_constraint self_add e).
Proof.
  intros Hadd.
  pose proof solver_var_indep. pose proof _make_numexpr_indep.
  assert (forall cs vs uselb lb useub ub,
             indep (_add_xct_constr cs vs uselb lb useub ub))
    by (intros; apply (emitters_indep cs vs uselb lb useub ub "")).
  assert (forall h cs vs lb, indep (_add_xct_reif_right h cs vs lb))
    by (intros; apply (emitters_indep cs vs false lb false 0 h)).
  assert (forall h cs vs lb, indep (_add_xct_reif_left h cs vs lb))
    by (intros; apply (emitters_indep cs vs false lb false 0 h)).
  unfold _post_constraint, indicator_lhs_ok. indep_auto.
Qed.

Lemma __add___indep fuel e : indep (__add__ fuel e).
Proof.
  revert e. induction fuel as [|fuel IH]; intros e; simpl; indep_auto.
  now apply _post_constraint_indep.
Qed.

Lemma fill_values_indep vals i vars : indep (fill_values vals i vars).
Proof.
  revert i. induction vars as [|v vars IH]; intros i; simpl; indep_auto.
Qed.

(** An independent method leaves the direction as it was. *)
Lemma indep_keeps_direction {A} (m : M CPM_exact A) s :
  indep m -> objective_minimize (snd (m s)) = objective_minimize s.
Proof.
  intros H. specialize (H (objective_minimize s) s).
  assert (E : set_objective_minimize (objective_minimize s) s = s)
    by now destruct s.
  rewrite E in H. destruct (m s) as [o s']. simpl in *.
  injection H as H. now rewrite H at 1.
Qed.

(** What a run under "maximize" is, given the same run under
    "minimize": the same outcome and session, with the direction
    changed and, when the run returns, the stored objective value
    negated. *)
Definition flipped {A} (run : outcome A * CPM_exact) : outcome A * CPM_exact :=
  match run with
  | (Ret r, s') =>
      (Ret r,
       set_objective_minimize false
         (set_objective_value_ (Z.opp <$> objective_value_ s') s'))
  | (o, s') => (o, set_objective_minimize false s')
  end.

Definition flips {A} (m : M CPM_exact A) : Prop :=
  forall s, objective_minimize s = true ->
    m (set_objective_minimize false s) = flipped (m s).

Lemma flips_bind {A B} (m : M CPM_exact A) (k : A -> M CPM_exact B) :
  indep m -> (forall a, flips (k a)) -> flips (bind m k).
Proof.
  intros Hm Hk s Hs. unfold bind. rewrite Hm.
  pose proof (indep_keeps_direction m s Hm) as Hd. rewrite Hs in Hd.
  destruct (m s) as [[a|e|] s1]; simpl in *; auto.
  now apply Hk.
Qed.

Lemma flips_report :
  flips (let* minimize := gets objective_minimize in
         (if negb minimize then
            modify (fun self =>
              set_objective_value_ (Z.opp <$> objective_value_ self) self)
          else ret tt) ;;
         ret true).
Proof.
  intros s Hs. unfold bind, gets, modify, ret. simpl. now rewrite Hs.
Qed.

Lemma getSolAndObj_flips : flips getSolAndObj.
Proof.
  pose proof solver_var_indep. pose proof fill_values_indep.
  unfold getSolAndObj. apply flips_bind; [indep_auto|].
  intros [|]; simpl negb; cbv iota.
  - apply flips_bind; [indep_auto|]. intros vars.
    apply flips_bind; [indep_auto|]. intros handles.
    apply flips_bind; [indep_auto|]. intros vals.
    apply flips_bind; [indep_auto|]. intros _.
    apply flips_bind; [indep_auto|]. intros bounds.
    apply flips_bind; [indep_auto|]. intros _.
    apply flips_report.
  - intros s Hs. reflexivity.
Qed.

Lemma solve_flips t a kw : flips (solve t a kw).
Proof.
  unfold solve, init_if_no_objective, set_time_limit, set_options, set_exitstatus.
  apply flips_bind; [indep_auto|]. intros _.
  apply flips_bind; [indep_auto|]. intros _.
  apply flips_bind; [indep_auto|]. intros _.
  apply flips_bind; [indep_auto|]. intros _.
  apply flips_bind; [indep_auto|]. intros my_status.
  apply flips_bind; [indep_auto|]. intros _.
  apply flips_bind; [indep_auto|]. intros _.
  apply flips_bind; [indep_auto|]. intros _.
  apply getSolAndObj_flips.
Qed.

(** What [getSolAndObj] stores when it returns [True]: the upper bound
    the engine reports, negated when the direction is "maximize". *)
Lemma getSolAndObj_reports s s' :
  getSolAndObj s = (Ret true, s') ->
  let upper := snd (xct_getObjectiveBounds (xct_solver s')) in
  objective_value_ s'
  = Some (if objective_minimize s then upper else - upper).
Proof.
  pose proof solver_var_indep as Isv. pose proof fill_values_indep as Ifv.
  unfold getSolAndObj. intros Hrun.
  apply bind_inv in Hrun. destruct Hrun as (has & s0 & Q0 & Hrun).
  unfold gets in Q0. injection Q0 as <- <-.
  destruct (xct_hasSolution (xct_solver s)); simpl negb in Hrun; cbv iota in Hrun;
    [|discriminate].
  assert (Hd : forall vars (handles : list string) vals,
             indep (map_M solver_var vars) /\ indep (fill_values vals 0 vars))
    by (intros; split; indep_auto).
  apply bind_inv in Hrun. destruct Hrun as (vars & s1 & Q1 & Hrun).
  unfold gets in Q1. injection Q1 as <- <-.
  apply bind_inv in Hrun. destruct Hrun as (handles & s2 & Q2 & Hrun).
  apply bind_inv in Hrun. destruct Hrun as (vals & s3 & Q3 & Hrun).
  unfold gets in Q3. injection Q3 as <- <-.
  apply bind_inv in Hrun. destruct Hrun as ([] & s4 & Q4 & Hrun).
  pose proof (indep_keeps_direction _ s (proj1 (Hd (user_vars s) handles [])))
    as D2.
  rewrite Q2 in D2. simpl in D2.
  match type of Q4 with
  | fill_values ?vals _ _ _ = _ =>
      pose proof (indep_keeps_direction _ s2
                    (proj2 (Hd (user_vars s) handles vals))) as D4
  end.
  rewrite Q4 in D4. simpl in D4.
  unfold bind, gets, modify, ret in Hrun. simpl in Hrun.
  rewrite D4, D2 in Hrun.
  destruct (objective_minimize s); simpl in Hrun; injection Hrun as <-;
    reflexivity.
Qed.

(** Two objectives that mirror each other.  If the flattened objective
    of [e2] normalizes to the negated coefficients of that of [e1] over
    the same variables, with the same side constraints, then posting
    [e2] to maximize leaves the session that posting [e1] to minimize
    leaves, up to the direction: the engine has received the same
    calls, and every later [solve] has the same outcome and the same
    variable values, with objective values that are negations of each
    other. *)
Lemma mirrored_objectives_agree fuel e1 e2 f1 f2 cons s sA :
  flatten_objective e1 = (f1, cons) ->
  flatten_objective e2 = (f2, cons) ->
  get_variables f1 = get_variables f2 ->
  (forall u c v r u',
     _make_numexpr f1 (Num 0) u = (Ret (c, v, r), u') ->
     exists r', _make_numexpr f2 (Num 0) u = (Ret (map Z.opp c, v, r'), u')) ->
  objective fuel e1 true s = (Ret tt, sA) ->
  exists sB,
    objective fuel e2 false s = (Ret tt, sB)
    /\ (exists c v r u u',
          _make_numexpr f2 (Num 0) u = (Ret (c, v, r), u')
          /\ sB = xct_emit (Init (map Z.opp c) v) u')
    /\ sB = set_objective_minimize false sA
    /\ objective_minimize sA = true
    /\ xct_solver sB = xct_solver sA
    /\ (forall t a kw, solve t a kw sB = flipped (solve t a kw sA))
    /\ (forall t a kw tA tB,
          solve t a kw sA = (Ret true, tA) ->
          solve t a kw sB = (Ret true, tB) ->
          var_value tB = var_value tA
          /\ exists upper,
               upper = snd (xct_getObjectiveBounds (xct_solver tA))
               /\ objective_value_ tA = Some upper
               /\ objective_value_ tB = Some (- upper)).
Proof.
  intros Hf1 Hf2 Hvars Hneg HA.
  unfold objective in HA. rewrite Hf1 in HA.
  apply bind_inv in HA. destruct HA as (already & s0 & H0 & HA).
  unfold gets in H0. injection H0 as <- <-.
  apply bind_inv in HA. destruct HA as ([] & s0 & H0 & HA).
  destruct (has_objective s) eqn:Hflag; [discriminate|].
  unfold assert, ret in H0. simpl in H0. injection H0 as <-.
  unfold bind at 1 in HA. unfold modify at 1 in HA.
  unfold bind at 1 in HA. unfold modify at 1 in HA.
  set (sA0 := set_objective_minimize true (set_has_objective true s)) in HA.
  apply bind_inv in HA. destruct HA as ([] & s1 & H1 & HA).
  apply bind_inv in HA. destruct HA as ([] & s2 & H2 & HA).
  unfold modify in H2. injection H2 as <-.
  apply bind_inv in HA. destruct HA as ([[c v] r] & s3 & H3 & HA).
  pose proof (indep_keeps_direction _ sA0 (__add___indep fuel (EList cons))) as D1.
  rewrite H1 in D1. simpl in D1.
  set (s2 := set_user_vars (set_update (user_vars s1) (get_variables f1)) s1) in *.
  pose proof (indep_keeps_direction _ s2 (_make_numexpr_indep f1 (Num 0))) as D3.
  rewrite H3 in D3. simpl in D3.
  unfold bind, gets, modify in HA. simpl in HA. rewrite D3, D1 in HA.
  simpl in HA. injection HA as <-.
  destruct (Hneg _ _ _ _ _ H3) as (r' & H3').
  assert (HB1 : __add__ fuel (EList cons) (set_objective_minimize false sA0)
                = (Ret tt, set_objective_minimize false s1)).
  { rewrite (__add___indep fuel (EList cons) false sA0), H1. reflexivity. }
  assert (HB3 : _make_numexpr f2 (Num 0) (set_objective_minimize false s2)
                = (Ret (map Z.opp c, v, r'), set_objective_minimize false s3)).
  { rewrite (_make_numexpr_indep f2 (Num 0) false s2), H3'. reflexivity. }
  assert (Hopp : map Z.opp (map Z.opp c) = c).
  { rewrite map_map. rewrite <- (map_id c) at 2. apply map_ext.
    intros x. apply Z.opp_involutive. }
  assert (HB : objective fuel e2 false s
               = (Ret tt, xct_emit (Init (map Z.opp (map Z.opp c)) v)
                            (set_objective_minimize false s3))).
  { unfold objective. rewrite Hf2.
    rewrite (bind_run _ _ s s false) by (unfold gets; now rewrite Hflag).
    rewrite (bind_run _ _ s s tt) by reflexivity.
    rewrite (bind_run _ _ s (set_has_objective true s) tt) by reflexivity.
    rewrite (bind_run _ _ _ (set_objective_minimize false sA0) tt) by reflexivity.
    rewrite (bind_run _ _ _ _ _ HB1).
    rewrite (bind_run _ _ _ (set_objective_minimize false s2) tt)
      by (unfold modify, s2; simpl; now rewrite Hvars).
    rewrite (bind_run _ _ _ _ _ HB3).
    reflexivity. }
  eexists. split; [exact HB|].
  split.
  { exists (map Z.opp c), v, r', (set_objective_minimize false s2),
      (set_objective_minimize false s3). split; [exact HB3|reflexivity]. }
  assert (HsB : xct_emit (Init (map Z.opp (map Z.opp c)) v)
                  (set_objective_minimize false s3)
                = set_objective_minimize false (xct_emit (Init c v) s3))
    by (now rewrite Hopp).
  assert (HdA : objective_minimize (xct_emit (Init c v) s3) = true)
    by (simpl; now rewrite D3, D1).
  split; [exact HsB|]. split; [exact HdA|].
  split; [now rewrite HsB|].
  assert (Hflip : forall t a kw,
             solve t a kw (xct_emit (Init (map Z.opp (map Z.opp c)) v)
                             (set_objective_minimize false s3))
             = flipped (solve t a kw (xct_emit (Init c v) s3))).
  { intros. rewrite HsB. now apply solve_flips. }
  split; [exact Hflip|].
  intros t a kw tA tB HtA HtB. rewrite Hflip, HtA in HtB.
  simpl in HtB. injection HtB as <-. split; [reflexivity|].
  unfold solve in HtA.
  assert (Hg : exists sp, objective_minimize sp = true
                          /\ getSolAndObj sp = (Ret true, tA)).
  { revert HtA. unfold init_if_no_objective, set_time_limit, set_options,
      set_exitstatus.
    repeat match goal with
    | |- bind ?m ?k ?s0 = _ -> _ =>
        let H := fresh "H" in
        let D := fresh "D" in
        let I := fresh "I" in
        intros H; apply bind_inv in H; destruct H as (? & ? & D & H);
        (assert (indep m) as I by indep_auto);
        apply (indep_keeps_direction m s0) in I; rewrite D in I; simpl in I;
        clear D; revert H
    end.
    intros H. eexists. split; [|exact H]. congruence. }
  destruct Hg as (sp & Hd & Hg).
  pose proof (getSolAndObj_reports sp tA Hg) as Hrep. simpl in Hrep.
  rewrite Hd in Hrep. eexists. split; [reflexivity|]. split; [exact Hrep|].
  simpl. now rewrite Hrep.
Qed.

End Direction.

(** The hypothesis of the theorem holds for a weighted sum and the same
    sum with its weights negated. *)
Definition negate_weight (w : expr) : expr :=
  match w with
  | Num c => Num (- c)
  | _ => w
  end.

Lemma wsum_step_negated w x cs vs r u cs1 vs1 r1 u1 :
  wsum_step (cs, vs, r) (w, x) u = (Ret (cs1, vs1, r1), u1) ->
  wsum_step (map Z.opp cs, vs, - r) (negate_weight w, x) u
  = (Ret (map Z.opp cs1, vs1, - r1), u1).
Proof.
  unfold wsum_step. destruct w as [c| | | | |]; try discriminate.
  simpl negate_weight. cbv iota.
  assert (Hvar : forall A (k1 k2 : string -> M CPM_exact A) o1 o2,
             (forall h u2, k1 h u2 = (Ret o1, u1) -> k2 h u2 = (Ret o2, u1)) ->
             bind (solver_var_of x) k1 u = (Ret o1, u1) ->
             bind (solver_var_of x) k2 u = (Ret o2, u1)).
  { intros A k1 k2 o1 o2 Hk H.
    apply bind_inv in H. destruct H as (h & u2 & Hh & H).
    unfold bind. rewrite Hh. now apply Hk. }
  destruct x as [n| | | | |];
    try (apply Hvar; intros h u2 H; unfold ret in *; simplify_eq;
         now rewrite map_app).
  intros H. unfold ret in *. simplify_eq. repeat f_equal. lia.
Qed.

Lemma wsum_fold_negated ws :
  forall xs cs vs r u cs' vs' r' u',
    fold_M wsum_step (combine ws xs) (cs, vs, r) u = (Ret (cs', vs', r'), u') ->
    fold_M wsum_step (combine (map negate_weight ws) xs)
      (map Z.opp cs, vs, - r) u
    = (Ret (map Z.opp cs', vs', - r'), u').
Proof.
  induction ws as [|w ws IH]; intros xs cs vs r u cs' vs' r' u' H.
  - simpl in *. unfold ret in *. now simplify_eq.
  - destruct xs as [|x xs]; [simpl in *; unfold ret in *; now simplify_eq|].
    simpl in H. apply bind_inv in H. destruct H as ([[cs1 vs1] r1] & u1 & H1 & H).
    simpl. rewrite (bind_run _ _ _ _ _ (wsum_step_negated _ _ _ _ _ _ _ _ _ _ H1)).
    now apply IH.
Qed.

Lemma wsum_negated_normal ws xs u c v r u' :
  _make_numexpr (Operator "wsum" [EList ws; EList xs]) (Num 0) u
  = (Ret (c, v, r), u') ->
  exists r',
    _make_numexpr (Operator "wsum" [EList (map negate_weight ws); EList xs])
      (Num 0) u
    = (Ret (map Z.opp c, v, r'), u').
Proof.
  unfold _make_numexpr. intros H.
  rewrite (bind_run _ _ u u ([], [], 0 + 0)) in * by reflexivity.
  cbn [expr_name expr_args] in *.
  change (String.eqb "wsum" "sum") with false in *.
  change (String.eqb "wsum" "wsum") with true in *. cbv iota in *.
  exists (- r). exact (wsum_fold_negated ws xs [] [] 0 u c v r u' H).
Qed.

End ExactDirection.

(** ** Facts about the Z3 interface *)

Module Z3Facts.

Import Z3 Z3Meaning.

(** Induction on expressions, through the argument lists. *)
Lemma expr_nested_ind (P : expr -> Prop) :
  (forall n, P (Num n)) ->
  (forall v, P (Var v)) ->
  (forall l, Forall P l -> P (EList l)) ->
  (forall name args, Forall P args -> P (Operator name args)) ->
  (forall name lhs rhs, P lhs -> P rhs -> P (Comparison name lhs rhs)) ->
  (forall name args, Forall P args -> P (GlobalConstraint name args)) ->
  forall e, P e.
Proof.
  intros HN HV HL HO HC HG.
  fix IH 1. intros e.
  destruct e as [n|v|l|name args|name lhs rhs|name args].
  - apply HN.
  - apply HV.
  - apply HL. induction l as [|x l IHl]; constructor; [apply IH | exact IHl].
  - apply HO. induction args as [|x l IHl]; constructor; [apply IH | exact IHl].
  - apply HC; apply IH.
  - apply HG. induction args as [|x l IHl]; constructor; [apply IH | exact IHl].
Qed.

(** Every method respects a relation that the materializer and the
    other writes of the class respect. *)
Section Frame.

Context {EN : Engine}.
Context (R : CPM_z3 -> CPM_z3 -> Prop).
Hypothesis R_refl : forall s, R s s.
Hypothesis R_trans : forall s1 s2 s3, R s1 s2 -> R s2 s3 -> R s1 s3.
Hypothesis materializer_preserves : forall v, preserves R (solver_var v).
Hypothesis R_emit : forall c s, R s (z3_emit c s).
Hypothesis R_status : forall st s, R s (set_cpm_status st s).
Hypothesis R_objective_value : forall o s, R s (set_objective_value_ o s).
Hypothesis R_store : forall n v s, R s (store_value n v s).

Lemma z3_solver_var_of_preserves e : preserves R (solver_var_of e).
Proof. destruct e; simpl; pres. Qed.

Lemma solver_vars_preserves l : preserves R (solver_vars l).
Proof.
  pose proof z3_solver_var_of_preserves. unfold solver_vars. pres.
Qed.

Lemma weighted_preserves w : forall x, preserves R (weighted w x).
Proof.
  induction w as [|wi w IH]; intros x; simpl.
  - destruct x; pres.
  - destruct wi, x; pres.
Qed.

Lemma _z3_expr_preserves e : preserves R (_z3_expr e).
Proof.
  pose proof solver_vars_preserves. pose proof weighted_preserves.
  induction e as [n|v|l IH|name args IH|name lhs rhs IHl IHr|name args IH]
    using expr_nested_ind; cbn [_z3_expr].
  - pres.
  - pres.
  - assert (Hargs : preserves R (map_M _z3_expr l))
      by (induction IH; simpl; pres).
    pres.
  - assert (Hargs : preserves R (map_M _z3_expr args))
      by (induction IH; simpl; pres).
    pres.
  - pres.
  - assert (Hargs : preserves R (map_M _z3_expr args))
      by (induction IH; simpl; pres).
    pres.
Qed.

Lemma z3___add___preserves e : preserves R (__add__ e).
Proof.
  pose proof _z3_expr_preserves.
  induction e as [n|v|l IH|name args IH|name lhs rhs IHl IHr|name args IH]
    using expr_nested_ind; cbn [__add__]; try solve [pres].
  induction IH; simpl; pres.
Qed.

Lemma z3_objective_preserves e minimize : preserves R (objective e minimize).
Proof. pose proof _z3_expr_preserves. unfold objective. pres. Qed.

Lemma model_getitem_preserves sol h : preserves R (model_getitem sol h).
Proof. unfold model_getitem. pres. Qed.

Lemma z3_solve_preserves t a kw : preserves R (solve t a kw).
Proof.
  pose proof model_getitem_preserves. unfold solve. pres.
Qed.

End Frame.

(** One call of a public method of the class, however it ends. *)
Inductive z3_step {EN : Engine} : CPM_z3 -> CPM_z3 -> Prop :=
  | z3_step_add e s : z3_step s (snd (__add__ e s))
  | z3_step_objective e minimize s :
      z3_step s (snd (objective e minimize s))
  | z3_step_solve t a kw s : z3_step s (snd (solve t a kw s))
  | z3_step_solver_var v s : z3_step s (snd (solver_var v s)).

(** The sessions a program can reach from a fresh one. *)
Definition reachable {EN : Engine} (s : CPM_z3) : Prop :=
  rtc z3_step init_session s.

End Z3Facts.

(** ** The Z3 interface: bounds of integer variables *)

Module Z3Bounds.

Import Z3 Z3Meaning Z3Facts.

(** Every integer variable among the user variables has its handle in
    the cache and its two bound constraints among the solver's
    assertions. *)
Definition bounds_posted (s : CPM_z3) : Prop :=
  forall n lb ub,
    In (IntVar n lb ub) (user_vars s) ->
    _varmap s !! n = Some (ZInt n)
    /\ In (ZAdd (ZApp Ge [ZInt n; ZNum lb])) (z3_solver s)
    /\ In (ZAdd (ZApp Le [ZInt n; ZNum ub])) (z3_solver s).

Definition bounds_kept (s s' : CPM_z3) : Prop :=
  bounds_posted s -> bounds_posted s'.

Lemma set_add_in w uv v : In w (set_add uv v) -> In w uv \/ w = v.
Proof.
  unfold set_add. destruct (var_in v uv); auto.
  rewrite in_app_iff. simpl. intuition.
Qed.

Lemma bounds_posted_emit c s : bounds_posted s -> bounds_posted (z3_emit c s).
Proof.
  intros H n lb ub Hin. destruct (H n lb ub Hin) as (Hv & Hg & Hl).
  simpl. rewrite !in_app_iff. auto.
Qed.

Lemma bounds_posted_same s s' :
  user_vars s' = user_vars s -> _varmap s' = _varmap s ->
  z3_solver s' = z3_solver s ->
  bounds_posted s -> bounds_posted s'.
Proof.
  intros Hu Hv Hl H n lb ub. rewrite Hu, Hv, Hl. apply H.
Qed.

(** The first materialization of an integer variable: the variable
    joins the user variables, its two bounds are added to the solver,
    and its handle is cached. *)
Lemma solver_var_first_int n lb ub s :
  _varmap s !! n = None ->
  solver_var (IntVar n lb ub) s
  = (Ret (ZInt n),
     set_varmap (<[n := ZInt n]> (_varmap s))
       (z3_emit (ZAdd (ZApp Le [ZInt n; ZNum ub]))
          (z3_emit (ZAdd (ZApp Ge [ZInt n; ZNum lb]))
             (set_user_vars (set_add (user_vars s) (IntVar n lb ub)) s)))).
Proof.
  intros H. cbn [solver_var var_name is_BoolVarImpl is_IntVarImpl].
  unfold bind at 1. unfold gets. rewrite H. reflexivity.
Qed.

Lemma solver_var_first_bool n s :
  _varmap s !! n = None ->
  solver_var (BoolVar n) s
  = (Ret (ZBool n),
     set_varmap (<[n := ZBool n]> (_varmap s))
       (set_user_vars (set_add (user_vars s) (BoolVar n)) s)).
Proof.
  intros H. cbn [solver_var var_name is_BoolVarImpl is_IntVarImpl].
  unfold bind at 1. unfold gets. rewrite H. reflexivity.
Qed.

Lemma solver_var_first_other n lb ub s :
  _varmap s !! n = None ->
  solver_var (NumVar n lb ub) s
  = (Raise NotImplementedError,
     set_user_vars (set_add (user_vars s) (NumVar n lb ub)) s).
Proof.
  intros H. cbn [solver_var var_name is_BoolVarImpl is_IntVarImpl].
  unfold bind at 1. unfold gets. rewrite H. reflexivity.
Qed.

(** A later materialization returns the cached handle and changes
    nothing. *)
Lemma solver_var_cached v h s :
  is_NegBoolView v = false ->
  _varmap s !! var_name v = Some h ->
  solver_var v s = (Ret h, s).
Proof.
  intros Hv H. destruct v; try discriminate; cbn [var_name] in H;
    cbn [solver_var var_name]; unfold bind at 1; unfold gets; now rewrite H.
Qed.

Lemma solver_var_bounds v : preserves bounds_kept (solver_var v).
Proof.
  induction v as [n|n lb ub|n lb ub|bv IH]; intros s Hs.
  - destruct (_varmap s !! n) as [h|] eqn:E.
    + now rewrite (solver_var_cached (BoolVar n) h s).
    + rewrite solver_var_first_bool by assumption. simpl.
      intros m lb ub Hin. simpl in Hin.
      apply set_add_in in Hin. destruct Hin as [Hin|]; [|discriminate].
      destruct (Hs m lb ub Hin) as (Hv & Hg & Hl). simpl.
      rewrite lookup_insert_ne by congruence. auto.
  - destruct (_varmap s !! n) as [h|] eqn:E.
    + now rewrite (solver_var_cached (IntVar n lb ub) h s).
    + rewrite solver_var_first_int by assumption. simpl.
      intros m lb' ub' Hin. simpl in Hin. simpl.
      rewrite !in_app_iff. simpl.
      apply set_add_in in Hin. destruct Hin as [Hin|Heq].
      * destruct (Hs m lb' ub' Hin) as (Hv & Hg & Hl).
        rewrite lookup_insert_ne by congruence. auto.
      * injection Heq as -> -> ->. rewrite lookup_insert_eq. auto 10.
  - destruct (_varmap s !! n) as [h|] eqn:E.
    + now rewrite (solver_var_cached (NumVar n lb ub) h s).
    + rewrite solver_var_first_other by assumption. simpl.
      intros m lb' ub' Hin. simpl in Hin.
      apply set_add_in in Hin. destruct Hin as [Hin|]; [|discriminate].
      apply (Hs m lb' ub' Hin).
  - cbn [solver_var]. unfold bind.
    specialize (IH s Hs). destruct (solver_var bv s) as [[h|e|] s1]; exact IH.
Qed.

Section Reachable.

Context {EN : Engine}.

Lemma bounds_kept_refl s : bounds_kept s s.
Proof. now intros ?. Qed.

Lemma bounds_kept_trans s1 s2 s3 :
  bounds_kept s1 s2 -> bounds_kept s2 s3 -> bounds_kept s1 s3.
Proof. unfold bounds_kept. auto. Qed.

Lemma z3_step_bounds s s' : z3_step s s' -> bounds_kept s s'.
Proof.
  assert (He : forall c s0, bounds_kept s0 (z3_emit c s0))
    by (intros c s0 H; now apply bounds_posted_emit).
  assert (Hst : forall st s0, bounds_kept s0 (set_cpm_status st s0))
    by (intros st s0 H; now apply (bounds_posted_same s0)).
  assert (Ho : forall o s0, bounds_kept s0 (set_objective_value_ o s0))
    by (intros o s0 H; now apply (bounds_posted_same s0)).
  assert (Hv : forall n v s0, bounds_kept s0 (store_value n v s0))
    by (intros n [v|] s0 H; now apply (bounds_posted_same s0)).
  destruct 1.
  - exact (z3___add___preserves bounds_kept bounds_kept_refl bounds_kept_trans
             solver_var_bounds He e s).
  - exact (z3_objective_preserves bounds_kept bounds_kept_refl
             bounds_kept_trans solver_var_bounds e minimize s).
  - exact (z3_solve_preserves bounds_kept bounds_kept_refl bounds_kept_trans
             solver_var_bounds He Hst Ho Hv t a kw s).
  - apply solver_var_bounds.
Qed.

Lemma z3_steps_bounds s s' : rtc z3_step s s' -> bounds_kept s s'.
Proof.
  induction 1 as [|s1 s2 s3 H12 _ IH]; [apply bounds_kept_refl|].
  intros H1. apply IH. now apply (z3_step_bounds s1 s2).
Qed.

Lemma reachable_bounds_posted s : reachable s -> bounds_posted s.
Proof.
  intros H. apply (z3_steps_bounds init_session s H). intros n lb ub [].
Qed.

End Reachable.

(** The materializer leaves the stored values alone and never replaces
    a cached handle. *)
Definition cache_grows (s s' : CPM_z3) : Prop :=
  var_value s' = var_value s
  /\ forall k h, _varmap s !! k = Some h -> _varmap s' !! k = Some h.

Lemma solver_var_cache_grows v : preserves cache_grows (solver_var v).
Proof.
  induction v as [n|n lb ub|n lb ub|bv IH]; intros s.
  - destruct (_varmap s !! n) as [h|] eqn:E.
    + rewrite (solver_var_cached (BoolVar n) h s) by auto. now split.
    + rewrite solver_var_first_bool by assumption. split; auto.
      intros k h Hk. simpl. rewrite lookup_insert_ne; auto. congruence.
  - destruct (_varmap s !! n) as [h|] eqn:E.
    + rewrite (solver_var_cached (IntVar n lb ub) h s) by auto. now split.
    + rewrite solver_var_first_int by assumption. split; auto.
      intros k h Hk. simpl. rewrite lookup_insert_ne; auto. congruence.
  - destruct (_varmap s !! n) as [h|] eqn:E.
    + rewrite (solver_var_cached (NumVar n lb ub) h s) by auto. now split.
    + rewrite solver_var_first_other by assumption. now split.
  - cbn [solver_var]. unfold bind.
    specialize (IH s). destruct (solver_var bv s) as [[h|e|] s1]; exact IH.
Qed.

(** A negated view has an application as handle, never a constant. *)
Lemma solver_var_negated_handle bv s h s' :
  solver_var (NegBoolView bv) s = (Ret h, s') -> exists h0, h = ZApp Not [h0].
Proof.
  cbn [solver_var]. unfold bind.
  destruct (solver_var bv s) as [[h0|e|] s1]; try discriminate.
  intros [= <- <-]. now exists h0.
Qed.

Section Solve.

Context {EN : Engine}.

(** The session after the options of [solve] are set. *)
Definition z3_prepared (t : option Z) (kw : list (string * string))
    (s : CPM_z3) : CPM_z3 :=
  fold_left (fun st kv => z3_emit (ZSet (fst kv) (snd kv)) st) kw
    match t with
    | Some t => z3_emit (ZSet "timeout" (py_str (t * 1000))) s
    | None => s
    end.

(** The session after the check, with its exit status translated. *)
Definition z3_checked (a : list expr) (e : ExitStatus) (sp : CPM_z3) : CPM_z3 :=
  set_objective_value_ None
    (set_cpm_status
       {| exitstatus := e; runtime := z3_time (z3_solver sp ++ [ZCheck a]) |}
       (z3_emit (ZCheck a) sp)).

(** The two loops over the user variables. *)
Definition read_value (sol : model) (cpm_var : cpm_var) : M CPM_z3 unit :=
  let* sol_var := solver_var cpm_var in
  let* v := model_getitem sol sol_var in
  modify (store_value (var_name cpm_var) v).

Definition clear_value (cpm_var : cpm_var) : M CPM_z3 unit :=
  modify (store_value (var_name cpm_var) None).

Lemma set_options_z3_run kw s :
  for_each (fun kv => modify (z3_emit (ZSet (fst kv) (snd kv)))) kw s
  = (Ret tt, fold_left (fun st kv => z3_emit (ZSet (fst kv) (snd kv)) st) kw s).
Proof.
  revert s. induction kw as [|kv kw IH]; intros s; simpl; auto.
  unfold bind, modify. simpl. apply IH.
Qed.

(** [solve], by the answer of the check. *)
Lemma solve_run t a kw s :
  let sp := z3_prepared t kw s in
  let answer := z3_check (z3_solver sp) a in
  solve t a kw s
  = if String.eqb answer "sat" then
      (for_each (read_value (z3_model (z3_solver sp ++ [ZCheck a])))
         (user_vars sp) ;; ret true) (z3_checked a FEASIBLE sp)
    else if String.eqb answer "unsat" then
      (for_each clear_value (user_vars sp) ;; ret false)
        (z3_checked a UNSATISFIABLE sp)
    else if String.eqb answer "unknown" then
      (for_each clear_value (user_vars sp) ;; ret false)
        (z3_checked a UNKNOWN sp)
    else
      (Raise NotImplementedError,
       set_cpm_status
         {| exitstatus := NOT_RUN;
            runtime := z3_time (z3_solver sp ++ [ZCheck a]) |}
         (z3_emit (ZCheck a) sp)).
Proof.
  intros sp answer. unfold solve.
  assert (Hprep : forall A (k : unit -> M CPM_z3 A),
             bind match t with
                  | Some t => modify (z3_emit (ZSet "timeout" (py_str (t * 1000))))
                  | None => ret tt
                  end
               (fun _ => bind (for_each (fun kv =>
                                 modify (z3_emit (ZSet (fst kv) (snd kv)))) kw) k) s
             = k tt sp).
  { intros A k. unfold sp, z3_prepared.
    destruct t; unfold bind at 1; [unfold modify at 1 | unfold ret at 1];
      unfold bind at 1; now rewrite set_options_z3_run. }
  rewrite Hprep. unfold bind at 1. unfold gets at 1.
  fold answer. unfold bind at 1. unfold modify at 1.
  unfold bind at 1. unfold modify at 1.
  assert (Huv : user_vars sp = user_vars (z3_emit (ZCheck a) sp)) by reflexivity.
  destruct (String.eqb answer "sat"); [reflexivity|].
  destruct (String.eqb answer "unsat"); [reflexivity|].
  destruct (String.eqb answer "unknown"); reflexivity.
Qed.

Lemma z3_prepared_facts t kw s :
  user_vars (z3_prepared t kw s) = user_vars s
  /\ _varmap (z3_prepared t kw s) = _varmap s
  /\ var_value (z3_prepared t kw s) = var_value s
  /\ exists calls, z3_solver (z3_prepared t kw s) = z3_solver s ++ calls.
Proof.
  unfold z3_prepared.
  assert (Hfold : forall s0,
             let s1 := fold_left
                         (fun st kv => z3_emit (ZSet (fst kv) (snd kv)) st) kw s0 in
             user_vars s1 = user_vars s0 /\ _varmap s1 = _varmap s0
             /\ var_value s1 = var_value s0
             /\ exists calls, z3_solver s1 = z3_solver s0 ++ calls).
  { induction kw as [|kv kw IH]; intros s0; simpl.
    - repeat split; auto. exists []. now rewrite app_nil_r.
    - destruct (IH (z3_emit (ZSet (fst kv) (snd kv)) s0))
        as (Hu & Hv & Hval & calls & Hc).
      repeat split; auto. eexists. rewrite Hc. simpl.
      now rewrite <- app_assoc. }
  destruct t as [t|]; [|apply Hfold].
  destruct (Hfold (z3_emit (ZSet "timeout" (py_str (t * 1000))) s))
    as (Hu & Hv & Hval & calls & Hc).
  repeat split; auto. eexists. rewrite Hc. simpl. now rewrite <- app_assoc.
Qed.

(** Reading the model: one round, and the whole loop. *)
Lemma read_value_step sol v n z s0 s1 :
  m_int sol n = Some z ->
  _varmap s0 !! n = Some (ZInt n) ->
  read_value sol v s0 = (Ret tt, s1) ->
  _varmap s1 !! n = Some (ZInt n)
  /\ (var_name v = n \/ var_value s0 !! n = Some (VInt z) ->
      var_value s1 !! n = Some (VInt z)).
Proof.
  intros Hz Hn H. unfold read_value in H.
  apply bind_inv in H. destruct H as (h & sa & Hh & H).
  apply bind_inv in H. destruct H as (val & sb & Hval & H).
  unfold modify in H. injection H as <-.
  pose proof (solver_var_cache_grows v s0) as [Hvv Hvm]. rewrite Hh in Hvv, Hvm.
  simpl in Hvv, Hvm.
  assert (Hsb : sb = sa /\ (forall x, h = ZInt x -> val = VInt <$> m_int sol x)
                /\ (forall h0, h <> ZApp Not [h0])).
  { unfold model_getitem in Hval.
    destruct h; try discriminate; unfold ret in Hval; simplify_eq;
      repeat split; congruence. }
  destruct Hsb as (-> & Hint & Hnot).
  split.
  - destruct val; simpl; now apply Hvm.
  - intros Hcase. destruct (decide (var_name v = n)) as [Heq|Hne].
    + assert (Hpos : is_NegBoolView v = false).
      { destruct v; auto.
        destruct (solver_var_negated_handle _ _ _ _ Hh) as [h0 ->].
        now destruct (Hnot h0). }
      rewrite <- Heq in Hn.
      rewrite (solver_var_cached v _ s0 Hpos Hn) in Hh. injection Hh as <- <-.
      rewrite (Hint (var_name v) eq_refl), Heq, Hz. simpl.
      apply lookup_insert_eq.
    + destruct Hcase as [|Hold]; [contradiction|].
      destruct val; simpl.
      * rewrite lookup_insert_ne by assumption. now rewrite Hvv.
      * rewrite lookup_delete_ne by assumption. now rewrite Hvv.
Qed.

Lemma read_loop sol n z vars :
  m_int sol n = Some z ->
  forall s0 s1,
    _varmap s0 !! n = Some (ZInt n) ->
    for_each (read_value sol) vars s0 = (Ret tt, s1) ->
    ((exists v, In v vars /\ var_name v = n)
     \/ var_value s0 !! n = Some (VInt z)) ->
    var_value s1 !! n = Some (VInt z).
Proof.
  intros Hz. induction vars as [|v vars IH]; intros s0 s1 Hn H Hcase.
  - unfold for_each, ret in H. injection H as <-.
    destruct Hcase as [(v & [] & _)|]; auto.
  - simpl in H. apply bind_inv in H. destruct H as ([] & sa & Hv & H).
    destruct (read_value_step sol v n z s0 sa Hz Hn Hv) as (Hna & Hvala).
    apply (IH sa s1 Hna H).
    destruct Hcase as [(w & [<-|Hin] & Hw)|Hold]; eauto.
Qed.

(** Clearing the values: the whole loop. *)
Lemma clear_loop vars s :
  for_each clear_value vars s
  = (Ret tt, fold_left (fun st v => store_value (var_name v) None st) vars s).
Proof.
  revert s. induction vars as [|v vars IH]; intros s; simpl; auto.
  unfold bind, clear_value, modify. simpl. apply IH.
Qed.

Lemma cleared_stays vars : forall s k,
  var_value s !! k = None ->
  var_value (fold_left (fun st v => store_value (var_name v) None st) vars s) !! k
  = None.
Proof.
  induction vars as [|v vars IH]; intros s k H; simpl; auto.
  apply IH. simpl. rewrite lookup_delete. now destruct (decide _).
Qed.

Lemma cleared_all vars : forall s v,
  In v vars ->
  var_value (fold_left (fun st v => store_value (var_name v) None st) vars s)
    !! var_name v = None.
Proof.
  induction vars as [|w vars IH]; intros s v Hin; [destruct Hin|].
  destruct Hin as [<-|Hin]; simpl.
  - apply cleared_stays. simpl. apply lookup_delete_eq.
  - now apply IH.
Qed.

Lemma cleared_frame vars : forall s,
  let s' := fold_left (fun st v => store_value (var_name v) None st) vars s in
  cpm_status s' = cpm_status s /\ objective_value_ s' = objective_value_ s
  /\ z3_solver s' = z3_solver s /\ _varmap s' = _varmap s.
Proof.
  induction vars as [|w vars IH]; intros s; simpl; auto.
  destruct (IH (store_value (var_name w) None s)) as (H1 & H2 & H3 & H4).
  cbv zeta. simpl in *. now rewrite H1, H2, H3, H4.
Qed.

(** C10. The first materialization of an integer variable with domain
    [lb..ub] adds the two constraints [handle >= lb] and [handle <= ub]
    to the solver at once.  Hence, for a solver whose model after "sat"
    satisfies what was added, in every session reached from a fresh one
    a [solve] that reports a solution gives every integer variable
    among the user variables a value within its declared bounds. *)
Theorem integer_values_within_bounds :
  sound EN ->
  (forall n lb ub s,
     _varmap s !! n = None ->
     exists s',
       solver_var (IntVar n lb ub) s = (Ret (ZInt n), s')
       /\ z3_solver s'
          = z3_solver s
            ++ [ZAdd (ZApp Ge [ZInt n; ZNum lb]); ZAdd (ZApp Le [ZInt n; ZNum ub])]
       /\ _varmap s' !! n = Some (ZInt n))
  /\ (forall s t a kw s',
        reachable s ->
        solve t a kw s = (Ret true, s') ->
        forall n lb ub,
          In (IntVar n lb ub) (user_vars s) ->
          exists z, var_value s' !! n = Some (VInt z) /\ lb <= z <= ub).
Proof.
  intros Hsound. split.
  - intros n lb ub s Hn. eexists. split; [now apply solver_var_first_int|].
    split.
    + simpl. now rewrite <- app_assoc.
    + simpl. apply lookup_insert_eq.
  - intros s t a kw s' Hreach Hsolve n lb ub Hin.
    destruct (reachable_bounds_posted s Hreach n lb ub Hin) as (Hn & Hge & Hle).
    rewrite solve_run in Hsolve. cbv zeta in Hsolve.
    destruct (z3_prepared_facts t kw s) as (Hu & Hv & _ & calls & Hcalls).
    set (sp := z3_prepared t kw s) in *.
    destruct (String.eqb (z3_check (z3_solver sp) a) "sat") eqn:Esat.
    + apply String.eqb_eq in Esat.
      apply bind_inv in Hsolve. destruct Hsolve as ([] & s1 & Hloop & Hret).
      unfold ret in Hret. injection Hret as <-.
      pose proof (Hsound _ _ Esat) as Hsat.
      set (sol := z3_model (z3_solver sp ++ [ZCheck a])) in *.
      unfold satisfies in Hsat. rewrite forallb_forall in Hsat.
      assert (Hge' : z3_true sol (ZApp Ge [ZInt n; ZNum lb]) = true).
      { apply (Hsat (ZAdd (ZApp Ge [ZInt n; ZNum lb]))).
        rewrite Hcalls, in_app_iff. auto. }
      assert (Hle' : z3_true sol (ZApp Le [ZInt n; ZNum ub]) = true).
      { apply (Hsat (ZAdd (ZApp Le [ZInt n; ZNum ub]))).
        rewrite Hcalls, in_app_iff. auto. }
      unfold z3_true in Hge', Hle'. simpl in Hge', Hle'.
      destruct (m_int sol n) as [z|] eqn:Hz; simpl in Hge', Hle';
        [|discriminate].
      exists z. split.
      * apply (read_loop sol n z (user_vars sp) Hz
                 (z3_checked a FEASIBLE sp) s1); auto.
        -- simpl. now rewrite Hv.
        -- left. exists (IntVar n lb ub). rewrite Hu. auto.
      * destruct (Z.leb_spec lb z), (Z.leb_spec z ub); try discriminate. lia.
    + destruct (String.eqb (z3_check (z3_solver sp) a) "unsat");
        [|destruct (String.eqb (z3_check (z3_solver sp) a) "unknown")];
        try discriminate;
        apply bind_inv in Hsolve; destruct Hsolve as ([] & s1 & _ & Hret);
        discriminate.
Qed.

End Solve.

Lemma guesser_sound : sound Demo.guesser.
Proof.
  intros calls a. simpl.
  destruct (satisfies Demo.threes calls); [reflexivity | discriminate].
Qed.

Lemma integer_values_within_bounds_witness :
  let s := snd (solver_var Demo.x init_session) in
  (@reachable Demo.guesser s
   /\ fst (@solve Demo.guesser None [] [] s) = Ret true
   /\ In Demo.x (user_vars s))
  /\ exists z,
       var_value (snd (@solve Demo.guesser None [] [] s)) !! "x" = Some (VInt z)
       /\ 0 <= z <= 5.
Proof.
  assert (Hreach : @reachable Demo.guesser (snd (solver_var Demo.x init_session))).
  { apply rtc_once. apply (@z3_step_solver_var Demo.guesser). }
  split.
  - split; [exact Hreach|]. split; [reflexivity | left; reflexivity].
  - apply (proj2 (@integer_values_within_bounds Demo.guesser guesser_sound)
             (snd (solver_var Demo.x init_session)) None [] []
             (snd (@solve Demo.guesser None [] []
                     (snd (solver_var Demo.x init_session))))
             Hreach eq_refl "x" 0 5).
    left. reflexivity.
Defined.

End Z3Bounds.

(** ** Handles of variables and of negated views *)

Module Handles.

Import Meaning.

(** On the flat interface a cached handle is returned as it is. *)
Lemma flat_solver_var_cached v h s :
  is_NegBoolView v = false ->
  Exact._varmap s !! var_name v = Some h ->
  Exact.solver_var v s = (Ret h, s).
Proof.
  intros Hv H. destruct v; try discriminate; cbn [var_name] in H;
    cbn [Exact.solver_var var_name]; unfold bind at 1; unfold gets;
    now rewrite H.
Qed.

(** What [solver_var] makes of a negated view on the flat interface:
    when the variable inside has a handle, the call of [Not] on that
    handle, a Python string, raises. *)
Lemma flat_negated_view_run v s :
  Exact.solver_var (NegBoolView v) s
  = match Exact.solver_var v s with
    | (Ret _, s') => (Raise AttributeError, s')
    | r => r
    end.
Proof.
  cbn [Exact.solver_var]. unfold bind, Exact.str_Not, raise.
  now destruct (Exact.solver_var v s) as [[h|e|] s'].
Qed.

Lemma flat_solver_var_stored v s h s' :
  Exact.solver_var v s = (Ret h, s') ->
  is_NegBoolView v = false /\ Exact._varmap s' !! var_name v = Some h.
Proof.
  intros H. destruct v as [n|n lb ub|n lb ub|bv].
  - split; auto. cbn [Exact.solver_var var_name is_BoolVarImpl] in *.
    unfold bind at 1 in H. unfold gets in H.
    destruct (Exact._varmap s !! n) eqn:E.
    + unfold ret in H. now simplify_eq.
    + unfold bind, modify, ret in H. simpl in H. simplify_eq. simpl.
      apply lookup_insert_eq.
  - split; auto.
    cbn [Exact.solver_var var_name is_BoolVarImpl is_IntVarImpl] in *.
    unfold bind at 1 in H. unfold gets in H.
    destruct (Exact._varmap s !! n) eqn:E.
    + unfold ret in H. now simplify_eq.
    + destruct (threshold <? Z.max (Z.abs lb) (Z.abs ub));
        unfold bind, modify, ret in H; simpl in H; simplify_eq; simpl;
        apply lookup_insert_eq.
  - split; auto.
    cbn [Exact.solver_var var_name is_BoolVarImpl is_IntVarImpl] in *.
    unfold bind at 1 in H. unfold gets in H.
    destruct (Exact._varmap s !! n) eqn:E.
    + unfold ret in H. now simplify_eq.
    + discriminate.
  - rewrite flat_negated_view_run in H.
    destruct (Exact.solver_var bv s) as [[h0|e|] s0]; discriminate.
Qed.

(** C3 on the flat interface: [solver_var] has no handle for a negated
    view.  It materializes the variable inside, and then raises
    [AttributeError], since the handle it calls [Not] on is a string. *)
Theorem flat_negated_view_has_no_handle :
  (forall v s,
     Exact.solver_var (NegBoolView v) s
     = match Exact.solver_var v s with
       | (Ret _, s') => (Raise AttributeError, s')
       | r => r
       end)
  /\ Exact.solver_var (NegBoolView (BoolVar "b")) Exact.init_session
     = (Raise AttributeError,
        snd (Exact.solver_var (BoolVar "b") Exact.init_session)).
Proof. split; [apply flat_negated_view_run | reflexivity]. Qed.

Lemma nested_solver_var_stored v s h s' :
  is_NegBoolView v = false ->
  Z3.solver_var v s = (Ret h, s') ->
  Z3._varmap s' !! var_name v = Some h.
Proof.
  intros Hv H. destruct v as [n|n lb ub|n lb ub|bv]; try discriminate;
    cbn [var_name]; destruct (Z3._varmap s !! n) as [h0|] eqn:E.
  - rewrite (Z3Bounds.solver_var_cached (BoolVar n) h0 s) in H by auto.
    now simplify_eq.
  - rewrite Z3Bounds.solver_var_first_bool in H by assumption.
    simplify_eq. simpl. apply lookup_insert_eq.
  - rewrite (Z3Bounds.solver_var_cached (IntVar n lb ub) h0 s) in H by auto.
    now simplify_eq.
  - rewrite Z3Bounds.solver_var_first_int in H by assumption.
    simplify_eq. simpl. apply lookup_insert_eq.
  - rewrite (Z3Bounds.solver_var_cached (NumVar n lb ub) h0 s) in H by auto.
    now simplify_eq.
  - rewrite Z3Bounds.solver_var_first_other in H by assumption. discriminate.
Qed.

(** X2. The handle of a variable is made once.  On both interfaces a call
    of [solver_var] that has returned a handle returns the same handle
    when repeated, and then changes nothing; on the nested interface
    the handle of a negated view is [Not] applied to the handle of the
    variable inside, which is the only thing it materializes. *)
Theorem handles_are_made_once :
  (forall v s h s',
     Exact.solver_var v s = (Ret h, s') ->
     Exact.solver_var v s' = (Ret h, s'))
  /\ (forall v s h s',
        Z3.solver_var v s = (Ret h, s') ->
        Z3.solver_var v s' = (Ret h, s'))
  /\ (forall v s,
        Z3.solver_var (NegBoolView v) s
        = match Z3.solver_var v s with
          | (Ret h, s') => (Ret (Z3.ZApp Z3.Not [h]), s')
          | (Raise e, s') => (Raise e, s')
          | (OutOfFuel, s') => (OutOfFuel, s')
          end).
Proof.
  split; [|split].
  - intros v s h s' H.
    destruct (flat_solver_var_stored v s h s' H) as [Hv Hs].
    now apply flat_solver_var_cached.
  - induction v as [n|n lb ub|n lb ub|bv IH]; intros s h s' H;
      try (apply Z3Bounds.solver_var_cached; auto;
           now apply (nested_solver_var_stored _ s)).
    cbn [Z3.solver_var] in *. unfold bind in *.
    destruct (Z3.solver_var bv s) as [[h0|e|] s0] eqn:E; try discriminate.
    unfold ret in H. simplify_eq. now rewrite (IH s h0 s' E).
  - intros v s. cbn [Z3.solver_var]. unfold bind, ret.
    now destruct (Z3.solver_var v s) as [[h|e|] s'].
Qed.

Lemma handles_are_made_once_witness :
  let s' := snd (Z3.solver_var Demo.x Z3.init_session) in
  Z3.solver_var Demo.x Z3.init_session = (Ret (Z3.ZInt "x"), s')
  /\ Z3.solver_var Demo.x s' = (Ret (Z3.ZInt "x"), s').
Proof.
  split; [reflexivity|].
  apply (proj1 (proj2 handles_are_made_once) Demo.x Z3.init_session).
  reflexivity.
Defined.

End Handles.

(** ** The translation of the backend's status *)

Module StatusTranslation.

Import Meaning.

Section Flat.

Context {EN : Exact.Engine}.

(** The flat session after [solve] has initialised the engine and set
    its options. *)
Definition flat_prepared (t : option Z) (kw : list (string * string))
    (s : Exact.CPM_exact) : Exact.CPM_exact :=
  fold_left (fun st kv => Exact.xct_emit (Exact.SetOption (fst kv) (snd kv)) st) kw
    (let s0 :=
       if Exact.has_objective s then s
       else Exact.xct_emit (Exact.Init [] []) (Exact.set_has_objective true s) in
     match t with
     | Some t => Exact.xct_emit (Exact.SetOption "timeout" (py_str t)) s0
     | None => s0
     end).

(** The flat session after the engine has run. *)
Definition flat_ran (sp : Exact.CPM_exact) : Exact.CPM_exact :=
  Exact.set_cpm_status Exact.new_status (Exact.xct_emit Exact.RunFull sp).

Lemma flat_set_options_run kw s :
  Exact.set_options kw s
  = (Ret tt,
     fold_left (fun st kv => Exact.xct_emit (Exact.SetOption (fst kv) (snd kv)) st)
       kw s).
Proof.
  unfold Exact.set_options. revert s.
  induction kw as [|kv kw IH]; intros s; simpl; auto.
  unfold bind, modify. simpl. apply IH.
Qed.

Lemma flat_prepared_values t kw s :
  Exact.var_value (flat_prepared t kw s) = Exact.var_value s.
Proof.
  unfold flat_prepared.
  assert (Hfold : forall s0,
             Exact.var_value
               (fold_left
                  (fun st kv =>
                     Exact.xct_emit (Exact.SetOption (fst kv) (snd kv)) st) kw s0)
             = Exact.var_value s0).
  { induction kw as [|kv kw IH]; intros s0; simpl; auto. now rewrite IH. }
  rewrite Hfold. now destruct t, (Exact.has_objective s).
Qed.

(** [solve] without assumptions, by the engine's status code. *)
Lemma flat_solve_run t kw s :
  let sp := flat_prepared t kw s in
  let status := Exact.xct_runFull (Exact.xct_solver sp) in
  Exact.solve t None kw s
  = if status =? 0 then
      Exact.getSolAndObj
        (Exact.set_exitstatus
           (if Exact.xct_hasSolution (Exact.xct_solver (flat_ran sp))
            then OPTIMAL else UNSATISFIABLE) (flat_ran sp))
    else if status =? 2 then
      Exact.getSolAndObj (Exact.set_exitstatus UNKNOWN (flat_ran sp))
    else (Raise NotImplementedError, flat_ran sp).
Proof.
  intros sp status. unfold Exact.solve.
  assert (Hprep : forall A (k : unit -> M Exact.CPM_exact A),
             bind Exact.init_if_no_objective
               (fun _ => bind (Exact.set_time_limit t)
                  (fun _ => bind (Exact.set_options kw) k)) s
             = k tt sp).
  { intros A k. unfold sp, flat_prepared, Exact.init_if_no_objective,
      Exact.set_time_limit.
    unfold bind at 1. unfold bind at 1. unfold gets at 1.
    destruct (Exact.has_objective s); simpl negb; cbv iota;
      destruct t; unfold bind, modify, ret; simpl;
      now rewrite flat_set_options_run. }
  rewrite Hprep. unfold bind at 1. unfold ret at 1.
  unfold bind at 1. unfold gets at 1. fold status.
  unfold bind at 1. unfold modify at 1.
  unfold bind at 1. unfold modify at 1. fold (flat_ran sp).
  destruct (status =? 0).
  - unfold bind at 1. unfold bind at 1. unfold gets at 1.
    now destruct (Exact.xct_hasSolution (Exact.xct_solver (flat_ran sp))).
  - now destruct (status =? 2).
Qed.

End Flat.

Section Both.

Context {XE : Exact.Engine} {ZE : Z3.Engine}.

(** C8, as amended.  A backend-reported unknown or timeout status is
    translated to the exit status UNKNOWN and is not an error.  On the
    flat interface (status code 2) [solve] goes on to [getSolAndObj];
    when the engine has no solution it returns [False], stores no
    objective value and leaves the values of the variables as they
    were.  On the nested interface (answer "unknown") [solve] returns
    [False], stores no objective value and clears the value of every
    user variable.  A status code other than 0 and 2, and an answer
    other than "sat", "unsat" and "unknown", raise
    [NotImplementedError]. *)
Theorem unknown_status_is_translated :
  (forall t kw s,
     let sp := flat_prepared t kw s in
     let status := Exact.xct_runFull (Exact.xct_solver sp) in
     (status = 2 ->
      Exact.solve t None kw s
      = Exact.getSolAndObj (Exact.set_exitstatus UNKNOWN (flat_ran sp))
      /\ (Exact.xct_hasSolution (Exact.xct_solver (flat_ran sp)) = false ->
          exists s',
            Exact.solve t None kw s = (Ret false, s')
            /\ exitstatus (Exact.cpm_status s') = UNKNOWN
            /\ Exact.objective_value_ s' = None
            /\ Exact.var_value s' = Exact.var_value s))
     /\ (status <> 0 -> status <> 2 ->
         Exact.solve t None kw s = (Raise NotImplementedError, flat_ran sp)))
  /\ (forall t a kw s,
        let sp := Z3Bounds.z3_prepared t kw s in
        let answer := Z3.z3_check (Z3.z3_solver sp) a in
        (answer = "unknown" ->
         exists s',
           Z3.solve t a kw s = (Ret false, s')
           /\ exitstatus (Z3.cpm_status s') = UNKNOWN
           /\ Z3.objective_value_ s' = None
           /\ forall v, In v (Z3.user_vars s) ->
                Z3.var_value s' !! var_name v = None)
        /\ (answer <> "sat" -> answer <> "unsat" -> answer <> "unknown" ->
            fst (Z3.solve t a kw s) = Raise NotImplementedError)).
Proof.
  split.
  - intros t kw s sp status. split.
    + intros Hst. pose proof (flat_solve_run t kw s) as Hrun.
      cbv zeta in Hrun. fold sp in Hrun. fold status in Hrun.
      rewrite Hst in Hrun. simpl in Hrun. split; [exact Hrun|].
      intros Hno. rewrite Hrun.
      rewrite (ExactCorrect.getSolAndObj_without_solution
                 (Exact.set_exitstatus UNKNOWN (flat_ran sp)) Hno). eexists. split; [reflexivity|].
      repeat split. simpl. apply flat_prepared_values.
    + intros H0 H2. pose proof (flat_solve_run t kw s) as Hrun.
      cbv zeta in Hrun. fold sp in Hrun. fold status in Hrun.
      rewrite Hrun.
      destruct (Z.eqb_spec status 0); [contradiction|].
      destruct (Z.eqb_spec status 2); [contradiction|]. reflexivity.
  - intros t a kw s sp answer. split.
    + intros Hans. pose proof (Z3Bounds.solve_run t a kw s) as Hrun.
      cbv zeta in Hrun. fold sp in Hrun. fold answer in Hrun.
      rewrite Hans in Hrun. simpl in Hrun.
      unfold bind in Hrun. rewrite Z3Bounds.clear_loop in Hrun.
      unfold ret in Hrun. rewrite Hrun. eexists. split; [reflexivity|].
      destruct (Z3Bounds.cleared_frame (Z3.user_vars sp)
                  (Z3Bounds.z3_checked a UNKNOWN sp)) as (Hs & Ho & _ & _).
      cbv zeta in Hs, Ho. rewrite Hs, Ho. repeat split.
      intros v Hv. apply Z3Bounds.cleared_all.
      destruct (Z3Bounds.z3_prepared_facts t kw s) as (Hu & _).
      fold sp in Hu. now rewrite Hu.
    + intros H1 H2 H3. pose proof (Z3Bounds.solve_run t a kw s) as Hrun.
      cbv zeta in Hrun. fold sp in Hrun. fold answer in Hrun. rewrite Hrun.
      destruct (String.eqb_spec answer "sat"); [contradiction|].
      destruct (String.eqb_spec answer "unsat"); [contradiction|].
      destruct (String.eqb_spec answer "unknown"); [contradiction|].
      reflexivity.
Qed.

End Both.

(** C8, the claim as written fails on the flat interface: the engine
    reports status 2 and has no solution, [solve] returns [False] with
    exit status UNKNOWN, and the value stored for [x] is still there. *)
Lemma flat_unknown_keeps_values :
  let s :=
    Exact.set_var_value {["x" := VInt 3]}
      (Exact.set_user_vars [Demo.x] Exact.init_session) in
  let run := @Exact.solve Demo.undecided None None [] s in
  fst run = Ret false
  /\ exitstatus (Exact.cpm_status (snd run)) = UNKNOWN
  /\ Exact.var_value (snd run) !! "x" = Some (VInt 3).
Proof. repeat split. Qed.

Lemma unknown_status_is_translated_witness :
  let s :=
    Z3.set_var_value {["x" := VInt 3]}
      (snd (Z3.solver_var Demo.x Z3.init_session)) in
  @Z3.z3_check Demo.clueless (Z3.z3_solver (Z3Bounds.z3_prepared None [] s)) []
  = "unknown"
  /\ exists s',
       @Z3.solve Demo.clueless None [] [] s = (Ret false, s')
       /\ exitstatus (Z3.cpm_status s') = UNKNOWN
       /\ Z3.objective_value_ s' = None
       /\ forall v, In v (Z3.user_vars s) ->
            Z3.var_value s' !! var_name v = None.
Proof.
  split; [reflexivity|].
  apply (proj1 (proj2 (@unknown_status_is_translated Demo.undecided Demo.clueless)
                  None [] []
                  (Z3.set_var_value {["x" := VInt 3]}
                     (snd (Z3.solver_var Demo.x Z3.init_session))))).
  reflexivity.
Defined.

End StatusTranslation.

(** ** The Exact interface: what normalization and a refused constraint
       leave behind *)

Module ExactNormalize.

Import Exact Meaning ExactFacts.

(** The session after a method, compared with the session before it:
    the engine has received declarations only, and nothing but the call
    log and the handle cache has changed. *)
Definition only_declares (s s' : CPM_exact) : Prop :=
  (exists decls,
     xct_solver s' = xct_solver s ++ decls
     /\ Forall (fun c => is_decl c = true) decls)
  /\ has_objective s' = has_objective s
  /\ objective_minimize s' = objective_minimize s
  /\ objective_value_ s' = objective_value_ s
  /\ cpm_status s' = cpm_status s
  /\ user_vars s' = user_vars s
  /\ var_value s' = var_value s.


(** The accumulators of the normalization pair every coefficient with a
    handle. *)
Definition paired (acc : numexpr) : Prop :=
  let '(cs, vs, _) := acc in length cs = length vs.

Lemma only_declares_refl s : only_declares s s.
Proof.
  split; [|tauto]. exists []. split; [now rewrite app_nil_r | constructor].
Qed.

Lemma only_declares_trans s1 s2 s3 :
  only_declares s1 s2 -> only_declares s2 s3 -> only_declares s1 s3.
Proof.
  intros ((d1 & E1 & F1) & A1 & B1 & C1 & D1 & G1 & H1)
         ((d2 & E2 & F2) & A2 & B2 & C2 & D2 & G2 & H2).
  split; [|repeat split; congruence].
  exists (d1 ++ d2). split.
  - now rewrite E2, E1, <- app_assoc.
  - apply Forall_app; auto.
Qed.

Lemma only_declares_decl n lb ub s :
  only_declares s (xct_emit (AddVariable n lb ub) s).
Proof.
  split; [|tauto]. exists [AddVariable n lb ub]. split; auto.
Qed.

Lemma only_declares_cache m s : only_declares s (set_varmap m s).
Proof.
  split; [|tauto]. exists []. split; [simpl; now rewrite app_nil_r | constructor].
Qed.

Lemma solver_var_only_declares v : preserves only_declares (solver_var v).
Proof.
  pose proof only_declares_refl. pose proof only_declares_trans.
  pose proof only_declares_decl. pose proof only_declares_cache.
  induction v; simpl; pres.
Qed.

Lemma _make_numexpr_only_declares lhs rhs :
  preserves only_declares (_make_numexpr lhs rhs).
Proof.
  apply _make_numexpr_preserves.
  - apply only_declares_refl.
  - apply only_declares_trans.
  - apply solver_var_only_declares.
Qed.

Lemma fold_M_paired {A} (step : numexpr -> A -> M CPM_exact numexpr) l :
  (forall acc x s acc' s',
     paired acc -> step acc x s = (Ret acc', s') -> paired acc') ->
  forall acc s acc' s',
    paired acc -> fold_M step l acc s = (Ret acc', s') -> paired acc'.
Proof.
  intros Hstep. induction l as [|x l IH]; intros acc s acc' s' Hp H; simpl in H.
  - unfold ret in H. now simplify_eq.
  - apply bind_inv in H. destruct H as (acc1 & s1 & H1 & H).
    eapply IH; [|exact H]. eapply Hstep; eauto.
Qed.

Lemma sum_step_paired acc x s acc' s' :
  paired acc -> sum_step acc x s = (Ret acc', s') -> paired acc'.
Proof.
  destruct acc as [[cs vs] r]. unfold sum_step. intros Hp H.
  destruct x; try (apply bind_inv in H; destruct H as (h & s1 & _ & H));
    unfold ret in H; simplify_eq; simpl in *; rewrite ?length_app; simpl; lia.
Qed.

Lemma wsum_step_paired acc cx s acc' s' :
  paired acc -> wsum_step acc cx s = (Ret acc', s') -> paired acc'.
Proof.
  destruct acc as [[cs vs] r], cx as [c x]. unfold wsum_step. intros Hp H.
  destruct c; try discriminate.
  destruct x; try (apply bind_inv in H; destruct H as (h & s1 & _ & H));
    unfold ret in H; simplify_eq; simpl in *; rewrite ?length_app; simpl; lia.
Qed.

Lemma _make_numexpr_paired lhs rhs s cs vs r s' :
  _make_numexpr lhs rhs s = (Ret (cs, vs, r), s') -> length cs = length vs.
Proof.
  unfold _make_numexpr. intros H.
  apply bind_inv in H. destruct H as ([[cs0 vs0] r0] & s0 & H0 & H).
  assert (Hp : paired (cs0, vs0, r0)).
  { destruct rhs; try (unfold raise_naming in H0; simpl in H0; discriminate).
    - unfold ret in H0. now simplify_eq.
    - apply bind_inv in H0. destruct H0 as (h & s1 & _ & H0).
      unfold ret in H0. now simplify_eq. }
  change (paired (cs, vs, r)).
  destruct lhs as [n|v|l|name args|name l0 r1|name args];
    [ unfold ret in H; simplify_eq; exact Hp
    | apply bind_inv in H; destruct H as (h & s1 & _ & H);
      unfold ret in H; simplify_eq; simpl in *; rewrite !length_app; simpl; lia
    | discriminate
    | | | ];
    cbn [expr_name] in H;
    match type of H with context [expr_args ?e] =>
      generalize dependent (expr_args e); intros al H
    end;
    (destruct (String.eqb name "sum");
     [eapply fold_M_paired; [apply sum_step_paired | exact Hp | exact H]|]);
    (destruct (String.eqb name "wsum");
     [destruct al as [|[| |ws| | |] [|[| |xs| | |] [|]]]; try discriminate;
      eapply fold_M_paired; [apply wsum_step_paired | exact Hp | exact H]|]);
    (destruct (String.eqb name "sub"); [|discriminate]);
    apply bind_inv in H; destruct H as ([] & s1 & _ & H);
    destruct al as [|a [|b [|]]]; try discriminate;
    apply bind_inv in H; destruct H as (ha & s2 & _ & H);
    apply bind_inv in H; destruct H as (hb & s3 & _ & H);
    unfold ret in H; simplify_eq; simpl in *; rewrite !length_app; simpl; lia.
Qed.





(** X6. Whatever [_make_numexpr] does, return or raise, the engine has
    received nothing but declarations of variables and no attribute of
    the session other than the call log and the handle cache has
    changed; and when it returns, its coefficient list and its handle
    list have the same length. *)
Theorem normalization_only_declares lhs rhs s :
  only_declares s (snd (_make_numexpr lhs rhs s))
  /\ forall cs vs r,
       fst (_make_numexpr lhs rhs s) = Ret (cs, vs, r) ->
       length cs = length vs.
Proof.
  split.
  - apply _make_numexpr_only_declares.
  - intros cs vs r H.
    destruct (_make_numexpr lhs rhs s) as [o s'] eqn:E. simpl in H. subst o.
    exact (_make_numexpr_paired _ _ _ _ _ _ _ E).
Qed.

(** X5. The triple that [_make_numexpr] returns stands for the
    difference of the two sides: under every assignment the weighted
    sum of the handles is [lhs - rhs + xrhs], for a left side that is a
    number, a variable, a sum, a weighted sum or a subtraction. *)
Theorem normalization_keeps_difference σ lhs rhs s cs vs r s' :
  ExactCompile.linear_shape lhs = true ->
  varmap_ok s ->
  _make_numexpr lhs rhs s = (Ret (cs, vs, r), s') ->
  exists a b,
    eval σ lhs = Some a /\ eval σ rhs = Some b
    /\ lin σ cs vs = a - b + r.
Proof.
  intros Hshape Hok H.
  destruct (ExactCompile._make_numexpr_sound σ lhs rhs s cs vs r s' Hshape Hok H)
    as (_ & _ & a & b & Ha & Hb & Hv).
  exists a, b. repeat split; auto. lia.
Qed.


Lemma varmap_ok_init : varmap_ok init_session.
Proof. intros n h H. simpl in H. now rewrite lookup_empty in H. Qed.

Lemma normalization_only_declares_witness :
  length [1; 1] = length ["x"; "y"].
Proof.
  apply (proj2 (normalization_only_declares
                  (Operator "sum" [Var Demo.x; Var Demo.y; Num 2]) (Num 5)
                  init_session) [1; 1] ["x"; "y"] 3).
  reflexivity.
Defined.

Lemma normalization_keeps_difference_witness :
  let σ := fun n : string => if String.eqb n "x" then 4 else 1 in
  exists a b,
    eval σ (Operator "sub" [Var Demo.x; Var Demo.y]) = Some a
    /\ eval σ (Num 2) = Some b
    /\ lin σ [1; -1] ["x"; "y"] = a - b + 2.
Proof.
  apply (normalization_keeps_difference
           (fun n : string => if String.eqb n "x" then 4 else 1)
           (Operator "sub" [Var Demo.x; Var Demo.y]) (Num 2) init_session
           [1; -1] ["x"; "y"] 2
           (snd (_make_numexpr (Operator "sub" [Var Demo.x; Var Demo.y]) (Num 2)
                   init_session))).
  - reflexivity.
  - exact varmap_ok_init.
  - reflexivity.
Defined.


End ExactNormalize.

(** ** The Exact interface: what holds in every session *)

Module ExactSession.

Import Exact Meaning ExactFacts.

(** The names declared to the engine, in the order of the calls. *)
Fixpoint declared (log : list xct_call) : list string :=
  match log with
  | [] => []
  | AddVariable n _ _ :: log' => n :: declared log'
  | _ :: log' => declared log'
  end.

(** How often the engine has been initialised with an objective. *)
Fixpoint inits (log : list xct_call) : nat :=
  match log with
  | [] => 0
  | Init _ _ :: log' => S (inits log')
  | _ :: log' => inits log'
  end.

Definition is_init (c : xct_call) : bool :=
  match c with Init _ _ => true | _ => false end.

(** Every name is declared once, and the declared names are those with
    a handle in the cache. *)
Definition declared_once (s : CPM_exact) : Prop :=
  NoDup (declared (xct_solver s))
  /\ forall n, n ∈ declared (xct_solver s) <-> is_Some (_varmap s !! n).

(** The engine is initialised at most once, and only in a session that
    is marked as having an objective. *)
Definition initialised_once (s : CPM_exact) : Prop :=
  if has_objective s then (inits (xct_solver s) <= 1)%nat
  else inits (xct_solver s) = 0%nat.

(** The mark and the number of initialisations are as before. *)
Definition same_inits (s s' : CPM_exact) : Prop :=
  has_objective s' = has_objective s
  /\ inits (xct_solver s') = inits (xct_solver s).

(** A cache that maps names to themselves stays so, and keeps its
    entries. *)
Definition handles_kept (s s' : CPM_exact) : Prop :=
  varmap_ok s ->
  varmap_ok s'
  /\ forall n h, _varmap s !! n = Some h -> _varmap s' !! n = Some h.

(** The invariants, as relations between a session and a later one. *)
Definition declared_once_kept (s s' : CPM_exact) : Prop :=
  declared_once s -> declared_once s'.

Definition initialised_once_kept (s s' : CPM_exact) : Prop :=
  initialised_once s -> initialised_once s'.

(** The mark and the initialisations of a session that has its mark. *)
Definition marked_kept (s s' : CPM_exact) : Prop :=
  has_objective s = true -> same_inits s s'.

Lemma declared_app l1 l2 : declared (l1 ++ l2) = declared l1 ++ declared l2.
Proof.
  induction l1 as [|c l1 IH]; simpl; auto. destruct c; simpl; now rewrite ?IH.
Qed.

Lemma inits_app l1 l2 : inits (l1 ++ l2) = (inits l1 + inits l2)%nat.
Proof.
  induction l1 as [|c l1 IH]; simpl; auto. destruct c; simpl; now rewrite ?IH.
Qed.

Lemma declared_other c l : is_decl c = false -> declared (l ++ [c]) = declared l.
Proof.
  intros H. rewrite declared_app. destruct c; try discriminate; simpl;
    apply app_nil_r.
Qed.

Lemma inits_other c l : is_init c = false -> inits (l ++ [c]) = inits l.
Proof.
  intros H. rewrite inits_app. destruct c; try discriminate; simpl; lia.
Qed.

(** *** Declarations *)

Lemma declared_once_same s s' :
  declared (xct_solver s') = declared (xct_solver s) ->
  _varmap s' = _varmap s ->
  declared_once_kept s s'.
Proof. unfold declared_once_kept, declared_once. now intros -> ->. Qed.

Lemma declared_once_first n lb ub s :
  _varmap s !! n = None ->
  declared_once s ->
  declared_once
    (set_varmap (<[n := n]> (_varmap s)) (xct_emit (AddVariable n lb ub) s)).
Proof.
  intros Hn [Hnd Hiff]. unfold declared_once. simpl.
  rewrite declared_app. simpl. split.
  - apply NoDup_app. repeat split; auto.
    + intros m Hm Hin. apply list_elem_of_singleton in Hin as ->.
      apply Hiff in Hm. rewrite Hn in Hm. destruct Hm as [? ?]. discriminate.
    + apply NoDup_singleton.
  - intros m. rewrite elem_of_app, list_elem_of_singleton, Hiff.
    destruct (decide (m = n)) as [->|Hne].
    + rewrite lookup_insert_eq. split; eauto.
    + rewrite lookup_insert_ne by congruence. tauto.
Qed.

Lemma solver_var_declared_once v : preserves declared_once_kept (solver_var v).
Proof.
  induction v as [n|n lb ub|n lb ub|bv IH]; intros s Hs.
  4: { cbn [solver_var]. unfold bind. specialize (IH s Hs).
       destruct (solver_var bv s) as [[h|e|] s1]; exact IH. }
  all: cbn [solver_var var_name is_BoolVarImpl is_IntVarImpl];
    unfold bind at 1; unfold gets;
    destruct (_varmap s !! n) as [h|] eqn:E; [exact Hs|].
  - unfold bind, modify, ret. simpl. now apply declared_once_first.
  - destruct (threshold <? _); unfold bind, modify, ret; simpl;
      now apply declared_once_first.
  - exact Hs.
Qed.

Lemma declared_once_kept_refl s : declared_once_kept s s.
Proof. now intros H. Qed.

Lemma declared_once_kept_trans s1 s2 s3 :
  declared_once_kept s1 s2 -> declared_once_kept s2 s3 ->
  declared_once_kept s1 s3.
Proof. unfold declared_once_kept. auto. Qed.

Lemma declared_once_emit c s :
  is_decl c = false -> declared_once_kept s (xct_emit c s).
Proof.
  intros Hc. apply declared_once_same; auto. simpl. now apply declared_other.
Qed.

(** *** Methods that make no call but primitives and options *)

Section Respected.

Context {TR : Transformations} {EN : Engine}.
Context (R : CPM_exact -> CPM_exact -> Prop).
Hypothesis R_refl : forall s, R s s.
Hypothesis R_trans : forall s1 s2 s3, R s1 s2 -> R s2 s3 -> R s1 s3.
Hypothesis R_declare : forall v, preserves R (solver_var v).
Hypothesis R_primitive :
  forall c s, is_primitive c = true -> is_decl c = false -> R s (xct_emit c s).
Hypothesis R_call :
  forall c s, is_primitive c = false -> is_init c = false -> R s (xct_emit c s).
Hypothesis R_init : preserves R init_if_no_objective.
Hypothesis R_user_vars : forall u s, R s (set_user_vars u s).
Hypothesis R_objective_value : forall o s, R s (set_objective_value_ o s).
Hypothesis R_status : forall st s, R s (set_cpm_status st s).
Hypothesis R_var_value : forall m s, R s (set_var_value m s).

Lemma _add_xct_constr_respected cs vs uselb lb useub ub :
  preserves R (_add_xct_constr cs vs uselb lb useub ub).
Proof. unfold _add_xct_constr. pres. Qed.

Lemma _add_xct_reif_right_respected h cs vs r :
  preserves R (_add_xct_reif_right h cs vs r).
Proof. unfold _add_xct_reif_right. pres. Qed.

Lemma _add_xct_reif_left_respected h cs vs r :
  preserves R (_add_xct_reif_left h cs vs r).
Proof. unfold _add_xct_reif_left. pres. Qed.

Lemma __add___respected fuel e : preserves R (__add__ fuel e).
Proof.
  apply __add___preserves; auto.
  - apply _add_xct_constr_respected.
  - apply _add_xct_reif_right_respected.
  - apply _add_xct_reif_left_respected.
Qed.

Lemma _make_numexpr_respected lhs rhs : preserves R (_make_numexpr lhs rhs).
Proof. now apply _make_numexpr_preserves. Qed.

Lemma getSolAndObj_respected : preserves R getSolAndObj.
Proof. now apply getSolAndObj_preserves. Qed.

Lemma solve_respected t a kw : preserves R (solve t a kw).
Proof.
  pose proof getSolAndObj_respected.
  unfold solve, set_time_limit, set_options, set_exitstatus. pres.
Qed.

Lemma run_while_in_progress_respected fuel :
  preserves R (run_while_in_progress fuel).
Proof. induction fuel as [|fuel IH]; simpl; pres. Qed.

Lemma solveAll_loop_respected fuel limit found :
  preserves R (solveAll_loop fuel limit found).
Proof.
  pose proof getSolAndObj_respected. pose proof run_while_in_progress_respected.
  revert found. induction fuel as [|fuel IH]; intros found; simpl; pres.
Qed.

Lemma solveAll_respected fuel t limit kw :
  preserves R (solveAll fuel t limit kw).
Proof.
  pose proof solveAll_loop_respected.
  unfold solveAll, set_time_limit, set_options. pres.
Qed.

End Respected.

(** *** Initialisations *)

Lemma same_inits_refl s : same_inits s s.
Proof. now split. Qed.

Lemma same_inits_trans s1 s2 s3 :
  same_inits s1 s2 -> same_inits s2 s3 -> same_inits s1 s3.
Proof. intros [A1 B1] [A2 B2]. split; congruence. Qed.

Lemma same_inits_emit c s : is_init c = false -> same_inits s (xct_emit c s).
Proof. intros Hc. split; auto. simpl. now apply inits_other. Qed.

Lemma same_inits_primitive c s :
  is_primitive c = true -> same_inits s (xct_emit c s).
Proof. intros Hc. apply same_inits_emit. now destruct c. Qed.

Lemma solver_var_same_inits v : preserves same_inits (solver_var v).
Proof.
  pose proof same_inits_refl. pose proof same_inits_trans.
  assert (forall n lb ub s, same_inits s (xct_emit (AddVariable n lb ub) s))
    by (intros; now apply same_inits_emit).
  assert (forall m s, same_inits s (set_varmap m s)) by (intros; now split).
  induction v; simpl; pres.
Qed.

Lemma same_inits_add {TR : Transformations} fuel e :
  preserves same_inits (__add__ fuel e).
Proof.
  apply __add___respected.
  - apply same_inits_refl.
  - apply same_inits_trans.
  - apply solver_var_same_inits.
  - intros c s Hc _. now apply same_inits_primitive.
  - now split.
Qed.

Lemma same_inits_normal lhs rhs : preserves same_inits (_make_numexpr lhs rhs).
Proof.
  apply _make_numexpr_preserves.
  - apply same_inits_refl.
  - apply same_inits_trans.
  - apply solver_var_same_inits.
Qed.

(** [objective] on a session without objective: the session is marked
    whatever happens next, and the engine is initialised exactly when
    the call returns. *)
Lemma objective_run {TR : Transformations} fuel e minimize s :
  has_objective s = false ->
  let run := objective fuel e minimize s in
  has_objective (snd run) = true
  /\ inits (xct_solver (snd run))
     = match fst run with
       | Ret _ => S (inits (xct_solver s))
       | _ => inits (xct_solver s)
       end.
Proof.
  intros Hf. cbv zeta.
  destruct (objective fuel e minimize s) as [o s'] eqn:E. cbn [fst snd].
  unfold objective in E.
  unfold bind at 1 in E. unfold gets in E. rewrite Hf in E.
  unfold bind at 1 in E. simpl assert in E. unfold ret at 1 in E.
  unfold bind at 1 in E. unfold modify at 1 in E.
  unfold bind at 1 in E. unfold modify at 1 in E.
  set (s1 := set_objective_minimize minimize (set_has_objective true s)) in E.
  assert (H1 : has_objective s1 = true
               /\ inits (xct_solver s1) = inits (xct_solver s)) by now split.
  clearbody s1. destruct H1 as [F1 I1].
  destruct (flatten_objective e) as [flat_obj flat_cons].
  unfold bind at 1 in E.
  pose proof (same_inits_add fuel (EList flat_cons) s1) as [F2 I2].
  destruct (__add__ fuel (EList flat_cons) s1) as [[[]|x|] s2]; simpl in F2, I2;
    try (simplify_eq; split; congruence).
  unfold bind at 1 in E. unfold modify at 1 in E.
  set (s3 := set_user_vars _ s2) in E.
  assert (H3 : has_objective s3 = true
               /\ inits (xct_solver s3) = inits (xct_solver s))
    by (split; simpl; congruence).
  clearbody s3. destruct H3 as [F3 I3].
  unfold bind at 1 in E.
  pose proof (same_inits_normal flat_obj (Num 0) s3) as [F4 I4].
  destruct (_make_numexpr flat_obj (Num 0) s3) as [[[[cs vs] r]|x|] s4];
    simpl in F4, I4; try (simplify_eq; split; congruence).
  unfold bind, gets, modify in E. simplify_eq. split; [simpl; congruence|].
  cbn [xct_solver xct_emit]. rewrite inits_app. simpl. lia.
Qed.

Lemma initialised_once_same s s' :
  same_inits s s' -> initialised_once_kept s s'.
Proof. intros [F I]. unfold initialised_once_kept, initialised_once. now rewrite F, I. Qed.

Lemma initialised_once_kept_trans s1 s2 s3 :
  initialised_once_kept s1 s2 -> initialised_once_kept s2 s3 ->
  initialised_once_kept s1 s3.
Proof. unfold initialised_once_kept. auto. Qed.

Lemma init_if_no_objective_once : preserves initialised_once_kept init_if_no_objective.
Proof.
  intros s. unfold init_if_no_objective, initialised_once_kept, initialised_once.
  unfold bind at 1. unfold gets. destruct (has_objective s) eqn:F;
    unfold bind, modify, ret; simpl.
  - rewrite F. simpl. rewrite ?F. auto.
  - rewrite F. simpl. intros E. rewrite inits_app, E. simpl. lia.
Qed.

Section Reached.

Context {TR : Transformations} {EN : Engine}.

Lemma step_initialised_once s s' : step s s' -> initialised_once_kept s s'.
Proof.
  assert (Hrefl : forall s0, initialised_once_kept s0 s0) by (now intros s0 H).
  assert (Hdecl : forall v, preserves initialised_once_kept (solver_var v))
    by (intros v s0; apply initialised_once_same, solver_var_same_inits).
  assert (Hprim : forall c s0, is_primitive c = true -> is_decl c = false ->
                    initialised_once_kept s0 (xct_emit c s0))
    by (intros c s0 Hc _; now apply initialised_once_same, same_inits_primitive).
  assert (Hcall : forall c s0, is_primitive c = false -> is_init c = false ->
                    initialised_once_kept s0 (xct_emit c s0))
    by (intros c s0 _ Hc; now apply initialised_once_same, same_inits_emit).
  assert (Huv : forall u s0, initialised_once_kept s0 (set_user_vars u s0))
    by (intros; now apply initialised_once_same).
  assert (Hov : forall o s0, initialised_once_kept s0 (set_objective_value_ o s0))
    by (intros; now apply initialised_once_same).
  assert (Hst : forall st s0, initialised_once_kept s0 (set_cpm_status st s0))
    by (intros; now apply initialised_once_same).
  assert (Hvv : forall m s0, initialised_once_kept s0 (set_var_value m s0))
    by (intros; now apply initialised_once_same).
  pose proof initialised_once_kept_trans as Htrans.
  pose proof init_if_no_objective_once as Hinit.
  destruct 1.
  - exact (__add___respected initialised_once_kept Hrefl Htrans Hdecl Hprim Huv
             fuel e s).
  - intros Hs. destruct (has_objective s) eqn:F.
    + now rewrite (ExactCorrect.objective_refused fuel e minimize s F).
    + destruct (objective_run fuel e minimize s F) as [F' I'].
      unfold initialised_once in *. rewrite F in Hs. rewrite F', I', Hs.
      destruct (fst _); lia.
  - exact (solve_respected initialised_once_kept Hrefl Htrans Hdecl Hcall Hinit
             Hov Hst Hvv t a kw s).
  - exact (solveAll_respected initialised_once_kept Hrefl Htrans Hdecl Hcall
             Hinit Hov Hvv fuel t limit kw s).
  - apply Hdecl.
  - exact (getSolAndObj_respected initialised_once_kept Hrefl Htrans Hdecl Hov
             Hvv s).
Qed.

Lemma steps_initialised_once s s' :
  rtc step s s' -> initialised_once_kept s s'.
Proof.
  induction 1 as [|s1 s2 s3 H12 _ IH]; [now intros H|].
  intros H1. apply IH. now apply (step_initialised_once s1 s2).
Qed.

Lemma marked_kept_trans s1 s2 s3 :
  marked_kept s1 s2 -> marked_kept s2 s3 -> marked_kept s1 s3.
Proof.
  intros H12 H23 F. pose proof (H12 F) as H.
  apply (same_inits_trans _ _ _ H), H23. destruct H as [-> _]. exact F.
Qed.

Lemma step_marked_kept s s' : step s s' -> marked_kept s s'.
Proof.
  assert (Hrefl : forall s0, marked_kept s0 s0)
    by (intros s0 _; apply same_inits_refl).
  assert (Hsame : forall s0 s1, same_inits s0 s1 -> marked_kept s0 s1)
    by (intros s0 s1 H _; exact H).
  assert (Hdecl : forall v, preserves marked_kept (solver_var v))
    by (intros v s0; apply Hsame, solver_var_same_inits).
  assert (Hcall : forall c s0, is_primitive c = false -> is_init c = false ->
                    marked_kept s0 (xct_emit c s0))
    by (intros c s0 _ Hc; now apply Hsame, same_inits_emit).
  assert (Hov : forall o s0, marked_kept s0 (set_objective_value_ o s0))
    by (intros; now apply Hsame).
  assert (Hst : forall st s0, marked_kept s0 (set_cpm_status st s0))
    by (intros; now apply Hsame).
  assert (Hvv : forall m s0, marked_kept s0 (set_var_value m s0))
    by (intros; now apply Hsame).
  assert (Hinit : preserves marked_kept init_if_no_objective).
  { intros s0 F. unfold init_if_no_objective, bind, gets. rewrite F.
    apply same_inits_refl. }
  pose proof marked_kept_trans as Htrans.
  destruct 1.
  - apply Hsame, same_inits_add.
  - intros F. rewrite (ExactCorrect.objective_refused fuel e minimize s F).
    apply same_inits_refl.
  - exact (solve_respected marked_kept Hrefl Htrans Hdecl Hcall Hinit
             Hov Hst Hvv t a kw s).
  - exact (solveAll_respected marked_kept Hrefl Htrans Hdecl Hcall
             Hinit Hov Hvv fuel t limit kw s).
  - apply Hdecl.
  - exact (getSolAndObj_respected marked_kept Hrefl Htrans Hdecl Hov Hvv s).
Qed.

Lemma steps_marked_kept s s' : rtc step s s' -> marked_kept s s'.
Proof.
  induction 1 as [|s1 s2 s3 H12 _ IH]; [intros _; apply same_inits_refl|].
  eapply marked_kept_trans; [|exact IH]. now apply step_marked_kept.
Qed.

(** X8. In every session reached from a fresh one, no variable has been
    declared to the engine twice, and the declared variables are
    exactly those that have a handle in the cache. *)
Theorem variables_are_declared_once s :
  rtc step init_session s -> declared_once s.
Proof.
  intros H.
  assert (Hinit : declared_once init_session).
  { split; [constructor|]. intros n. simpl. rewrite lookup_empty.
    split; [intros Hn; now apply elem_of_nil in Hn | intros [? ?]; discriminate]. }
  revert Hinit.
  assert (Hp : forall c s0, is_primitive c = true -> is_decl c = false ->
                 declared_once_kept s0 (xct_emit c s0))
    by (intros c s0 _ Hc; now apply declared_once_emit).
  refine (steps_respect declared_once_kept declared_once_kept_refl
            declared_once_kept_trans solver_var_declared_once
            _ _ _ _ _ _ _ _ _ _ init_session s H).
  - apply _add_xct_constr_respected; auto using declared_once_kept_refl.
  - apply _add_xct_reif_right_respected; auto using declared_once_kept_refl.
  - apply _add_xct_reif_left_respected; auto using declared_once_kept_refl.
  - intros c s0 Hc. apply declared_once_emit. now destruct c.
  - intros u s0. now apply declared_once_same.
  - intros o s0. now apply declared_once_same.
  - intros st s0. now apply declared_once_same.
  - intros m s0. now apply declared_once_same.
  - intros b s0. now apply declared_once_same.
  - intros s0. now apply declared_once_same.
Qed.

(** X9. In every session reached from a fresh one, the engine has been
    initialised with an objective at most once, and not at all while
    the session is not marked as having an objective. *)
Theorem engine_is_initialised_at_most_once s :
  rtc step init_session s -> initialised_once s.
Proof.
  intros H. apply (steps_initialised_once init_session s H). reflexivity.
Qed.

(** X10. A call of [objective] that fails after its guard has used up
    the objective of the session: the session is marked as having an
    objective although the engine has not been initialised by the call,
    and in every later session [objective] raises [AssertionError] and
    the engine has still not been initialised, by [solve] or
    [solveAll] either. *)
Theorem failed_objective_uses_the_slot fuel e minimize s :
  has_objective s = false ->
  fst (objective fuel e minimize s) <> Ret tt ->
  let s' := snd (objective fuel e minimize s) in
  has_objective s' = true
  /\ inits (xct_solver s') = inits (xct_solver s)
  /\ forall s2, rtc step s' s2 ->
       inits (xct_solver s2) = inits (xct_solver s)
       /\ forall fuel2 e2 minimize2,
            objective fuel2 e2 minimize2 s2 = (Raise AssertionError, s2).
Proof.
  intros F Hfail s'. destruct (objective_run fuel e minimize s F) as [F' I'].
  fold s' in F', I'.
  assert (I2 : inits (xct_solver s') = inits (xct_solver s)).
  { rewrite I'. destruct (fst (objective fuel e minimize s)) as [[]| |]; auto.
    now destruct Hfail. }
  repeat split; auto.
  - destruct (steps_marked_kept s' s2 H F') as [_ ->]. exact I2.
  - intros fuel2 e2 minimize2. apply ExactCorrect.objective_refused.
    destruct (steps_marked_kept s' s2 H F') as [-> _]. exact F'.
Qed.

(** X16. From a session reached from a fresh one on, no method call
    replaces or removes a handle that is in the cache. *)
Theorem stored_handles_are_kept s s' n h :
  rtc step init_session s ->
  rtc step s s' ->
  _varmap s !! n = Some h ->
  _varmap s' !! n = Some h.
Proof.
  intros Hs Hstep Hn.
  assert (Hok : varmap_ok s).
  { refine (steps_respect_writes (fun s0 s1 => varmap_ok s0 -> varmap_ok s1)
              _ _ _ _ _ _ _ _ _ _ init_session s Hs _); auto.
    - intros k s0. apply ExactCompile.varmap_ok_insert.
    - intros k h0 Hk. simpl in Hk. now rewrite lookup_empty in Hk. }
  assert (Hkept : handles_kept s s').
  { refine (steps_respect_writes handles_kept _ _ _ _ _ _ _ _ _ _ s s' Hstep);
      try (intros; intros ?; now split).
    - intros s1 s2 s3 H12 H23 H1. destruct (H12 H1) as [H2 K12].
      destruct (H23 H2) as [H3 K23]. split; auto.
    - intros k s0 H0. split; [now apply ExactCompile.varmap_ok_insert|].
      intros m h0 Hm. simpl.
      destruct (decide (k = m)) as [->|Hne].
      + rewrite lookup_insert_eq. f_equal. symmetry. exact (H0 m h0 Hm).
      + now rewrite lookup_insert_ne. }
  now apply (Hkept Hok).
Qed.

End Reached.

Lemma variables_are_declared_once_witness :
  let s := snd (@__add__ Demo.plain 1
                  (EList [Comparison "<=" (Var Demo.x) (Var Demo.y);
                          Comparison ">=" (Var Demo.x) (Num 1)])
                  init_session) in
  declared (xct_solver s) = ["y"; "x"] /\ declared_once s.
Proof.
  split; [reflexivity|].
  apply (@variables_are_declared_once Demo.plain Demo.undecided).
  apply rtc_once, (@step_add Demo.plain Demo.undecided).
Defined.

Lemma engine_is_initialised_at_most_once_witness :
  let s1 := snd (@objective Demo.plain 1 (Var Demo.x) true init_session) in
  let s2 := snd (@solve Demo.undecided None None [] s1) in
  inits (xct_solver s2) = 1%nat /\ initialised_once s2.
Proof.
  split; [reflexivity|].
  apply (@engine_is_initialised_at_most_once Demo.plain Demo.undecided).
  eapply rtc_l; [apply (@step_objective Demo.plain Demo.undecided)|].
  apply rtc_once, (@step_solve Demo.plain Demo.undecided).
Defined.

Lemma failed_objective_uses_the_slot_witness :
  let product := Operator "mul" [Var Demo.x; Var Demo.y] in
  let s' := snd (@objective Demo.plain 1 product true init_session) in
  fst (@objective Demo.plain 1 product true init_session)
  = Raise NotImplementedError
  /\ has_objective s' = true
  /\ inits (xct_solver (snd (@solve Demo.undecided None None [] s'))) = 0%nat.
Proof.
  split; [reflexivity|].
  destruct (@failed_objective_uses_the_slot Demo.plain Demo.undecided 1
              (Operator "mul" [Var Demo.x; Var Demo.y]) true init_session
              eq_refl) as (F & _ & Hlater).
  - discriminate.
  - split; [exact F|].
    apply (Hlater _ (rtc_once _ _ (@step_solve Demo.plain Demo.undecided
                                     None None [] _))).
Defined.

Lemma stored_handles_are_kept_witness :
  let s := snd (solver_var Demo.x init_session) in
  let s' := snd (@solve Demo.undecided None None [] s) in
  _varmap s' !! "x" = Some "x".
Proof.
  apply (@stored_handles_are_kept Demo.plain Demo.undecided
           (snd (solver_var Demo.x init_session))).
  - apply rtc_once, (@step_solver_var Demo.plain Demo.undecided).
  - apply rtc_once, (@step_solve Demo.plain Demo.undecided).
  - reflexivity.
Defined.

End ExactSession.

(** ** The Exact interface: what [solve] and [solveAll] report *)

Module ExactSolve.

Import Exact Meaning ExactFacts.

(** How often the last solution has been invalidated. *)
Fixpoint invalidated (log : list xct_call) : nat :=
  match log with
  | [] => 0
  | InvalidateLastSol :: log' => S (invalidated log')
  | _ :: log' => invalidated log'
  end.

Definition is_invalidate (c : xct_call) : bool :=
  match c with InvalidateLastSol => true | _ => false end.

(** The calls that make the engine search. *)
Definition is_run (c : xct_call) : bool :=
  match c with RunFull | RunOnce => true | _ => false end.

(** The value stored for a variable when the engine gives it [n]: a
    Python [bool] for a Boolean variable, the integer otherwise. *)
Definition stored_as (v : cpm_var) (n : Z) : pyval :=
  if is_BoolVarImpl v then VBool (negb (n =? 0)) else VInt n.

(** The variables [solver_var] has a handle for: Boolean and integer
    variables, not their negated views. *)
Definition supported (v : cpm_var) : bool :=
  match v with BoolVar _ | IntVar _ _ _ => true | _ => false end.

(** The exit status [solve] gives to a status code of the engine. *)
Definition translated (status : Z) (has : bool) : ExitStatus :=
  if status =? 0 then (if has then OPTIMAL else UNSATISFIABLE) else UNKNOWN.

(** An engine that finds two solutions and then proves that there is
    no other. *)
Definition two_solutions : Engine :=
  {| xct_runFull := fun _ => 0;
     xct_runOnce := fun log => if (invalidated log <? 2)%nat then 1 else 0;
     xct_hasSolution := fun _ => true;
     xct_getLastSolutionFor := fun _ handles => map (fun _ => 1) handles;
     xct_getObjectiveBounds := fun _ => (0, 0) |}.

(** The engine has invalidated as many solutions as before. *)
Definition same_invalidated (s s' : CPM_exact) : Prop :=
  invalidated (xct_solver s') = invalidated (xct_solver s).

Lemma invalidated_app l1 l2 :
  invalidated (l1 ++ l2) = (invalidated l1 + invalidated l2)%nat.
Proof.
  induction l1 as [|c l1 IH]; simpl; auto. destruct c; simpl; now rewrite ?IH.
Qed.

(** An attribute that the declarations and the extraction do not write
    is the same after [getSolAndObj]. *)
Section Kept.

Context {EN : Engine} {X : Type} (f : CPM_exact -> X).
Hypothesis f_decl : forall n lb ub s, f (xct_emit (AddVariable n lb ub) s) = f s.
Hypothesis f_varmap : forall m s, f (set_varmap m s) = f s.
Hypothesis f_objective_value : forall o s, f (set_objective_value_ o s) = f s.
Hypothesis f_var_value : forall m s, f (set_var_value m s) = f s.

Lemma solver_var_keeps v s : f (snd (solver_var v s)) = f s.
Proof.
  assert (H : preserves (fun s0 s1 => f s1 = f s0) (solver_var v)).
  { assert (forall s0, f s0 = f s0) by auto.
    assert (forall s1 s2 s3, f s2 = f s1 -> f s3 = f s2 -> f s3 = f s1)
      by (intros; congruence).
    induction v; simpl; pres. }
  apply H.
Qed.

Lemma getSolAndObj_keeps s : f (snd (getSolAndObj s)) = f s.
Proof.
  apply (getSolAndObj_preserves (fun s0 s1 => f s1 = f s0)); auto.
  - intros; congruence.
  - intros v s0. apply solver_var_keeps.
Qed.

End Kept.

Section Reports.

Context {EN : Engine}.

(** [getSolAndObj] returns whether the engine has a solution. *)
Lemma getSolAndObj_result s b s' :
  getSolAndObj s = (Ret b, s') -> b = xct_hasSolution (xct_solver s).
Proof.
  unfold getSolAndObj. unfold bind at 1. unfold gets at 1.
  destruct (xct_hasSolution (xct_solver s)); simpl negb; cbv iota.
  - intros H.
    repeat (apply bind_inv in H; destruct H as (? & ? & _ & H)).
    unfold ret in H. congruence.
  - intros H. unfold bind, modify, ret in H. simpl in H. congruence.
Qed.

(** X12. When [solve] returns, it returns whether the engine has a
    solution, the engine's status code was 0 or 2, and the exit status
    is OPTIMAL for code 0 with a solution, UNSATISFIABLE for code 0
    without one and UNKNOWN for code 2, with or without a solution;
    the runtime is reported as 0. *)
Theorem solve_outcome t kw s b s' :
  solve t None kw s = (Ret b, s') ->
  let sp := StatusTranslation.flat_prepared t kw s in
  let status := xct_runFull (xct_solver sp) in
  let has := xct_hasSolution (xct_solver sp ++ [RunFull]) in
  b = has
  /\ (status = 0 \/ status = 2)
  /\ cpm_status s' = {| exitstatus := translated status has; runtime := 0 |}.
Proof.
  intros H sp status has.
  rewrite StatusTranslation.flat_solve_run in H. fold sp status in H.
  change (xct_solver (StatusTranslation.flat_ran sp))
    with (xct_solver sp ++ [RunFull]) in H. fold has in H.
  unfold translated.
  assert (Hk : forall e,
             getSolAndObj (set_exitstatus e (StatusTranslation.flat_ran sp))
             = (Ret b, s') ->
             b = has /\ cpm_status s' = {| exitstatus := e; runtime := 0 |}).
  { intros e He. split; [exact (getSolAndObj_result _ _ _ He)|].
    pose proof (getSolAndObj_keeps cpm_status
                  (fun _ _ _ _ => eq_refl) (fun _ _ => eq_refl)
                  (fun _ _ => eq_refl) (fun _ _ => eq_refl)
                  (set_exitstatus e (StatusTranslation.flat_ran sp))) as Hs.
    rewrite He in Hs. exact Hs. }
  destruct (Z.eqb_spec status 0) as [E0|N0].
  - destruct (Hk _ H) as [Hb Hs]. auto.
  - destruct (Z.eqb_spec status 2) as [E2|N2]; [|discriminate].
    destruct (Hk _ H) as [Hb Hs]. auto.
Qed.

(** X13. [solve] has no assumptions: given a list of them, empty or
    not, it raises [AssertionError] before the engine is run, after it
    has initialised an engine without objective, marked the session
    and set the options. *)
Theorem solve_refuses_assumptions t a kw s :
  let s' := StatusTranslation.flat_prepared t kw s in
  solve t (Some a) kw s = (Raise AssertionError, s')
  /\ has_objective s' = true
  /\ cpm_status s' = cpm_status s
  /\ exists calls,
       xct_solver s' = xct_solver s ++ calls
       /\ Forall (fun c => is_run c = false) calls.
Proof.
  intros s'. split; [|split; [|split]].
  - unfold solve, init_if_no_objective, set_time_limit.
    unfold bind at 1. unfold bind at 1. unfold gets at 1.
    subst s'. unfold StatusTranslation.flat_prepared.
    destruct (has_objective s); simpl negb; cbv iota;
      destruct t; unfold bind, modify, ret; simpl;
      now rewrite StatusTranslation.flat_set_options_run.
  - subst s'. unfold StatusTranslation.flat_prepared.
    match goal with |- has_objective (fold_left ?f kw ?s0) = true =>
      assert (Hfold : forall s1, has_objective (fold_left f kw s1)
                                 = has_objective s1)
        by (induction kw as [|kv kw IH]; intros s1; simpl; auto; now rewrite IH)
    end.
    rewrite Hfold. destruct (has_objective s) eqn:F, t; simpl; auto.
  - subst s'. unfold StatusTranslation.flat_prepared.
    match goal with |- cpm_status (fold_left ?f kw ?s0) = _ =>
      assert (Hfold : forall s1, cpm_status (fold_left f kw s1) = cpm_status s1)
        by (induction kw as [|kv kw IH]; intros s1; simpl; auto; now rewrite IH)
    end.
    rewrite Hfold. destruct (has_objective s), t; reflexivity.
  - subst s'. unfold StatusTranslation.flat_prepared.
    match goal with |- context [fold_left ?f kw _] =>
      assert (Hfold : forall s1, exists calls,
                 xct_solver (fold_left f kw s1) = xct_solver s1 ++ calls
                 /\ Forall (fun c => is_run c = false) calls)
    end.
    { induction kw as [|kv kw IH]; intros s1; simpl.
      - exists []. split; [now rewrite app_nil_r | constructor].
      - destruct (IH (xct_emit (SetOption kv.1 kv.2) s1)) as (calls & E & F).
        exists (SetOption kv.1 kv.2 :: calls). split.
        + rewrite E. simpl. now rewrite <- app_assoc.
        + constructor; auto. }
    match goal with |- context [fold_left _ kw ?s0] =>
      destruct (Hfold s0) as (calls & E & F)
    end.
    rewrite E.
    destruct (has_objective s), t; simpl; rewrite <- ?app_assoc; simpl;
      eexists; (split; [reflexivity|]); repeat constructor; auto.
Qed.

(** The loop that stores the engine's values. *)
Lemma fill_values_spec vals vars : forall k s s',
  fill_values vals k vars s = (Ret tt, s') ->
  xct_solver s' = xct_solver s
  /\ (forall name, name ∉ map var_name vars ->
        var_value s' !! name = var_value s !! name)
  /\ (NoDup (map var_name vars) ->
      forall j v, vars !! j = Some v ->
        exists n, vals !! (k + j)%nat = Some n
                  /\ var_value s' !! var_name v = Some (stored_as v n)).
Proof.
  induction vars as [|w vars IH]; intros k s s' H; simpl in H.
  - unfold ret in H. simplify_eq. repeat split; auto.
    intros _ j v Hj. discriminate.
  - destruct (vals !! k) as [n|] eqn:E; [|discriminate].
    unfold bind at 1 in H. unfold modify at 1 in H.
    destruct (IH _ _ _ H) as (Hlog & Hout & Hin). clear IH.
    split; [exact Hlog|]. split.
    + intros name Hname. simpl in Hname.
      apply not_elem_of_cons in Hname as [Hne Hname].
      rewrite (Hout _ Hname). simpl. apply lookup_insert_ne. congruence.
    + intros Hnd j v Hj. simpl in Hnd. apply NoDup_cons in Hnd as [Hw Hnd].
      destruct j as [|j]; simpl in Hj.
      * simplify_eq. exists n. rewrite Nat.add_0_r. split; auto.
        rewrite (Hout _ Hw). simpl. apply lookup_insert_eq.
      * destruct (Hin Hnd j v Hj) as (m & Hm & Hv). exists m.
        split; auto. now rewrite <- Nat.add_succ_comm.
Qed.

(** The handles of the user variables. *)
Lemma map_M_solver_var_spec vars : forall s hs s',
  varmap_ok s ->
  map_M solver_var vars s = (Ret hs, s') ->
  hs = map var_name vars /\ var_value s' = var_value s.
Proof.
  induction vars as [|w vars IH]; intros s hs s' Hok H; simpl in H.
  - unfold ret in H. now simplify_eq.
  - apply bind_inv in H. destruct H as (h & s1 & Hh & H).
    apply bind_inv in H. destruct H as (hs' & s2 & Hhs & H).
    unfold ret in H. simplify_eq.
    destruct (ExactCompile.solver_var_ret w s h s1 Hok Hh) as (-> & _ & Hok1).
    destruct (IH s1 hs' s' Hok1 Hhs) as [-> Hv]. split; auto.
    rewrite Hv.
    pose proof (solver_var_keeps var_value
                  (fun _ _ _ _ => eq_refl) (fun _ _ => eq_refl) w s) as Hk.
    now rewrite Hh in Hk.
Qed.

(** X14. When [getSolAndObj] finds a solution, every user variable gets
    the value that the engine reports at its position in the set of
    user variables: as a Python [bool] (true unless the value is 0)
    for a Boolean variable, as the integer itself otherwise. *)
Theorem solution_values_by_kind s s' :
  varmap_ok s ->
  NoDup (map var_name (user_vars s)) ->
  getSolAndObj s = (Ret true, s') ->
  let vals :=
    xct_getLastSolutionFor (xct_solver s') (map var_name (user_vars s)) in
  forall i v,
    user_vars s !! i = Some v ->
    exists n,
      vals !! i = Some n
      /\ var_value s' !! var_name v = Some (stored_as v n).
Proof.
  intros Hok Hnd H vals i v Hi.
  unfold getSolAndObj in H. unfold bind at 1 in H. unfold gets at 1 in H.
  destruct (xct_hasSolution (xct_solver s)); simpl negb in H; cbv iota in H.
  2: { unfold bind, modify, ret in H. simpl in H. discriminate. }
  apply bind_inv in H. destruct H as (vars & s0 & Hvars & H).
  unfold gets in Hvars. injection Hvars as <- <-.
  apply bind_inv in H. destruct H as (handles & s1 & Hh & H).
  destruct (map_M_solver_var_spec _ _ _ _ Hok Hh) as [-> Hv1].
  apply bind_inv in H. destruct H as (exact_vals & s1' & Hvals & H).
  unfold gets in Hvals. injection Hvals as <- <-.
  apply bind_inv in H. destruct H as ([] & s2 & Hfill & H).
  destruct (fill_values_spec _ _ _ _ _ Hfill) as (Hlog & _ & Hin).
  destruct (Hin Hnd i v Hi) as (n & Hn & Hval). simpl in Hn.
  assert (Hs' : xct_solver s' = xct_solver s2 /\ var_value s' = var_value s2).
  { apply bind_inv in H. destruct H as (bounds & s3 & Hb & H).
    unfold gets in Hb. injection Hb as <- <-.
    apply bind_inv in H. destruct H as ([] & s3 & Hset & H).
    unfold modify in Hset. injection Hset as <-.
    apply bind_inv in H. destruct H as (minimize & s4 & Hm & H).
    unfold gets in Hm. injection Hm as <- <-.
    apply bind_inv in H. destruct H as ([] & s4 & Hneg & H).
    unfold ret in H. injection H as <-.
    destruct (negb _); unfold modify, ret in Hneg; injection Hneg as <-; auto. }
  destruct Hs' as [Hl' Hv']. exists n. split.
  - subst vals. now rewrite Hl', Hlog.
  - now rewrite Hv'.
Qed.

(** *** Enumeration *)

Lemma same_invalidated_emit c s :
  is_invalidate c = false -> same_invalidated s (xct_emit c s).
Proof.
  intros Hc. unfold same_invalidated. simpl. rewrite invalidated_app.
  destruct c; try discriminate; simpl; lia.
Qed.

Lemma run_while_in_progress_invalidates_nothing fuel :
  preserves same_invalidated (run_while_in_progress fuel).
Proof.
  assert (forall s, same_invalidated s s) by reflexivity.
  assert (forall s1 s2 s3, same_invalidated s1 s2 -> same_invalidated s2 s3 ->
            same_invalidated s1 s3)
    by (unfold same_invalidated; intros; congruence).
  pose proof same_invalidated_emit.
  induction fuel as [|fuel IH]; simpl; pres.
Qed.

Lemma getSolAndObj_invalidates_nothing :
  preserves same_invalidated getSolAndObj.
Proof.
  intros s.
  exact (getSolAndObj_keeps (fun s0 => invalidated (xct_solver s0))
           (fun n lb ub s0 => same_invalidated_emit (AddVariable n lb ub) s0 eq_refl)
           (fun _ _ => eq_refl) (fun _ _ => eq_refl) (fun _ _ => eq_refl) s).
Qed.

Lemma solveAll_prepare_invalidates_nothing t kw :
  preserves same_invalidated
    (init_if_no_objective ;;
     modify (xct_emit (SetOption "opt-boundupper" (py_str 0))) ;;
     set_time_limit t ;;
     set_options kw).
Proof.
  assert (forall s, same_invalidated s s) by reflexivity.
  assert (forall s1 s2 s3, same_invalidated s1 s2 -> same_invalidated s2 s3 ->
            same_invalidated s1 s3)
    by (unfold same_invalidated; intros; congruence).
  pose proof same_invalidated_emit.
  assert (forall s, same_invalidated s (set_has_objective true s))
    by reflexivity.
  unfold init_if_no_objective, set_time_limit, set_options. pres.
Qed.

Lemma solveAll_loop_counts fuel limit : forall found s n s',
  solveAll_loop fuel limit found s = (Ret n, s') ->
  found <= n
  /\ (forall L, limit = Some L -> n <= Z.max found L)
  /\ Z.of_nat (invalidated (xct_solver s'))
     = Z.of_nat (invalidated (xct_solver s)) + (n - found).
Proof.
  induction fuel as [|fuel IH]; intros found s n s' H.
  - simpl in H.
    destruct (match limit with None => true | Some L => found <? L end);
      [discriminate|].
    unfold ret in H. simplify_eq. repeat split; try lia; intros L _; lia.
  - cbn [solveAll_loop] in H.
    destruct (match limit with None => true | Some L => found <? L end) eqn:C.
    2: { unfold ret in H. simplify_eq. repeat split; try lia; intros L _; lia. }
    apply bind_inv in H. destruct H as (status & s1 & Hrun & H).
    pose proof (run_while_in_progress_invalidates_nothing (S fuel) s) as I1.
    rewrite Hrun in I1. unfold same_invalidated in I1. simpl in I1.
    apply bind_inv in H. destruct H as ([] & s1' & Ha & H).
    assert (s1' = s1) as ->
      by (destruct ((status =? 0) || (status =? 1));
          unfold assert, ret, raise in Ha; now simplify_eq).
    destruct (status =? 0).
    { unfold ret in H. simplify_eq. repeat split; try lia; intros L _; lia. }
    apply bind_inv in H. destruct H as (b & s2 & Hget & H).
    pose proof (getSolAndObj_invalidates_nothing s1) as I2.
    rewrite Hget in I2. unfold same_invalidated in I2. simpl in I2.
    apply bind_inv in H. destruct H as ([] & s3 & Hinv & H).
    unfold modify in Hinv. injection Hinv as <-.
    destruct (IH _ _ _ _ H) as (Hle & Hlim & Hcount). clear IH.
    cbn [xct_solver xct_emit] in Hcount. rewrite invalidated_app in Hcount.
    simpl in Hcount. split; [lia|]. split; [|lia].
    intros L ->. specialize (Hlim L eq_refl).
    apply Z.ltb_lt in C. lia.
Qed.

(** X15. When [solveAll] returns, the number it returns is the number
    of solutions it has read and invalidated in the engine: it is not
    negative, it does not exceed a solution limit that is given, and
    the engine has received exactly that many [invalidateLastSol]
    calls. *)
Theorem solveAll_counts_solutions fuel t limit kw s n s' :
  solveAll fuel t limit kw s = (Ret n, s') ->
  0 <= n
  /\ (forall L, limit = Some L -> n <= Z.max 0 L)
  /\ Z.of_nat (invalidated (xct_solver s'))
     = Z.of_nat (invalidated (xct_solver s)) + n.
Proof.
  intros H. unfold solveAll in H.
  assert (Hsplit : exists s0,
             same_invalidated s s0
             /\ solveAll_loop fuel limit 0 s0 = (Ret n, s')).
  { pose proof (solveAll_prepare_invalidates_nothing t kw s) as Hp.
    apply bind_inv in H. destruct H as ([] & s1 & H1 & H).
    apply bind_inv in H. destruct H as ([] & s2 & H2 & H).
    apply bind_inv in H. destruct H as ([] & s3 & H3 & H).
    apply bind_inv in H. destruct H as ([] & s4 & H4 & H).
    exists s4. split; [|exact H].
    rewrite (bind_run _ _ _ _ _ H1), (bind_run _ _ _ _ _ H2),
      (bind_run _ _ _ _ _ H3), H4 in Hp. exact Hp. }
  destruct Hsplit as (s0 & I0 & Hloop).
  destruct (solveAll_loop_counts _ _ _ _ _ _ Hloop) as (Hle & Hlim & Hcount).
  unfold same_invalidated in I0. repeat split; auto. lia.
Qed.

(** *** Enumeration that returns *)

Lemma solver_var_supported v s :
  supported v = true ->
  exists h s', solver_var v s = (Ret h, s')
               /\ user_vars s' = user_vars s
               /\ invalidated (xct_solver s') = invalidated (xct_solver s).
Proof.
  intros Hv.
  assert (Hdecl : forall n lb ub,
             invalidated (xct_solver s ++ [AddVariable n lb ub])
             = invalidated (xct_solver s))
    by (intros; rewrite invalidated_app; simpl; lia).
  destruct v as [n|n lb ub| |]; try discriminate;
    cbn [solver_var var_name is_BoolVarImpl is_IntVarImpl];
    unfold bind at 1; unfold gets;
    destruct (_varmap s !! n) as [h|]; try (now exists h, s).
  - unfold bind, modify, ret. simpl. do 2 eexists.
    repeat split; auto; apply Hdecl.
  - destruct (threshold <? _); unfold bind, modify, ret; simpl;
      do 2 eexists; repeat split; auto; apply Hdecl.
Qed.

Lemma handles_returned vars : forall s,
  Forall (fun v => supported v = true) vars ->
  exists hs s', map_M solver_var vars s = (Ret hs, s')
                /\ length hs = length vars
                /\ user_vars s' = user_vars s
                /\ invalidated (xct_solver s') = invalidated (xct_solver s).
Proof.
  induction vars as [|v vars IH]; intros s Hall.
  - exists [], s. now repeat split.
  - apply Forall_cons in Hall as [Hv Hall].
    destruct (solver_var_supported v s Hv) as (h & s1 & Hh & Hu1 & Hi1).
    destruct (IH s1 Hall) as (hs & s2 & Hhs & Hlen & Hu2 & Hi2).
    exists (h :: hs), s2. simpl.
    rewrite (bind_run _ _ _ _ _ Hh), (bind_run _ _ _ _ _ Hhs).
    repeat split; simpl; congruence.
Qed.

Lemma fill_values_returns vals vars : forall i s,
  (i + length vars <= length vals)%nat ->
  exists s', fill_values vals i vars s = (Ret tt, s')
             /\ user_vars s' = user_vars s
             /\ xct_solver s' = xct_solver s.
Proof.
  induction vars as [|v vars IH]; intros i s Hlen; simpl in *.
  - now exists s.
  - destruct (lookup_lt_is_Some_2 vals i ltac:(lia)) as [n Hn]. rewrite Hn.
    unfold bind at 1. unfold modify at 1.
    destruct (IH (S i) (set_var_value
                          (<[var_name v := if is_BoolVarImpl v
                                           then VBool (negb (n =? 0))
                                           else VInt n]> (var_value s)) s)
                ltac:(lia)) as (s' & Hs' & Hu & Hl).
    exists s'. auto.
Qed.

Lemma getSolAndObj_returns s :
  xct_hasSolution (xct_solver s) = true ->
  (forall log hs, length (xct_getLastSolutionFor log hs) = length hs) ->
  Forall (fun v => supported v = true) (user_vars s) ->
  exists s', getSolAndObj s = (Ret true, s')
             /\ user_vars s' = user_vars s
             /\ invalidated (xct_solver s') = invalidated (xct_solver s).
Proof.
  intros Hhas Hlen Hall.
  destruct (handles_returned (user_vars s) s Hall)
    as (hs & s1 & Hhs & Hl & Hu1 & Hi1).
  destruct (fill_values_returns (xct_getLastSolutionFor (xct_solver s1) hs)
              (user_vars s) 0 s1) as (s2 & Hfill & Hu2 & Hl2).
  { rewrite Hlen, Hl. lia. }
  unfold getSolAndObj, bind, gets. rewrite Hhas. cbn [negb].
  rewrite Hhs, Hfill.
  unfold modify. cbn [objective_minimize set_objective_value_].
  destruct (objective_minimize s2); cbn [negb]; unfold ret;
    eexists; (split; [reflexivity|]); simpl; split; congruence.
Qed.

Lemma solveAll_loop_returns (k : nat) limit :
  (forall log, xct_runOnce log = if (invalidated log <? k)%nat then 1 else 0) ->
  (forall log, xct_runOnce log = 1 -> xct_hasSolution (log ++ [RunOnce]) = true) ->
  (forall log hs, length (xct_getLastSolutionFor log hs) = length hs) ->
  forall fuel found s,
    let j := invalidated (xct_solver s) in
    (k - j < fuel)%nat ->
    (forall L, limit = Some L -> found + Z.of_nat (k - j) <= L) ->
    Forall (fun v => supported v = true) (user_vars s) ->
    exists s',
      solveAll_loop fuel limit found s = (Ret (found + Z.of_nat (k - j)), s').
Proof.
  intros Hrun Hhas Hlen.
  induction fuel as [|fuel IH]; intros found s j Hfuel Hlim Hall; [lia|].
  cbn [solveAll_loop].
  assert (Hstatus : run_while_in_progress (S fuel) s
                    = (Ret (if (j <? k)%nat then 1 else 0), xct_emit RunOnce s)).
  { cbn [run_while_in_progress]. unfold bind at 1. unfold gets at 1.
    unfold bind at 1. unfold modify at 1. rewrite Hrun. fold j.
    now destruct (j <? k)%nat. }
  destruct (Nat.ltb_spec j k) as [Hlt|Hge].
  - assert (Hcond : match limit with
                    | Some L => found <? L
                    | None => true
                    end = true).
    { destruct limit as [L|]; auto. specialize (Hlim L eq_refl).
      apply Z.ltb_lt. lia. }
    rewrite Hcond, (bind_run _ _ _ _ _ Hstatus).
    unfold bind at 1. simpl assert. unfold ret at 1.
    change (1 =? 0) with false. cbv iota.
    destruct (getSolAndObj_returns (xct_emit RunOnce s)) as (s2 & Hget & Hu & Hi).
    { simpl. apply Hhas. rewrite Hrun. fold j.
      now destruct (Nat.ltb_spec j k); [|lia]. }
    { exact Hlen. }
    { exact Hall. }
    rewrite (bind_run _ _ _ _ _ Hget). unfold bind at 1. unfold modify at 1.
    assert (Hj3 : invalidated (xct_solver (xct_emit InvalidateLastSol s2))
                  = S j).
    { simpl. rewrite invalidated_app, Hi. simpl. rewrite invalidated_app.
      simpl. fold j. lia. }
    destruct (IH (found + 1) (xct_emit InvalidateLastSol s2)) as [s' Hs'].
    + rewrite Hj3. lia.
    + intros L HL. rewrite Hj3. specialize (Hlim L HL). lia.
    + simpl. now rewrite Hu.
    + exists s'. rewrite Hs', Hj3. do 2 f_equal. lia.
  - assert (Hz : (k - j = 0)%nat) by lia. rewrite Hz, Z.add_0_r.
    destruct (match limit with Some L => found <? L | None => true end);
      [|now eexists].
    rewrite (bind_run _ _ _ _ _ Hstatus).
    unfold bind at 1. simpl assert. unfold ret at 1.
    change (0 =? 0) with true. cbv iota. now eexists.
Qed.

(** X24. [solveAll] enumerates all there is left.  For an engine that
    finds a solution until [k] of them have been invalidated and then
    reports that there is no other, that has a solution after it found
    one and gives a value for every handle it is asked about, and user
    variables that are Boolean or integer variables, [solveAll] with
    enough fuel and without a solution limit below that number returns
    the number of solutions not yet invalidated, [k - j] for a session
    in which [j] have been (and 0 when [j] is above [k]); in a session
    in which none has been invalidated it returns [k]. *)
Theorem solveAll_enumerates (k : nat) fuel t limit kw s :
  (forall log, xct_runOnce log = if (invalidated log <? k)%nat then 1 else 0) ->
  (forall log, xct_runOnce log = 1 -> xct_hasSolution (log ++ [RunOnce]) = true) ->
  (forall log hs, length (xct_getLastSolutionFor log hs) = length hs) ->
  let j := invalidated (xct_solver s) in
  (k - j < fuel)%nat ->
  (forall L, limit = Some L -> Z.of_nat (k - j) <= L) ->
  Forall (fun v => supported v = true) (user_vars s) ->
  exists s', solveAll fuel t limit kw s = (Ret (Z.of_nat (k - j)), s').
Proof.
  intros Hrun Hhas Hlen j Hfuel Hlim Hall. unfold solveAll.
  pose proof (solveAll_prepare_invalidates_nothing t kw s) as Hp.
  assert (Hprep : exists s0,
             (init_if_no_objective ;;
              modify (xct_emit (SetOption "opt-boundupper" (py_str 0))) ;;
              set_time_limit t ;; set_options kw) s = (Ret tt, s0)
             /\ user_vars s0 = user_vars s).
  { unfold init_if_no_objective, set_time_limit.
    unfold bind at 1. unfold bind at 1. unfold gets at 1.
    destruct (has_objective s); simpl negb; cbv iota;
      destruct t; unfold bind, modify, ret; simpl;
      rewrite StatusTranslation.flat_set_options_run;
      (eexists; split; [reflexivity|]);
      match goal with |- user_vars (fold_left ?f kw ?s1) = _ =>
        assert (Hfold : forall s2, user_vars (fold_left f kw s2) = user_vars s2)
          by (clear; induction kw as [|kv kw IH]; intros s2; simpl; auto;
              now rewrite IH);
        now rewrite Hfold
      end. }
  destruct Hprep as (s0 & Hs0 & Hu0).
  rewrite Hs0 in Hp. unfold same_invalidated in Hp. simpl in Hp. fold j in Hp.
  destruct (solveAll_loop_returns k limit Hrun Hhas Hlen fuel 0 s0)
    as [s' Hs']; try (rewrite Hp; simpl; lia).
  - intros L HL. rewrite Hp. specialize (Hlim L HL). lia.
  - now rewrite Hu0.
  - exists s'. rewrite Hp, Z.add_0_l in Hs'.
    unfold bind in Hs0 |- *.
    destruct (init_if_no_objective s) as [[[]|x|] s1]; try discriminate.
    unfold modify in Hs0 |- *.
    destruct (set_time_limit t _) as [[[]|x|] s2]; try discriminate.
    destruct (set_options kw s2) as [[[]|x|] s3]; try discriminate.
    injection Hs0 as ->. exact Hs'.
Qed.

End Reports.


Lemma solve_outcome_witness :
  let s := snd (solver_var Demo.x init_session) in
  let s' := snd (@solve Demo.decided None None [] s) in
  @solve Demo.decided None None [] s = (Ret true, s')
  /\ cpm_status s' = {| exitstatus := OPTIMAL; runtime := 0 |}.
Proof.
  split; [reflexivity|].
  apply (@solve_outcome Demo.decided None []
           (snd (solver_var Demo.x init_session)) true).
  reflexivity.
Defined.

Lemma solution_values_by_kind_witness :
  let s := set_user_vars [Demo.b; Demo.x] init_session in
  let s' := snd (@getSolAndObj Demo.decided s) in
  exists n,
    @xct_getLastSolutionFor Demo.decided (xct_solver s') ["b"; "x"] !! 0%nat
    = Some n
    /\ var_value s' !! "b" = Some (stored_as Demo.b n).
Proof.
  refine (@solution_values_by_kind Demo.decided
            (set_user_vars [Demo.b; Demo.x] init_session)
            (snd (@getSolAndObj Demo.decided
                    (set_user_vars [Demo.b; Demo.x] init_session)))
            ExactNormalize.varmap_ok_init _ eq_refl 0%nat Demo.b eq_refl).
  apply NoDup_cons. split; [|apply NoDup_singleton].
  intros H. apply list_elem_of_singleton in H. discriminate.
Defined.

Lemma solveAll_counts_solutions_witness :
  let run := @solveAll two_solutions 5 None (Some 1000) [] init_session in
  fst run = Ret 2 /\ invalidated (xct_solver (snd run)) = 2%nat.
Proof.
  split; [reflexivity|].
  pose proof (@solveAll_counts_solutions two_solutions 5 None (Some 1000) []
                init_session 2
                (snd (@solveAll two_solutions 5 None (Some 1000) [] init_session))
                eq_refl) as (_ & _ & H).
  simpl invalidated at 2 in H. lia.
Defined.

Lemma solveAll_enumerates_witness :
  let s0 := set_user_vars [Demo.b; Demo.x] init_session in
  let s1 := snd (@solveAll two_solutions 3 None (Some 1) [] s0) in
  invalidated (xct_solver s1) = 1%nat
  /\ (exists s', @solveAll two_solutions 3 None (Some 1000) [] s0 = (Ret 2, s'))
  /\ (exists s', @solveAll two_solutions 3 None (Some 1000) [] s1 = (Ret 1, s')).
Proof.
  split; [reflexivity|]. split.
  - apply (@solveAll_enumerates two_solutions 2 3 None (Some 1000) []
             (set_user_vars [Demo.b; Demo.x] init_session)).
    + reflexivity.
    + reflexivity.
    + intros log hs. simpl. apply length_map.
    + simpl. lia.
    + intros L [= <-]. simpl. lia.
    + repeat constructor.
  - apply (@solveAll_enumerates two_solutions 2 3 None (Some 1000) []
             (snd (@solveAll two_solutions 3 None (Some 1) []
                     (set_user_vars [Demo.b; Demo.x] init_session)))).
    + reflexivity.
    + reflexivity.
    + intros log hs. simpl. apply length_map.
    + simpl. lia.
    + intros L [= <-]. simpl. lia.
    + repeat constructor.
Defined.


End ExactSolve.

(** ** The Exact interface: the set of user variables *)

Module ExactUserVars.

Import Exact Meaning ExactFacts.

(** The user variables are a set by name, and a name that is in it
    stays in it. *)
Definition user_vars_grow (s s' : CPM_exact) : Prop :=
  (NoDup (map var_name (user_vars s)) -> NoDup (map var_name (user_vars s')))
  /\ forall v, var_in v (user_vars s) = true -> var_in v (user_vars s') = true.

Lemma var_in_name v uv :
  var_in v uv = true <-> var_name v ∈ map var_name uv.
Proof.
  unfold var_in. rewrite existsb_exists, list_elem_of_fmap. split.
  - intros (w & Hw & E). apply String.eqb_eq in E.
    exists w. split; auto. now apply list_elem_of_In.
  - intros (w & E & Hw). exists w. split; [now apply list_elem_of_In|].
    now apply String.eqb_eq.
Qed.

Lemma set_add_grows uv v :
  (NoDup (map var_name uv) -> NoDup (map var_name (set_add uv v)))
  /\ (forall w, var_in w uv = true -> var_in w (set_add uv v) = true)
  /\ var_in v (set_add uv v) = true.
Proof.
  unfold set_add. destruct (var_in v uv) eqn:E; [now repeat split|].
  repeat split.
  - intros Hnd. rewrite map_app. simpl. apply NoDup_app. repeat split; auto.
    + intros n Hn Hv. apply list_elem_of_singleton in Hv as ->.
      apply var_in_name in Hn. congruence.
    + apply NoDup_singleton.
  - intros w Hw. apply var_in_name. apply var_in_name in Hw.
    rewrite map_app. apply elem_of_app. now left.
  - apply var_in_name. rewrite map_app. apply elem_of_app. right.
    apply list_elem_of_here.
Qed.

Lemma set_update_grows l : forall uv,
  (NoDup (map var_name uv) -> NoDup (map var_name (set_update uv l)))
  /\ (forall w, var_in w uv = true -> var_in w (set_update uv l) = true)
  /\ (forall v, In v l -> var_in v (set_update uv l) = true).
Proof.
  unfold set_update. induction l as [|x l IH]; intros uv; simpl.
  - repeat split; auto; intros v [].
  - destruct (set_add_grows uv x) as (A1 & A2 & A3).
    destruct (IH (set_add uv x)) as (B1 & B2 & B3).
    repeat split; auto. intros v [<-|Hv]; auto.
Qed.

Lemma user_vars_grow_refl s : user_vars_grow s s.
Proof. now split. Qed.

Lemma user_vars_grow_trans s1 s2 s3 :
  user_vars_grow s1 s2 -> user_vars_grow s2 s3 -> user_vars_grow s1 s3.
Proof. intros [A1 B1] [A2 B2]. split; auto. Qed.

Lemma user_vars_grow_same s s' :
  user_vars s' = user_vars s -> user_vars_grow s s'.
Proof. intros E. unfold user_vars_grow. rewrite E. now split. Qed.

Lemma user_vars_grow_update l s :
  user_vars_grow s (set_user_vars (set_update (user_vars s) l) s).
Proof.
  destruct (set_update_grows l (user_vars s)) as (A & B & _). now split.
Qed.

Section Grows.

Context {TR : Transformations} {EN : Engine}.

Lemma solver_var_user_vars v : preserves user_vars_grow (solver_var v).
Proof.
  pose proof user_vars_grow_refl. pose proof user_vars_grow_trans.
  assert (forall c s, user_vars_grow s (xct_emit c s))
    by (intros; now apply user_vars_grow_same).
  assert (forall m s, user_vars_grow s (set_varmap m s))
    by (intros; now apply user_vars_grow_same).
  induction v; simpl; pres.
Qed.

Lemma emitters_user_vars :
  (forall cs vs uselb lb useub ub,
     preserves user_vars_grow (_add_xct_constr cs vs uselb lb useub ub))
  /\ (forall h cs vs r, preserves user_vars_grow (_add_xct_reif_right h cs vs r))
  /\ (forall h cs vs r, preserves user_vars_grow (_add_xct_reif_left h cs vs r)).
Proof.
  pose proof user_vars_grow_refl. pose proof user_vars_grow_trans.
  assert (forall c s, user_vars_grow s (xct_emit c s))
    by (intros; now apply user_vars_grow_same).
  split; [|split]; intros;
    unfold _add_xct_constr, _add_xct_reif_right, _add_xct_reif_left; pres.
Qed.

Lemma __add___user_vars fuel e : preserves user_vars_grow (__add__ fuel e).
Proof.
  pose proof user_vars_grow_refl as Hrefl.
  pose proof user_vars_grow_trans as Htrans.
  pose proof user_vars_grow_update as Hup.
  destruct emitters_user_vars as (Hc & Hr & Hl).
  revert e. induction fuel as [|fuel IH]; intros e; simpl; pres.
  apply _post_constraint_preserves; auto using solver_var_user_vars.
Qed.

Lemma objective_user_vars fuel e minimize :
  preserves user_vars_grow (objective fuel e minimize).
Proof.
  pose proof user_vars_grow_refl as Hrefl.
  pose proof user_vars_grow_trans as Htrans.
  pose proof user_vars_grow_update as Hup.
  pose proof __add___user_vars as Hadd.
  assert (Hn : forall lhs rhs, preserves user_vars_grow (_make_numexpr lhs rhs))
    by (intros; apply _make_numexpr_preserves; auto using solver_var_user_vars).
  assert (forall c s, user_vars_grow s (xct_emit c s))
    by (intros; now apply user_vars_grow_same).
  assert (forall b s, user_vars_grow s (set_has_objective b s))
    by (intros; now apply user_vars_grow_same).
  assert (forall b s, user_vars_grow s (set_objective_minimize b s))
    by (intros; now apply user_vars_grow_same).
  unfold objective. pres.
Qed.

Lemma step_user_vars s s' : step s s' -> user_vars_grow s s'.
Proof.
  pose proof user_vars_grow_refl as Hrefl.
  pose proof user_vars_grow_trans as Htrans.
  pose proof solver_var_user_vars as Hv.
  assert (He : forall c s0, is_primitive c = false ->
                 user_vars_grow s0 (xct_emit c s0))
    by (intros; now apply user_vars_grow_same).
  assert (Ho : forall o s0, user_vars_grow s0 (set_objective_value_ o s0))
    by (intros; now apply user_vars_grow_same).
  assert (Hst : forall st s0, user_vars_grow s0 (set_cpm_status st s0))
    by (intros; now apply user_vars_grow_same).
  assert (Hvv : forall m s0, user_vars_grow s0 (set_var_value m s0))
    by (intros; now apply user_vars_grow_same).
  assert (Hf : forall s0, user_vars_grow s0 (set_has_objective true s0))
    by (intros; now apply user_vars_grow_same).
  destruct 1.
  - apply __add___user_vars.
  - apply objective_user_vars.
  - exact (solve_preserves user_vars_grow Hrefl Htrans Hv He Ho Hst Hvv Hf
             t a kw s).
  - exact (solveAll_preserves user_vars_grow Hrefl Htrans Hv He Ho Hvv Hf
             fuel t limit kw s).
  - apply Hv.
  - exact (getSolAndObj_preserves user_vars_grow Hrefl Htrans Hv Ho Hvv s).
Qed.

Lemma steps_user_vars s s' : rtc step s s' -> user_vars_grow s s'.
Proof.
  induction 1 as [|s1 s2 s3 H12 _ IH]; [apply user_vars_grow_refl|].
  eapply user_vars_grow_trans; [|exact IH]. now apply step_user_vars.
Qed.

(** X23. In every session reached from a fresh one the user variables
    are a set by name; a variable that is a user variable stays one
    through every later method call; and every variable that
    [get_variables] finds in a constraint is a user variable once the
    constraint is posted, also when the posting raises. *)
Theorem user_variables_are_a_growing_set s :
  rtc step init_session s ->
  NoDup (map var_name (user_vars s))
  /\ (forall s' v, rtc step s s' ->
        var_in v (user_vars s) = true -> var_in v (user_vars s') = true)
  /\ (forall fuel e v,
        In v (get_variables e) ->
        var_in v (user_vars (snd (__add__ (S fuel) e s))) = true).
Proof.
  intros Hs. repeat split.
  - apply (proj1 (steps_user_vars init_session s Hs)). constructor.
  - intros s' v Hstep. apply (proj2 (steps_user_vars s s' Hstep)).
  - intros fuel e v Hv. cbn [__add__]. unfold bind at 1. unfold modify at 1.
    set (s1 := set_user_vars _ s).
    assert (H1 : var_in v (user_vars s1) = true)
      by (apply (set_update_grows (get_variables e) (user_vars s)), Hv).
    match goal with |- var_in v (user_vars (snd (?m s1))) = true =>
      assert (Hm : preserves user_vars_grow m)
    end.
    { pose proof user_vars_grow_refl as Hrefl.
      pose proof user_vars_grow_trans as Htrans.
      destruct emitters_user_vars as (Hc & Hr & Hl).
      pres.
      apply _post_constraint_preserves;
        auto using solver_var_user_vars, __add___user_vars. }
    apply (proj2 (Hm s1)), H1.
Qed.

End Grows.

Lemma user_variables_are_a_growing_set_witness :
  let vars := {| get_variables := fun _ => [Demo.x; Demo.y; Demo.x];
                 flatten_constraint := fun e => [e];
                 reify_rewrite := fun l => l;
                 only_bv_implies := fun l => l;
                 linearize_constraint := fun l => l;
                 only_numexpr_equality := fun l => l;
                 only_positive_bv := fun l => l;
                 flatten_objective := fun e => (e, []);
                 decompose := fun _ => [] |} in
  let s := snd (@__add__ vars 1 (Comparison "<=" (Var Demo.x) (Var Demo.y))
                  init_session) in
  user_vars s = [Demo.x; Demo.y]
  /\ NoDup (map var_name (user_vars s)).
Proof.
  split; [reflexivity|].
  apply (@user_variables_are_a_growing_set
           {| get_variables := fun _ => [Demo.x; Demo.y; Demo.x];
              flatten_constraint := fun e => [e];
              reify_rewrite := fun l => l;
              only_bv_implies := fun l => l;
              linearize_constraint := fun l => l;
              only_numexpr_equality := fun l => l;
              only_positive_bv := fun l => l;
              flatten_objective := fun e => (e, []);
              decompose := fun _ => [] |} Demo.undecided).
  apply rtc_once. apply step_add.
Defined.

End ExactUserVars.

(** ** The Z3 interface: what holds in every session, and what [solve]
       reports *)

Module Z3Session.

Import Z3 Z3Meaning Z3Facts Z3Bounds.

(** The constant that [solver_var] makes for a variable. *)
Definition constant_of (v : cpm_var) : option z3expr :=
  match v with
  | BoolVar n => Some (ZBool n)
  | IntVar n _ _ => Some (ZInt n)
  | _ => None
  end.

(** The value a model gives to a constant. *)
Definition model_value (sol : model) (h : z3expr) : option pyval :=
  match h with
  | ZInt x => VInt <$> m_int sol x
  | ZBool x => VBool <$> m_bool sol x
  | _ => None
  end.

(** The cache and the user variables fit together: a handle is the
    constant of its name, its variable is a user variable, a Boolean or
    integer user variable has its own constant as handle, and no
    negated view is a user variable. *)
Definition materialized (s : CPM_z3) : Prop :=
  (forall n h, _varmap s !! n = Some h ->
     (h = ZBool n \/ h = ZInt n)
     /\ exists v, In v (user_vars s) /\ var_name v = n)
  /\ (forall v h, In v (user_vars s) -> constant_of v = Some h ->
        _varmap s !! var_name v = Some h)
  /\ (forall v, In v (user_vars s) -> is_NegBoolView v = false).

Definition materialized_kept (s s' : CPM_z3) : Prop :=
  materialized s -> materialized s'.

(** The exit status for an answer of the check. *)
Definition answered (answer : string) : ExitStatus :=
  if String.eqb answer "sat" then FEASIBLE
  else if String.eqb answer "unsat" then UNSATISFIABLE
  else UNKNOWN.

(** The loops of [solve] leave the status and the objective value. *)
Definition report_kept (s s' : CPM_z3) : Prop :=
  cpm_status s' = cpm_status s /\ objective_value_ s' = objective_value_ s.

(** The handles that are in the cache stay as they are. *)
Definition cache_kept (s s' : CPM_z3) : Prop :=
  forall k h, _varmap s !! k = Some h -> _varmap s' !! k = Some h.

Lemma var_in_spec v uv :
  var_in v uv = true <-> exists w, In w uv /\ var_name w = var_name v.
Proof.
  unfold var_in. rewrite existsb_exists. split.
  - intros (w & Hw & E). apply String.eqb_eq in E. eauto.
  - intros (w & Hw & E). exists w. split; auto. now apply String.eqb_eq.
Qed.

Lemma in_set_add w uv v : In w uv -> In w (set_add uv v).
Proof.
  unfold set_add. destruct (var_in v uv); auto.
  intros H. apply in_app_iff. now left.
Qed.

Lemma set_add_has_name uv v :
  exists w, In w (set_add uv v) /\ var_name w = var_name v.
Proof.
  unfold set_add. destruct (var_in v uv) eqn:E.
  - now apply var_in_spec.
  - exists v. split; auto. apply in_app_iff. right. now left.
Qed.

Lemma materialized_same s s' :
  user_vars s' = user_vars s -> _varmap s' = _varmap s ->
  materialized_kept s s'.
Proof. unfold materialized_kept, materialized. now intros -> ->. Qed.

(** The first materialization of a Boolean or integer variable. *)
Lemma materialized_first v h s s0 :
  is_NegBoolView v = false ->
  constant_of v = Some h ->
  _varmap s !! var_name v = None ->
  user_vars s0 = set_add (user_vars s) v ->
  _varmap s0 = <[var_name v := h]> (_varmap s) ->
  materialized s -> materialized s0.
Proof.
  intros Hv Hc Hn Hu Hm (Hcache & Huser & Hneg).
  assert (Hh : h = ZBool (var_name v) \/ h = ZInt (var_name v))
    by (destruct v; simpl in *; simplify_eq; auto).
  unfold materialized. rewrite Hu, Hm. split; [|split].
  - intros n h0 Hl. destruct (decide (var_name v = n)) as [<-|Hne].
    + rewrite lookup_insert_eq in Hl. injection Hl as <-.
      split; [exact Hh | apply set_add_has_name].
    + rewrite lookup_insert_ne in Hl by assumption.
      destruct (Hcache n h0 Hl) as (Hk & w & Hw & E).
      split; [exact Hk|]. exists w. split; auto. now apply in_set_add.
  - intros w hw Hw Hcw. apply set_add_in in Hw.
    destruct (decide (var_name v = var_name w)) as [E|Hne].
    + rewrite <- E, lookup_insert_eq. destruct Hw as [Hw| ->]; [|congruence].
      rewrite E, (Huser w hw Hw Hcw) in Hn. discriminate.
    + rewrite lookup_insert_ne by assumption.
      destruct Hw as [Hw| ->]; [now apply Huser | congruence].
  - intros w Hw. apply set_add_in in Hw. destruct Hw as [Hw| ->]; auto.
Qed.

Lemma solver_var_materialized v : preserves materialized_kept (solver_var v).
Proof.
  induction v as [n|n lb ub|n lb ub|bv IH]; intros s Hs.
  - destruct (_varmap s !! n) as [h|] eqn:E.
    + now rewrite (solver_var_cached (BoolVar n) h s).
    + rewrite solver_var_first_bool by assumption. simpl.
      now apply (materialized_first (BoolVar n) (ZBool n) s).
  - destruct (_varmap s !! n) as [h|] eqn:E.
    + now rewrite (solver_var_cached (IntVar n lb ub) h s).
    + rewrite solver_var_first_int by assumption. simpl.
      now apply (materialized_first (IntVar n lb ub) (ZInt n) s).
  - destruct (_varmap s !! n) as [h|] eqn:E.
    + now rewrite (solver_var_cached (NumVar n lb ub) h s).
    + rewrite solver_var_first_other by assumption. simpl.
      destruct Hs as (Hcache & Huser & Hneg). split; [|split]; simpl.
      * intros k h Hl. destruct (Hcache k h Hl) as (Hk & w & Hw & Ew).
        split; [exact Hk|]. exists w. split; auto. now apply in_set_add.
      * intros w hw Hw Hcw. apply set_add_in in Hw.
        destruct Hw as [Hw| ->]; [now apply Huser | discriminate].
      * intros w Hw. apply set_add_in in Hw. destruct Hw as [Hw| ->]; auto.
  - cbn [solver_var]. unfold bind.
    specialize (IH s Hs). destruct (solver_var bv s) as [[h|e|] s1]; exact IH.
Qed.

Section Reached.

Context {EN : Engine}.

Lemma z3_step_materialized s s' : z3_step s s' -> materialized_kept s s'.
Proof.
  assert (Hrefl : forall s0, materialized_kept s0 s0) by (now intros s0 H).
  assert (Htrans : forall s1 s2 s3, materialized_kept s1 s2 ->
                     materialized_kept s2 s3 -> materialized_kept s1 s3)
    by (unfold materialized_kept; auto).
  assert (He : forall c s0, materialized_kept s0 (z3_emit c s0))
    by (intros; now apply materialized_same).
  assert (Hst : forall st s0, materialized_kept s0 (set_cpm_status st s0))
    by (intros; now apply materialized_same).
  assert (Ho : forall o s0, materialized_kept s0 (set_objective_value_ o s0))
    by (intros; now apply materialized_same).
  assert (Hv : forall n v s0, materialized_kept s0 (store_value n v s0))
    by (intros n [v|] s0; now apply materialized_same).
  destruct 1.
  - exact (z3___add___preserves materialized_kept Hrefl Htrans
             solver_var_materialized He e s).
  - exact (z3_objective_preserves materialized_kept Hrefl Htrans
             solver_var_materialized e minimize s).
  - exact (z3_solve_preserves materialized_kept Hrefl Htrans
             solver_var_materialized He Hst Ho Hv t a kw s).
  - apply solver_var_materialized.
Qed.

Lemma reachable_materialized s : reachable s -> materialized s.
Proof.
  intros H.
  assert (Hall : forall s0 s1, rtc z3_step s0 s1 -> materialized_kept s0 s1).
  { induction 1 as [|s1 s2 s3 H12 _ IH]; [now intros ?|].
    intros H1. apply IH. now apply (z3_step_materialized s1 s2). }
  apply (Hall init_session s H). split; [|split].
  - intros n h Hl. simpl in Hl. now rewrite lookup_empty in Hl.
  - intros v h [].
  - intros v [].
Qed.

(** Reading the model: one round, and the whole loop. *)
Lemma store_value_lookup k val s :
  var_value (store_value k val s) !! k = val
  /\ forall k', k' <> k ->
       var_value (store_value k val s) !! k' = var_value s !! k'.
Proof.
  destruct val as [x|]; simpl; split.
  - apply lookup_insert_eq.
  - intros k' Hk. now apply lookup_insert_ne.
  - apply lookup_delete_eq.
  - intros k' Hk. now apply lookup_delete_ne.
Qed.

Lemma read_value_any sol v n h s0 s1 :
  h = ZBool n \/ h = ZInt n ->
  _varmap s0 !! n = Some h ->
  read_value sol v s0 = (Ret tt, s1) ->
  _varmap s1 !! n = Some h
  /\ (var_name v = n \/ var_value s0 !! n = model_value sol h ->
      var_value s1 !! n = model_value sol h).
Proof.
  intros Hh Hn H. unfold read_value in H.
  apply bind_inv in H. destruct H as (hv & sa & Hhv & H).
  apply bind_inv in H. destruct H as (val & sb & Hval & H).
  unfold modify in H. injection H as <-.
  pose proof (solver_var_cache_grows v s0) as [Hvv Hvm]. rewrite Hhv in Hvv, Hvm.
  simpl in Hvv, Hvm.
  assert (Hsb : sb = sa /\ val = model_value sol hv
                /\ (forall h0, hv <> ZApp Not [h0])).
  { unfold model_getitem in Hval.
    destruct hv; try discriminate; unfold ret in Hval; simplify_eq;
      repeat split; congruence. }
  destruct Hsb as (-> & -> & Hnot).
  destruct (store_value_lookup (var_name v) (model_value sol hv) sa)
    as [Hhere Hother].
  split.
  - destruct (model_value sol hv); simpl; now apply Hvm.
  - intros Hcase. destruct (decide (var_name v = n)) as [Heq|Hne].
    + assert (Hpos : is_NegBoolView v = false).
      { destruct v; auto.
        destruct (solver_var_negated_handle _ _ _ _ Hhv) as [h0 ->].
        now destruct (Hnot h0). }
      rewrite <- Heq in Hn.
      rewrite (solver_var_cached v _ s0 Hpos Hn) in Hhv. injection Hhv as <- <-.
      now rewrite <- Heq.
    + destruct Hcase as [|Hold]; [contradiction|].
      rewrite Hother by congruence. now rewrite Hvv.
Qed.

Lemma read_loop_any sol n h vars :
  h = ZBool n \/ h = ZInt n ->
  forall s0 s1,
    _varmap s0 !! n = Some h ->
    for_each (read_value sol) vars s0 = (Ret tt, s1) ->
    ((exists v, In v vars /\ var_name v = n)
     \/ var_value s0 !! n = model_value sol h) ->
    var_value s1 !! n = model_value sol h.
Proof.
  intros Hh. induction vars as [|v vars IH]; intros s0 s1 Hn H Hcase.
  - unfold for_each, ret in H. injection H as <-.
    destruct Hcase as [(v & [] & _)|]; auto.
  - simpl in H. apply bind_inv in H. destruct H as ([] & sa & Hv & H).
    destruct (read_value_any sol v n h s0 sa Hh Hn Hv) as (Hna & Hvala).
    apply (IH sa s1 Hna H).
    destruct Hcase as [(w & [<-|Hin] & Hw)|Hold]; eauto.
Qed.

Lemma read_loop_report sol vars :
  preserves report_kept (for_each (read_value sol) vars).
Proof.
  assert (Hrefl : forall s, report_kept s s) by (now split).
  assert (Htrans : forall s1 s2 s3, report_kept s1 s2 -> report_kept s2 s3 ->
                     report_kept s1 s3)
    by (intros s1 s2 s3 [A1 B1] [A2 B2]; split; congruence).
  assert (He : forall c s, report_kept s (z3_emit c s)) by (now split).
  assert (Hu : forall u s, report_kept s (set_user_vars u s)) by (now split).
  assert (Hm : forall m s, report_kept s (set_varmap m s)) by (now split).
  assert (Hs : forall k val s, report_kept s (store_value k val s))
    by (intros k [x|] s; now split).
  assert (Hvar : forall v, preserves report_kept (solver_var v))
    by (induction v; simpl; pres).
  unfold read_value, model_getitem. pres.
Qed.

(** X21. In every session reached from a fresh one, a handle in the
    cache is the Boolean or the integer constant named after its
    variable, and the variable is among the user variables; a Boolean
    or integer user variable has the constant of its own kind as
    handle; and no negated view is a user variable. *)
Theorem materialized_variables_are_user_variables s :
  reachable s -> materialized s.
Proof. apply reachable_materialized. Qed.

(** X20. In a session reached from a fresh one, a [solve] that finds a
    solution stores for every Boolean and integer user variable what
    the model gives to its constant: the value when the model
    interprets the constant, and [None] when it does not. *)
Theorem solve_reads_the_model s t a kw s' :
  reachable s ->
  solve t a kw s = (Ret true, s') ->
  let sol := z3_model (z3_solver (z3_prepared t kw s) ++ [ZCheck a]) in
  forall v h,
    In v (user_vars s) -> constant_of v = Some h ->
    var_value s' !! var_name v = model_value sol h.
Proof.
  intros Hr H sol v h Hv Hc.
  destruct (reachable_materialized s Hr) as (_ & Huser & _).
  pose proof (Huser v h Hv Hc) as Hn.
  destruct (z3_prepared_facts t kw s) as (Hu & Hm & _ & _).
  rewrite solve_run in H. cbv zeta in H.
  destruct (String.eqb (z3_check (z3_solver (z3_prepared t kw s)) a) "sat").
  2: { destruct (String.eqb _ "unsat");
         [|destruct (String.eqb _ "unknown"); [|discriminate]];
         rewrite (bind_run _ _ _ _ _ (clear_loop _ _)) in H; discriminate. }
  apply bind_inv in H. destruct H as ([] & s1 & Hloop & H).
  unfold ret in H. injection H as <-.
  assert (Hh : h = ZBool (var_name v) \/ h = ZInt (var_name v))
    by (destruct v; simpl in Hc; simplify_eq; auto).
  assert (Hn' : _varmap (z3_checked a FEASIBLE (z3_prepared t kw s))
                  !! var_name v = Some h)
    by (simpl; now rewrite Hm).
  apply (read_loop_any sol (var_name v) h (user_vars (z3_prepared t kw s))
           Hh (z3_checked a FEASIBLE (z3_prepared t kw s)) s1 Hn' Hloop).
  left. exists v. rewrite Hu. auto.
Qed.

(** X22. When [solve] returns, the answer of the check was "sat",
    "unsat" or "unknown"; it returns [True] exactly for "sat"; the exit
    status is FEASIBLE, UNSATISFIABLE or UNKNOWN accordingly and never
    OPTIMAL; the runtime is the solver's 'time' statistic; and no
    objective value is stored. *)
Theorem nested_solve_outcome t a kw s b s' :
  solve t a kw s = (Ret b, s') ->
  let sp := z3_prepared t kw s in
  let answer := z3_check (z3_solver sp) a in
  (answer = "sat" \/ answer = "unsat" \/ answer = "unknown")
  /\ b = String.eqb answer "sat"
  /\ cpm_status s'
     = {| exitstatus := answered answer;
          runtime := z3_time (z3_solver sp ++ [ZCheck a]) |}
  /\ objective_value_ s' = None.
Proof.
  intros H sp answer. rewrite solve_run in H. fold sp answer in H.
  unfold answered.
  destruct (String.eqb_spec answer "sat") as [Es|Ns].
  - apply bind_inv in H. destruct H as ([] & s1 & Hloop & H).
    unfold ret in H. injection H as <- <-.
    pose proof (read_loop_report (z3_model (z3_solver sp ++ [ZCheck a]))
                  (user_vars sp) (z3_checked a FEASIBLE sp)) as [Hst Hov].
    rewrite Hloop in Hst, Hov. simpl in Hst, Hov. auto.
  - destruct (String.eqb_spec answer "unsat") as [Eu|Nu].
    + rewrite (bind_run _ _ _ _ _ (clear_loop _ _)) in H.
      unfold ret in H. injection H as <- <-.
      destruct (cleared_frame (user_vars sp) (z3_checked a UNSATISFIABLE sp))
        as (Hst & Hov & _).
      split; [auto|split; [reflexivity|split; [exact Hst|exact Hov]]].
    + destruct (String.eqb_spec answer "unknown") as [Ek|Nk]; [|discriminate].
      rewrite (bind_run _ _ _ _ _ (clear_loop _ _)) in H.
      unfold ret in H. injection H as <- <-.
      destruct (cleared_frame (user_vars sp) (z3_checked a UNKNOWN sp))
        as (Hst & Hov & _).
      split; [auto|split; [reflexivity|split; [exact Hst|exact Hov]]].
Qed.

(** X25. No method call of the nested interface replaces or removes a
    handle that is in the cache. *)
Theorem nested_handles_are_kept s s' n h :
  rtc z3_step s s' ->
  _varmap s !! n = Some h ->
  _varmap s' !! n = Some h.
Proof.
  intros Hstep. revert n h.
  assert (Hrefl : forall s0, cache_kept s0 s0) by (now intros s0 k h).
  assert (Htrans : forall s1 s2 s3, cache_kept s1 s2 -> cache_kept s2 s3 ->
                     cache_kept s1 s3)
    by (unfold cache_kept; auto).
  assert (Hvar : forall v, preserves cache_kept (solver_var v))
    by (intros v s0; exact (proj2 (solver_var_cache_grows v s0))).
  assert (He : forall c s0, cache_kept s0 (z3_emit c s0)) by (now intros c s0 k h).
  assert (Hst : forall st s0, cache_kept s0 (set_cpm_status st s0))
    by (now intros st s0 k h).
  assert (Ho : forall o s0, cache_kept s0 (set_objective_value_ o s0))
    by (now intros o s0 k h).
  assert (Hv : forall k v s0, cache_kept s0 (store_value k v s0))
    by (intros k [v|] s0 k' h; auto).
  change (cache_kept s s').
  induction Hstep as [|s1 s2 s3 H12 _ IH]; [apply Hrefl|].
  apply (Htrans s1 s2 s3); [|exact IH]. destruct H12.
  - exact (z3___add___preserves cache_kept Hrefl Htrans Hvar He e s).
  - exact (z3_objective_preserves cache_kept Hrefl Htrans Hvar e minimize s).
  - exact (z3_solve_preserves cache_kept Hrefl Htrans Hvar He Hst Ho Hv t a kw s).
  - apply Hvar.
Qed.

(** X17. [objective] of the nested interface never returns: it
    translates the expression, which materializes its variables and
    adds the bounds of its integer variables to the solver for good,
    and then raises [NameError]. *)
Theorem nested_objective_never_returns e minimize s :
  fst (objective e minimize s) <> Ret tt
  /\ snd (objective e minimize s) = snd (_z3_expr e s)
  /\ (forall z s', _z3_expr e s = (Ret z, s') ->
        objective e minimize s = (Raise NameError, s'))
  /\ (forall n lb ub, _varmap s !! n = None ->
        objective (Var (IntVar n lb ub)) minimize s
        = (Raise NameError, snd (solver_var (IntVar n lb ub) s))
        /\ z3_solver (snd (objective (Var (IntVar n lb ub)) minimize s))
           = z3_solver s
             ++ [ZAdd (ZApp Ge [ZInt n; ZNum lb]);
                 ZAdd (ZApp Le [ZInt n; ZNum ub])]).
Proof.
  unfold objective, bind. repeat split.
  - destruct (_z3_expr e s) as [[z|x|] s1]; discriminate.
  - now destruct (_z3_expr e s) as [[z|x|] s1].
  - intros z s' ->. reflexivity.
  - cbn [_z3_expr]. now rewrite solver_var_first_int.
  - cbn [_z3_expr]. rewrite solver_var_first_int by assumption. simpl.
    now rewrite <- app_assoc.
Qed.

End Reached.

Lemma materialized_variables_are_user_variables_witness :
  let s := snd (@__add__ (Comparison "<=" (Var Demo.x) (Var (NegBoolView Demo.b)))
                  init_session) in
  user_vars s = [Demo.x; Demo.b] /\ materialized s.
Proof.
  split; [reflexivity|].
  apply (@materialized_variables_are_user_variables Demo.guesser).
  apply rtc_once, (@z3_step_add Demo.guesser).
Defined.

Lemma solve_reads_the_model_witness :
  let s := snd (solver_var Demo.b (snd (solver_var Demo.x init_session))) in
  let s' := snd (@solve Demo.guesser None [] [] s) in
  var_value s' !! "b" = Some (VBool true).
Proof.
  refine (@solve_reads_the_model Demo.guesser
            (snd (solver_var Demo.b (snd (solver_var Demo.x init_session))))
            None [] [] _ _ eq_refl Demo.b (ZBool "b") _ eq_refl).
  - eapply rtc_l; [apply (@z3_step_solver_var Demo.guesser Demo.x)|].
    apply rtc_once, (@z3_step_solver_var Demo.guesser Demo.b).
  - right. now left.
Defined.

Lemma nested_solve_outcome_witness :
  let s := snd (solver_var Demo.x init_session) in
  let s' := snd (@solve Demo.guesser None [] [] s) in
  exitstatus (cpm_status s') = FEASIBLE /\ objective_value_ s' = None.
Proof.
  destruct (@nested_solve_outcome Demo.guesser None [] []
              (snd (solver_var Demo.x init_session)) true
              (snd (@solve Demo.guesser None [] []
                      (snd (solver_var Demo.x init_session))))
              eq_refl) as (_ & _ & Hst & Hov).
  split; [now rewrite Hst | exact Hov].
Defined.

Lemma nested_handles_are_kept_witness :
  let s := snd (solver_var Demo.x init_session) in
  let s' := snd (@solve Demo.clueless None [] [] s) in
  _varmap s' !! "x" = Some (ZInt "x").
Proof.
  apply (@nested_handles_are_kept Demo.clueless
           (snd (solver_var Demo.x init_session))).
  - apply rtc_once, (@z3_step_solve Demo.clueless).
  - reflexivity.
Defined.

Lemma nested_objective_never_returns_witness :
  objective (Var Demo.x) true init_session
  = (Raise NameError, snd (solver_var Demo.x init_session)).
Proof.
  apply (proj1 (proj2 (proj2 (nested_objective_never_returns
                                (Var Demo.x) true init_session)))
           (ZInt "x")).
  reflexivity.
Defined.

End Z3Session.

(** ** The Z3 interface: the translation keeps the meaning *)

Module Z3Compile.

Import Z3 Z3Meaning Z3Facts Z3Bounds.

(** Modelled from the spec: the value of a variable under a z3 model,
    by the variable's own kind; a negated view is the complement of its
    variable. *)
Fixpoint cp_var (m : model) (v : cpm_var) : option pyval :=
  match v with
  | BoolVar n => VBool <$> m_bool m n
  | IntVar n _ _ => VInt <$> m_int m n
  | NumVar _ _ _ => None
  | NegBoolView bv =>
      match cp_var m bv with
      | Some (VBool b) => Some (VBool (negb b))
      | _ => None
      end
  end.

(** [sum(wi*xi for wi,xi in zip(w,x))] on the values of the terms. *)
Fixpoint dot (ws : list expr) (vals : list (option pyval)) : option Z :=
  match ws, vals with
  | Num c :: ws', Some (VInt a) :: vals' =>
      (fun b => c * a + b) <$> dot ws' vals'
  | _ :: _, _ :: _ => None
  | _, _ => Some 0
  end.

(** The six comparisons, on two integers; equality and disequality
    also on two Booleans. *)
Definition cp_compare (name : string) (a b : pyval) : option pyval :=
  match a, b with
  | VInt x, VInt y =>
      if String.eqb name "<=" then Some (VBool (x <=? y))
      else if String.eqb name "<" then Some (VBool (x <? y))
      else if String.eqb name ">=" then Some (VBool (y <=? x))
      else if String.eqb name ">" then Some (VBool (y <? x))
      else if String.eqb name "!=" then Some (VBool (negb (x =? y)))
      else if String.eqb name "==" then Some (VBool (x =? y))
      else None
  | VBool x, VBool y =>
      if String.eqb name "!=" then Some (VBool (negb (Bool.eqb x y)))
      else if String.eqb name "==" then Some (VBool (Bool.eqb x y))
      else None
  | _, _ => None
  end.

(** Modelled from the spec: the value of a CPMpy expression of section
    4.4 under a z3 model (CPMpy's own evaluation is not in these
    files).  The connectives take Booleans, the sums and the ordering
    comparisons take integers; an expression outside these, or over a
    constant that the model does not interpret, has no value. *)
Fixpoint cp_eval (m : model) (e : expr) {struct e} : option pyval :=
  match e with
  | Num n => Some (VInt n)
  | Var v => cp_var m v
  | EList _ => None
  | Operator name args =>
      if String.eqb name "and" then
        (fun bs => VBool (forallb (fun b => b) bs))
          <$> all_bools (map (cp_eval m) args)
      else if String.eqb name "or" then
        (fun bs => VBool (existsb (fun b => b) bs))
          <$> all_bools (map (cp_eval m) args)
      else if String.eqb name "->" then
        match map (cp_eval m) args with
        | [Some (VBool a); Some (VBool b)] => Some (VBool (implb a b))
        | _ => None
        end
      else if String.eqb name "sum" then
        (fun ns => VInt (fold_right Z.add 0 ns))
          <$> all_ints (map (cp_eval m) args)
      else if String.eqb name "wsum" then
        match args with
        | [EList ws; EList xs] => VInt <$> dot ws (map (cp_eval m) xs)
        | _ => None
        end
      else None
  | Comparison name lhs rhs =>
      match cp_eval m lhs, cp_eval m rhs with
      | Some a, Some b => cp_compare name a b
      | _, _ => None
      end
  | GlobalConstraint name args =>
      if String.eqb name "alldifferent" then
        (fun ns => VBool (distinct ns)) <$> all_ints (map (cp_eval m) args)
      else None
  end.

(** A constraint holds under a model; a list of constraints is their
    conjunction. *)
Fixpoint cp_true (m : model) (e : expr) {struct e} : bool :=
  match e with
  | EList l => forallb (cp_true m) l
  | _ => match cp_eval m e with Some (VBool true) => true | _ => false end
  end.

(** Every constraint of a list, nested or not, has a value. *)
Fixpoint evaluable (m : model) (e : expr) {struct e} : bool :=
  match e with
  | EList l => forallb (evaluable m) l
  | _ => match cp_eval m e with Some _ => true | None => false end
  end.

(** A naming discipline: [K] says which names are names of Boolean
    variables; the others are names of integer variables. *)
Fixpoint var_kinded (K : string -> bool) (v : cpm_var) : bool :=
  match v with
  | BoolVar n => K n
  | IntVar n _ _ => negb (K n)
  | NumVar _ _ _ => true
  | NegBoolView bv => var_kinded K bv
  end.

Fixpoint well_kinded (K : string -> bool) (e : expr) {struct e} : bool :=
  match e with
  | Num _ => true
  | Var v => var_kinded K v
  | EList l | Operator _ l | GlobalConstraint _ l => forallb (well_kinded K) l
  | Comparison _ lhs rhs => well_kinded K lhs && well_kinded K rhs
  end.

(** The handles in the cache follow the discipline. *)
Definition cache_kinded (K : string -> bool) (s : CPM_z3) : Prop :=
  forall n h, _varmap s !! n = Some h -> h = if K n then ZBool n else ZInt n.

(** A translation has the value of what it translates. *)
Definition same_value (e : expr) (z : z3expr) : Prop :=
  forall m v, cp_eval m e = Some v -> z3_eval m z = Some v.

(** The calls made to the solver are kept, and calls are added. *)
Definition assertions_grow (s s' : CPM_z3) : Prop :=
  exists calls, z3_solver s' = z3_solver s ++ calls.

Lemma solver_var_sound K v : forall s h s',
  var_kinded K v = true -> cache_kinded K s ->
  solver_var v s = (Ret h, s') ->
  cache_kinded K s'
  /\ forall m val, cp_var m v = Some val -> z3_eval m h = Some val.
Proof.
  induction v as [n|n lb ub|n lb ub|bv IH]; intros s h s' Hk Hc H.
  - simpl in Hk. destruct (_varmap s !! n) as [h0|] eqn:E.
    + rewrite (solver_var_cached (BoolVar n) h0 s) in H by auto.
      injection H as <- <-. split; auto.
      rewrite (Hc n h0 E), Hk. auto.
    + rewrite solver_var_first_bool in H by assumption.
      injection H as <- <-. split; auto.
      intros k h Hl. simpl in Hl.
      destruct (decide (n = k)) as [<-|Hne].
      * rewrite lookup_insert_eq in Hl. injection Hl as <-. now rewrite Hk.
      * rewrite lookup_insert_ne in Hl by assumption. now apply Hc.
  - simpl in Hk. apply negb_true_iff in Hk.
    destruct (_varmap s !! n) as [h0|] eqn:E.
    + rewrite (solver_var_cached (IntVar n lb ub) h0 s) in H by auto.
      injection H as <- <-. split; auto.
      rewrite (Hc n h0 E), Hk. auto.
    + rewrite solver_var_first_int in H by assumption.
      injection H as <- <-. split; auto.
      intros k h Hl. simpl in Hl.
      destruct (decide (n = k)) as [<-|Hne].
      * rewrite lookup_insert_eq in Hl. injection Hl as <-. now rewrite Hk.
      * rewrite lookup_insert_ne in Hl by assumption. now apply Hc.
  - destruct (_varmap s !! n) as [h0|] eqn:E.
    + rewrite (solver_var_cached (NumVar n lb ub) h0 s) in H by auto.
      injection H as <- <-. split; auto. discriminate.
    + rewrite solver_var_first_other in H by assumption. discriminate.
  - cbn [solver_var] in H. apply bind_inv in H.
    destruct H as (h0 & s1 & H0 & H). unfold ret in H. injection H as <- <-.
    destruct (IH s h0 s1 Hk Hc H0) as [Hc1 Hv]. split; auto.
    intros m val Hval. simpl in Hval.
    destruct (cp_var m bv) as [[x|b]|] eqn:E; try discriminate.
    injection Hval as <-. simpl. now rewrite (Hv m _ E).
Qed.

Lemma map_M_sound {A} (f : A -> M CPM_z3 z3expr) (P : A -> z3expr -> Prop)
    (ok : A -> bool) K l :
  Forall (fun x => forall s z s',
            ok x = true -> cache_kinded K s -> f x s = (Ret z, s') ->
            cache_kinded K s' /\ P x z) l ->
  forall s zs s',
    forallb ok l = true -> cache_kinded K s ->
    map_M f l s = (Ret zs, s') ->
    cache_kinded K s' /\ Forall2 P l zs.
Proof.
  induction 1 as [|x l Hx _ IH]; intros s zs s' Hok Hc H; simpl in H.
  - unfold ret in H. injection H as <- <-. split; auto.
  - simpl in Hok. apply andb_true_iff in Hok as [Hokx Hokl].
    apply bind_inv in H. destruct H as (z & s1 & Hz & H).
    apply bind_inv in H. destruct H as (zs' & s2 & Hzs & H).
    unfold ret in H. injection H as <- <-.
    destruct (Hx s z s1 Hokx Hc Hz) as [Hc1 HP].
    destruct (IH s1 zs' s2 Hokl Hc1 Hzs) as [Hc2 HF]. split; auto.
Qed.

Lemma all_bools_same m l zs bs :
  Forall2 same_value l zs ->
  all_bools (map (cp_eval m) l) = Some bs ->
  all_bools (map (z3_eval m) zs) = Some bs.
Proof.
  intros HF. revert bs. induction HF as [|x z l zs Hx _ IH]; intros bs H; auto.
  simpl in *. destruct (cp_eval m x) as [[n|b]|] eqn:E; try discriminate.
  rewrite (Hx m _ E).
  destruct (all_bools (map (cp_eval m) l)) as [bs'|]; try discriminate.
  now rewrite (IH bs' eq_refl).
Qed.

Lemma all_ints_same m l zs ns :
  Forall2 same_value l zs ->
  all_ints (map (cp_eval m) l) = Some ns ->
  all_ints (map (z3_eval m) zs) = Some ns.
Proof.
  intros HF. revert ns. induction HF as [|x z l zs Hx _ IH]; intros ns H; auto.
  simpl in *. destruct (cp_eval m x) as [[n|b]|] eqn:E; try discriminate.
  rewrite (Hx m _ E).
  destruct (all_ints (map (cp_eval m) l)) as [ns'|]; try discriminate.
  now rewrite (IH ns' eq_refl).
Qed.

Lemma py_mul_value m c z a :
  z3_eval m z = Some (VInt a) -> z3_eval m (py_mul c z) = Some (VInt (c * a)).
Proof.
  intros H. destruct z as [n|x|x|l|f args].
  - simpl in *. now injection H as ->.
  - simpl in *. destruct (m_bool m x); discriminate.
  - simpl in *. now rewrite H.
  - discriminate.
  - unfold py_mul.
    change (match z3_eval m (ZNum c), z3_eval m (ZApp f args) with
            | Some (VInt x), Some (VInt y) => Some (VInt (x * y))
            | _, _ => None
            end = Some (VInt (c * a))).
    now rewrite H.
Qed.

Lemma weighted_sound m ws : forall xs zs s terms s' total,
  Forall2 same_value xs zs ->
  weighted ws zs s = (Ret terms, s') ->
  dot ws (map (cp_eval m) xs) = Some total ->
  s' = s
  /\ exists ns,
       all_ints (map (z3_eval m) terms) = Some ns
       /\ fold_right Z.add 0 ns = total.
Proof.
  induction ws as [|w ws IH]; intros xs zs s terms s' total HF H Hd.
  - simpl in H. destruct zs; unfold ret in H; injection H as <- <-.
    all: simpl in Hd; injection Hd as <-; split; auto; now exists [].
  - destruct HF as [|x z xs zs Hx HF].
    + simpl in H. destruct w; unfold ret in H; injection H as <- <-.
      all: simpl in Hd; injection Hd as <-.
      all: split; auto; now exists [].
    + destruct w as [c| | | | |]; try (simpl in Hd; discriminate).
      simpl in H, Hd. apply bind_inv in H. destruct H as (rest & s1 & Hr & H).
      unfold ret in H. injection H as <- <-.
      destruct (cp_eval m x) as [[a|b]|] eqn:E; try discriminate.
      destruct (dot ws (map (cp_eval m) xs)) as [t|] eqn:Ed; try discriminate.
      injection Hd as <-.
      destruct (IH xs zs s rest s1 t HF Hr Ed) as (-> & ns & Hns & Hsum).
      split; auto. exists (c * a :: ns). split; [|simpl; lia].
      cbn [map all_ints]. rewrite (py_mul_value m c z a (Hx m _ E)), Hns.
      reflexivity.
Qed.

Ltac decide_names H :=
  repeat match type of H with
         | context [String.eqb ?a ?b] =>
             let r := eval vm_compute in (String.eqb a b) in
             change (String.eqb a b) with r in H
         end;
  cbv iota in H.

Lemma comparison_same m name f a b v zl zr :
  comparison_fun name = Some f ->
  cp_compare name a b = Some v ->
  z3_eval m zl = Some a -> z3_eval m zr = Some b ->
  z3_eval m (ZApp f [zl; zr]) = Some v.
Proof.
  intros Hf Hc Hl Hr. unfold comparison_fun in Hf.
  repeat match type of Hf with
         | context [String.eqb name ?c] =>
             destruct (String.eqb_spec name c) as [->|]
         end;
    try discriminate; injection Hf as <-;
    unfold cp_compare in Hc; destruct a, b; decide_names Hc;
    try discriminate; injection Hc as <-;
    cbn [z3_eval]; now rewrite Hl, Hr.
Qed.

Lemma solver_var_of_sound K e : forall s z s',
  well_kinded K e = true -> cache_kinded K s ->
  solver_var_of e s = (Ret z, s') ->
  cache_kinded K s' /\ same_value e z.
Proof.
  intros s z s' Hk Hc H. destruct e as [n|v| | | |]; try discriminate.
  - unfold solver_var_of, ret in H. injection H as <- <-. split; auto.
    now intros m v Hv.
  - simpl in H, Hk. destruct (solver_var_sound K v s z s' Hk Hc H) as [Hc' Hv].
    split; [exact Hc'|]. intros m val. simpl. apply Hv.
Qed.

Lemma solver_vars_sound K l s zs s' :
  forallb (well_kinded K) l = true -> cache_kinded K s ->
  solver_vars l s = (Ret zs, s') ->
  cache_kinded K s' /\ Forall2 same_value l zs.
Proof.
  intros Hk Hc H. unfold solver_vars in H.
  apply (map_M_sound solver_var_of same_value (well_kinded K) K l) with (s := s);
    auto.
  apply Forall_forall. intros x _ s0 z s1. apply solver_var_of_sound.
Qed.

Lemma _z3_expr_sound K e : forall s z s',
  well_kinded K e = true -> cache_kinded K s ->
  _z3_expr e s = (Ret z, s') ->
  cache_kinded K s' /\ same_value e z.
Proof.
  induction e as [n|v|l IH|name args IH|name lhs rhs IHl IHr|name args IH]
    using expr_nested_ind; intros s z s' Hk Hc H.
  - apply (solver_var_of_sound K (Num n) s z s' Hk Hc H).
  - apply (solver_var_of_sound K (Var v) s z s' Hk Hc H).
  - cbn [_z3_expr] in H. apply bind_inv in H.
    destruct H as (es & s1 & Hes & H). unfold ret in H. injection H as <- <-.
    destruct (map_M_sound _z3_expr same_value (well_kinded K) K l IH
                s es s1 Hk Hc Hes) as [Hc1 _].
    split; auto. intros m v Hv. discriminate.
  - cbn [_z3_expr] in H. cbn [well_kinded] in Hk.
    pose proof (map_M_sound _z3_expr same_value (well_kinded K) K args IH
                  s) as Hargs.
    destruct (String.eqb name "and") eqn:Eand.
    { apply bind_inv in H. destruct H as (es & s1 & Hes & H).
      unfold ret in H. injection H as <- <-.
      destruct (Hargs es s1 Hk Hc Hes) as [Hc1 HF]. split; auto.
      intros m v Hv. cbn [cp_eval] in Hv. rewrite Eand in Hv.
      destruct (all_bools (map (cp_eval m) args)) as [bs|] eqn:E;
        try discriminate.
      cbn [z3_eval]. now rewrite (all_bools_same m args es bs HF E). }
    destruct (String.eqb name "or") eqn:Eor.
    { apply bind_inv in H. destruct H as (es & s1 & Hes & H).
      unfold ret in H. injection H as <- <-.
      destruct (Hargs es s1 Hk Hc Hes) as [Hc1 HF]. split; auto.
      intros m v Hv. cbn [cp_eval] in Hv. rewrite Eand, Eor in Hv.
      destruct (all_bools (map (cp_eval m) args)) as [bs|] eqn:E;
        try discriminate.
      cbn [z3_eval]. now rewrite (all_bools_same m args es bs HF E). }
    destruct (String.eqb name "xor") eqn:Exor.
    { apply bind_inv in H. destruct H as (es & s1 & Hes & H).
      unfold ret in H. injection H as <- <-.
      destruct (Hargs es s1 Hk Hc Hes) as [Hc1 HF]. split; auto.
      intros m v Hv. cbn [cp_eval] in Hv. rewrite Eand, Eor in Hv.
      apply String.eqb_eq in Exor. subst name. discriminate. }
    destruct (String.eqb name "->") eqn:Eimp.
    { apply bind_inv in H. destruct H as (es & s1 & Hes & H).
      destruct (Hargs es s1 Hk Hc Hes) as [Hc1 HF].
      destruct es as [|a [|b [|]]]; try discriminate.
      unfold ret in H. injection H as <- <-. split; auto.
      intros m v Hv. cbn [cp_eval] in Hv. rewrite Eand, Eor, Eimp in Hv.
      inversion HF as [|x a' l1 l1' Hx HF1]; subst.
      inversion HF1 as [|y b' l2 l2' Hy HF2]; subst.
      inversion HF2; subst. cbn [map] in Hv.
      destruct (cp_eval m x) as [[?|va]|] eqn:Ea; try discriminate.
      destruct (cp_eval m y) as [[?|vb]|] eqn:Eb; try discriminate.
      injection Hv as <-. cbn [z3_eval].
      now rewrite (Hx m _ Ea), (Hy m _ Eb). }
    destruct (String.eqb name "sum") eqn:Esum.
    { apply bind_inv in H. destruct H as (xs & s1 & Hxs & H).
      unfold ret in H. injection H as <- <-.
      destruct (solver_vars_sound K args s xs s1 Hk Hc Hxs) as [Hc1 HF].
      split; auto.
      intros m v Hv. cbn [cp_eval] in Hv.
      rewrite Eand, Eor, Eimp, Esum in Hv.
      destruct (all_ints (map (cp_eval m) args)) as [ns|] eqn:E;
        try discriminate.
      cbn [z3_eval]. now rewrite (all_ints_same m args xs ns HF E). }
    destruct (String.eqb name "wsum") eqn:Ewsum; [|discriminate].
    destruct args as [|[| |ws| | |] [|[| |xs| | |] [|]]]; try discriminate.
    apply bind_inv in H. destruct H as (zs & s1 & Hzs & H).
    apply bind_inv in H. destruct H as (terms & s2 & Hterms & H).
    unfold ret in H. injection H as <- <-.
    cbn [forallb well_kinded] in Hk.
    apply andb_true_iff in Hk as [_ Hk]. apply andb_true_iff in Hk as [Hk _].
    destruct (solver_vars_sound K xs s zs s1 Hk Hc Hzs) as [Hc1 HF].
    assert (Hs2 : s2 = s1).
    { clear -Hterms. revert zs terms Hterms.
      induction ws as [|w ws IHw]; intros zs terms Hterms.
      - simpl in Hterms. destruct zs; unfold ret in Hterms; congruence.
      - destruct zs as [|z zs].
        + simpl in Hterms. destruct w; unfold ret in Hterms; congruence.
        + destruct w; try discriminate. simpl in Hterms.
          apply bind_inv in Hterms. destruct Hterms as (r & s3 & Hr & Hterms).
          unfold ret in Hterms. injection Hterms as _ <-. eauto. }
    subst s2. split; auto.
    intros m v Hv. cbn [cp_eval] in Hv.
    rewrite Eand, Eor, Eimp, Esum, Ewsum in Hv.
    destruct (dot ws (map (cp_eval m) xs)) as [total|] eqn:E; try discriminate.
    injection Hv as <-.
    destruct (weighted_sound m ws xs zs s1 terms s1 total HF Hterms E)
      as (_ & ns & Hns & Hsum).
    cbn [z3_eval]. rewrite Hns. simpl. now rewrite Hsum.
  - cbn [_z3_expr] in H. cbn [well_kinded] in Hk.
    apply andb_true_iff in Hk as [Hkl Hkr].
    apply bind_inv in H. destruct H as (zl & s1 & Hzl & H).
    apply bind_inv in H. destruct H as (zr & s2 & Hzr & H).
    destruct (IHl s zl s1 Hkl Hc Hzl) as [Hc1 Hvl].
    destruct (IHr s1 zr s2 Hkr Hc1 Hzr) as [Hc2 Hvr].
    destruct (comparison_fun name) as [f|] eqn:Ef; [|discriminate].
    unfold ret in H. injection H as <- <-. split; auto.
    intros m v Hv. cbn [cp_eval] in Hv.
    destruct (cp_eval m lhs) as [a|] eqn:Ea; try discriminate.
    destruct (cp_eval m rhs) as [b|] eqn:Eb; try discriminate.
    exact (comparison_same m name f a b v zl zr Ef Hv (Hvl m a Ea) (Hvr m b Eb)).
  - cbn [_z3_expr] in H. cbn [well_kinded] in Hk.
    destruct (String.eqb name "alldifferent") eqn:Ead; [|discriminate].
    apply bind_inv in H. destruct H as (es & s1 & Hes & H).
    unfold ret in H. injection H as <- <-.
    destruct (map_M_sound _z3_expr same_value (well_kinded K) K args IH
                s es s1 Hk Hc Hes) as [Hc1 HF].
    split; auto.
    intros m v Hv. cbn [cp_eval] in Hv. rewrite Ead in Hv.
    destruct (all_ints (map (cp_eval m) args)) as [ns|] eqn:E;
      try discriminate.
    cbn [z3_eval]. now rewrite (all_ints_same m args es ns HF E).
Qed.

Lemma assertions_grow_refl s : assertions_grow s s.
Proof. exists []. now rewrite app_nil_r. Qed.

Lemma assertions_grow_trans s1 s2 s3 :
  assertions_grow s1 s2 -> assertions_grow s2 s3 -> assertions_grow s1 s3.
Proof.
  intros [c1 E1] [c2 E2]. exists (c1 ++ c2). now rewrite E2, E1, <- app_assoc.
Qed.

Lemma solver_var_assertions_grow v : preserves assertions_grow (solver_var v).
Proof.
  pose proof assertions_grow_refl. pose proof assertions_grow_trans.
  assert (forall c s, assertions_grow s (z3_emit c s))
    by (intros c s; now exists [c]).
  assert (forall u s, assertions_grow s (set_user_vars u s))
    by (intros u s; exists []; simpl; now rewrite app_nil_r).
  assert (forall m s, assertions_grow s (set_varmap m s))
    by (intros m s; exists []; simpl; now rewrite app_nil_r).
  induction v; simpl; pres.
Qed.

Lemma _z3_expr_assertions_grow e : preserves assertions_grow (_z3_expr e).
Proof.
  apply _z3_expr_preserves.
  - apply assertions_grow_refl.
  - apply assertions_grow_trans.
  - apply solver_var_assertions_grow.
Qed.

Lemma satisfies_app m l1 l2 :
  satisfies m (l1 ++ l2) = satisfies m l1 && satisfies m l2.
Proof. unfold satisfies. apply forallb_app. Qed.

Lemma leaf_readings m e :
  (forall l, e <> EList l) ->
  evaluable m e = match cp_eval m e with Some _ => true | None => false end
  /\ cp_true m e
     = match cp_eval m e with Some (VBool true) => true | _ => false end.
Proof.
  intros Hleaf. destruct e; try (split; reflexivity). now destruct (Hleaf l).
Qed.

(** A constraint that is not a list is translated and added. *)
Lemma leaf_posted K e s s' :
  (forall l, e <> EList l) ->
  well_kinded K e = true -> cache_kinded K s ->
  (let* z := _z3_expr e in modify (z3_emit (ZAdd z))) s = (Ret tt, s') ->
  cache_kinded K s'
  /\ exists new,
       z3_solver s' = z3_solver s ++ new
       /\ forall m, evaluable m e = true -> satisfies m new = true ->
            cp_true m e = true.
Proof.
  intros Hleaf Hk Hc H.
  apply bind_inv in H. destruct H as (z & s1 & Hz & H).
  unfold modify in H. injection H as <-.
  destruct (_z3_expr_sound K e s z s1 Hk Hc Hz) as [Hc1 Hv].
  split; [exact Hc1|].
  pose proof (_z3_expr_assertions_grow e s) as [calls Hcalls].
  rewrite Hz in Hcalls. simpl in Hcalls.
  exists (calls ++ [ZAdd z]). split.
  - simpl. now rewrite Hcalls, <- app_assoc.
  - intros m He Hs. rewrite satisfies_app in Hs.
    apply andb_true_iff in Hs as [_ Hs]. simpl in Hs.
    rewrite andb_true_r in Hs. unfold z3_true in Hs.
    destruct (leaf_readings m e Hleaf) as [Hev Htr]. rewrite Hev in He.
    rewrite Htr. destruct (cp_eval m e) as [v|] eqn:Hcv; [|discriminate].
    rewrite (Hv m v Hcv) in Hs. now destruct v as [|[|]].
Qed.

Lemma __add___sound K e : forall s s',
  well_kinded K e = true -> cache_kinded K s ->
  __add__ e s = (Ret tt, s') ->
  cache_kinded K s'
  /\ exists new,
       z3_solver s' = z3_solver s ++ new
       /\ forall m, evaluable m e = true -> satisfies m new = true ->
            cp_true m e = true.
Proof.
  induction e as [n|v|l IH|name args IH|name lhs rhs IHl IHr|name args IH]
    using expr_nested_ind; intros s s' Hk Hc H;
    try (apply (leaf_posted K _ s s'); auto; discriminate).
  cbn [__add__] in H. cbn [well_kinded] in Hk.
  revert s s' Hk Hc H. induction IH as [|x l Hx _ IHl]; intros s s' Hk Hc H.
  - simpl in H. unfold ret in H. injection H as <-. split; auto.
    exists []. split; [now rewrite app_nil_r | reflexivity].
  - simpl in H, Hk. apply andb_true_iff in Hk as [Hkx Hkl].
    apply bind_inv in H. destruct H as ([] & s1 & Hx1 & H).
    destruct (Hx s s1 Hkx Hc Hx1) as (Hc1 & new1 & E1 & S1).
    destruct (IHl s1 s' Hkl Hc1 H) as (Hc2 & new2 & E2 & S2).
    split; auto. exists (new1 ++ new2). split.
    + now rewrite E2, E1, <- app_assoc.
    + intros m He Hs. cbn [evaluable forallb] in He. cbn [cp_true forallb].
      apply andb_true_iff in He as [Hex Hel].
      rewrite satisfies_app in Hs. apply andb_true_iff in Hs as [Hs1 Hs2].
      apply andb_true_iff. split; [now apply S1 | now apply S2].
Qed.

(** X18. The translation keeps the value.  For names that are used for
    Boolean variables only or for integer variables only, and a cache
    that follows this, the z3 expression that [_z3_expr] returns has,
    under every model, the value that the CPMpy expression has there,
    whenever that one has a value (the connectives and, or and ->, sums
    and weighted sums, the six comparisons, alldifferent, variables and
    negated views); and the cache still follows the discipline. *)
Theorem nested_translation_keeps_value K e s z s' :
  well_kinded K e = true ->
  cache_kinded K s ->
  _z3_expr e s = (Ret z, s') ->
  cache_kinded K s'
  /\ forall m v, cp_eval m e = Some v -> z3_eval m z = Some v.
Proof. apply _z3_expr_sound. Qed.

(** X19. What [__add__] adds to the solver implies what was posted.
    For names that are used for Boolean variables only or for integer
    variables only (the discipline [K]), constraints whose variables
    follow it and a cache that follows it, as the cache of a fresh
    session does: when [__add__] returns, the cache still follows the
    discipline, the solver has its earlier calls and new ones after
    them, and every model that satisfies the new assertions, and under
    which the posted constraints have a value, satisfies the posted
    constraint; a list of constraints, nested or not, is posted as the
    conjunction of its elements. *)
Theorem posted_constraints_hold K e s s' :
  well_kinded K e = true ->
  cache_kinded K s ->
  __add__ e s = (Ret tt, s') ->
  cache_kinded K s'
  /\ exists new,
       z3_solver s' = z3_solver s ++ new
       /\ forall m, evaluable m e = true -> satisfies m new = true ->
            cp_true m e = true.
Proof. apply __add___sound. Qed.

Lemma cache_kinded_init K : cache_kinded K init_session.
Proof. intros n h H. simpl in H. now rewrite lookup_empty in H. Qed.

Lemma nested_translation_keeps_value_witness :
  let e := Operator "->"
             [Var (NegBoolView Demo.b);
              Comparison "<" (Operator "wsum" [EList [Num 2; Num (-1)];
                                               EList [Var Demo.x; Var Demo.y]])
                (Num 4)] in
  cp_eval Demo.threes e = Some (VBool true)
  /\ exists z,
       fst (_z3_expr e init_session) = Ret z
       /\ z3_eval Demo.threes z = Some (VBool true).
Proof.
  split; [reflexivity|]. eexists. split; [reflexivity|].
  apply (proj2 (nested_translation_keeps_value
                  (fun n : string => String.eqb n "b")
                  (Operator "->"
                     [Var (NegBoolView Demo.b);
                      Comparison "<"
                        (Operator "wsum" [EList [Num 2; Num (-1)];
                                          EList [Var Demo.x; Var Demo.y]])
                        (Num 4)])
                  init_session _
                  (snd (_z3_expr
                          (Operator "->"
                             [Var (NegBoolView Demo.b);
                              Comparison "<"
                                (Operator "wsum" [EList [Num 2; Num (-1)];
                                                  EList [Var Demo.x; Var Demo.y]])
                                (Num 4)])
                          init_session))
                  eq_refl (cache_kinded_init _) eq_refl)).
  reflexivity.
Defined.

Lemma posted_constraints_hold_witness :
  let K := fun n : string => String.eqb n "b" in
  let e := EList [Comparison ">=" (Var Demo.x) (Num 1);
                  EList [Operator "or" [Var Demo.b; Var (NegBoolView Demo.b)]]] in
  fst (__add__ e init_session) = Ret tt
  /\ exists new,
       z3_solver (snd (__add__ e init_session)) = z3_solver init_session ++ new
       /\ forall m, evaluable m e = true -> satisfies m new = true ->
            cp_true m e = true.
Proof.
  split; [reflexivity|].
  apply (posted_constraints_hold (fun n : string => String.eqb n "b")
           (EList [Comparison ">=" (Var Demo.x) (Num 1);
                   EList [Operator "or" [Var Demo.b; Var (NegBoolView Demo.b)]]])
           init_session).
  - reflexivity.
  - apply cache_kinded_init.
  - reflexivity.
Defined.

End Z3Compile.

(** ** Exact: the direction of the objective, with the runs that report it *)

Module ExactObjective.

Import Exact Meaning ExactFacts ExactDirection ExactSolve.

(** Transformations as [Demo.plain], with [x] and [y] as the variables
    of every expression. *)
Definition listing : Transformations :=
  {| get_variables := fun _ => [Demo.x; Demo.y];
     flatten_constraint :=
       fun e => match e with EList l => l | _ => [e] end;
     reify_rewrite := fun l => l;
     only_bv_implies := fun l => l;
     linearize_constraint := fun l => l;
     only_numexpr_equality := fun l => l;
     only_positive_bv := fun l => l;
     flatten_objective := fun e => (e, []);
     decompose := fun _ => [] |}.

Section Objective.

Context {TR : Transformations} {EN : Engine}.

(** [objective], step by step: when the session has no objective yet,
    the side constraints of the flattened objective are posted and the
    flattened objective normalizes to coefficients [c] over the handles
    [v], the call returns after [init] with [c] for "minimize" and with
    every coefficient of [c] negated for "maximize". *)
Lemma objective_posts fuel e minimize s f cons s1 c v r s3 :
  has_objective s = false ->
  flatten_objective e = (f, cons) ->
  __add__ fuel (EList cons)
    (set_objective_minimize minimize (set_has_objective true s)) = (Ret tt, s1) ->
  _make_numexpr f (Num 0)
    (set_user_vars (set_update (user_vars s1) (get_variables f)) s1)
  = (Ret (c, v, r), s3) ->
  objective fuel e minimize s
  = (Ret tt, xct_emit (Init (if minimize then c else map Z.opp c) v) s3)
  /\ objective_minimize s3 = minimize.
Proof.
  intros Hflag Hf H1 H3.
  pose proof (indep_keeps_direction _
                (set_objective_minimize minimize (set_has_objective true s))
                (__add___indep fuel (EList cons))) as D1.
  rewrite H1 in D1. simpl in D1.
  pose proof (indep_keeps_direction _
                (set_user_vars (set_update (user_vars s1) (get_variables f)) s1)
                (_make_numexpr_indep f (Num 0))) as D3.
  rewrite H3 in D3. simpl in D3.
  split; [|congruence].
  unfold objective. rewrite Hf.
  rewrite (bind_run _ _ s s false) by (unfold gets; now rewrite Hflag).
  rewrite (bind_run _ _ s s tt) by reflexivity.
  rewrite (bind_run _ _ s (set_has_objective true s) tt) by reflexivity.
  rewrite (bind_run _ _ _
             (set_objective_minimize minimize (set_has_objective true s)) tt)
    by reflexivity.
  rewrite (bind_run _ _ _ _ _ H1).
  rewrite (bind_run _ _ _
             (set_user_vars (set_update (user_vars s1) (get_variables f)) s1) tt)
    by reflexivity.
  rewrite (bind_run _ _ _ _ _ H3).
  unfold bind, gets, modify. rewrite D3, D1.
  now destruct minimize.
Qed.

Lemma flat_prepared_user_vars t kw s :
  user_vars (StatusTranslation.flat_prepared t kw s) = user_vars s.
Proof.
  unfold StatusTranslation.flat_prepared.
  assert (Hfold : forall s0,
             user_vars
               (fold_left
                  (fun st kv => xct_emit (SetOption (fst kv) (snd kv)) st) kw s0)
             = user_vars s0).
  { induction kw as [|kv kw IH]; intros s0; simpl; auto. now rewrite IH. }
  rewrite Hfold. now destruct t, (has_objective s).
Qed.

(** [solve] returns [True] when the engine stops with status 0 or 2 and
    has a solution then. *)
Lemma solve_returns t kw s :
  let sp := StatusTranslation.flat_prepared t kw s in
  xct_runFull (xct_solver sp) = 0 \/ xct_runFull (xct_solver sp) = 2 ->
  xct_hasSolution (xct_solver sp ++ [RunFull]) = true ->
  (forall log hs, length (xct_getLastSolutionFor log hs) = length hs) ->
  Forall (fun v => supported v = true) (user_vars s) ->
  exists s', solve t None kw s = (Ret true, s').
Proof.
  intros sp Hst Hhas Hlen Hall.
  rewrite StatusTranslation.flat_solve_run. fold sp.
  assert (Hret : forall st,
             exists s', getSolAndObj
                          (set_exitstatus st (StatusTranslation.flat_ran sp))
                        = (Ret true, s')).
  { intros st.
    destruct (getSolAndObj_returns
                (set_exitstatus st (StatusTranslation.flat_ran sp)))
      as (s' & Hs' & _); auto.
    simpl. unfold sp. now rewrite flat_prepared_user_vars.
    now exists s'. }
  destruct Hst as [-> | ->]; simpl; apply Hret.
Qed.

(** C6. An objective posted with direction "maximize" is posted to the
    engine with its coefficients negated, and the extractor reports the
    negation of the upper bound the engine gives; so minimizing an
    expression and maximizing its negation give the same variable
    values and objective values that are negations of each other.
    In full: (1) every call of [objective] on a session without an
    objective, whose flattened objective normalizes to the coefficients
    [c], returns after [init] with [c] for "minimize" and with every
    coefficient of [c] negated for "maximize"; (2) for an engine that
    has a solution and gives a value for every handle, and user
    variables that are Boolean or integer variables, [getSolAndObj]
    returns [True] and stores the engine's upper bound for "minimize"
    and its negation for "maximize"; (3) when the flattened objective of
    [e2] normalizes to the negated coefficients of that of [e1], and
    posting [e1] to minimize returns, posting [e2] to maximize returns
    with the same calls made on the engine, and when the engine then
    stops with status 0 or 2 and a solution, [solve] returns [True] in
    both sessions, with the same variable values, the engine's upper
    bound as the objective value of the first and its negation as that
    of the second. *)
Theorem maximize_negates_minimize :
  (forall fuel e minimize s f cons s1 c v r s3,
     has_objective s = false ->
     flatten_objective e = (f, cons) ->
     __add__ fuel (EList cons)
       (set_objective_minimize minimize (set_has_objective true s))
     = (Ret tt, s1) ->
     _make_numexpr f (Num 0)
       (set_user_vars (set_update (user_vars s1) (get_variables f)) s1)
     = (Ret (c, v, r), s3) ->
     objective fuel e minimize s
     = (Ret tt, xct_emit (Init (if minimize then c else map Z.opp c) v) s3)
     /\ objective_minimize s3 = minimize)
  /\ (forall s,
        xct_hasSolution (xct_solver s) = true ->
        (forall log hs, length (xct_getLastSolutionFor log hs) = length hs) ->
        Forall (fun v => supported v = true) (user_vars s) ->
        exists s',
          getSolAndObj s = (Ret true, s')
          /\ let upper := snd (xct_getObjectiveBounds (xct_solver s')) in
             objective_value_ s'
             = Some (if objective_minimize s then upper else - upper))
  /\ (forall fuel e1 e2 f1 f2 cons s sA,
        flatten_objective e1 = (f1, cons) ->
        flatten_objective e2 = (f2, cons) ->
        get_variables f1 = get_variables f2 ->
        (forall u c v r u',
           _make_numexpr f1 (Num 0) u = (Ret (c, v, r), u') ->
           exists r',
             _make_numexpr f2 (Num 0) u = (Ret (map Z.opp c, v, r'), u')) ->
        objective fuel e1 true s = (Ret tt, sA) ->
        exists sB,
          objective fuel e2 false s = (Ret tt, sB)
          /\ xct_solver sB = xct_solver sA
          /\ forall t kw,
               let sp := StatusTranslation.flat_prepared t kw sA in
               xct_runFull (xct_solver sp) = 0
               \/ xct_runFull (xct_solver sp) = 2 ->
               xct_hasSolution (xct_solver sp ++ [RunFull]) = true ->
               (forall log hs,
                  length (xct_getLastSolutionFor log hs) = length hs) ->
               Forall (fun v => supported v = true) (user_vars sA) ->
               exists tA tB upper,
                 solve t None kw sA = (Ret true, tA)
                 /\ solve t None kw sB = (Ret true, tB)
                 /\ var_value tB = var_value tA
                 /\ upper = snd (xct_getObjectiveBounds (xct_solver tA))
                 /\ objective_value_ tA = Some upper
                 /\ objective_value_ tB = Some (- upper)).
Proof.
  split; [|split].
  - intros fuel e minimize s f cons s1 c v r s3 Hflag Hf H1 H3.
    exact (objective_posts fuel e minimize s f cons s1 c v r s3 Hflag Hf H1 H3).
  - intros s Hhas Hlen Hall.
    destruct (getSolAndObj_returns s Hhas Hlen Hall) as (s' & Hs' & _).
    exists s'. split; [exact Hs'|]. exact (getSolAndObj_reports s s' Hs').
  - intros fuel e1 e2 f1 f2 cons s sA Hf1 Hf2 Hvars Hneg HA.
    destruct (mirrored_objectives_agree fuel e1 e2 f1 f2 cons s sA
                Hf1 Hf2 Hvars Hneg HA)
      as (sB & HB & _ & _ & _ & Hlog & Hflip & Hlast).
    exists sB. split; [exact HB|]. split; [exact Hlog|].
    intros t kw sp Hst Hhas Hlen Hall.
    destruct (solve_returns t kw sA Hst Hhas Hlen Hall) as (tA & HtA).
    assert (HtB : exists tB, solve t None kw sB = (Ret true, tB)).
    { rewrite Hflip, HtA. simpl. eexists. reflexivity. }
    destruct HtB as (tB & HtB).
    destruct (Hlast t None kw tA tB HtA HtB) as (Hval & upper & Hu & HvA & HvB).
    exists tA, tB, upper. auto 10.
Qed.

End Objective.

Lemma maximize_negates_minimize_witness :
  let e1 := Operator "wsum" [EList [Num 2; Num 3]; EList [Var Demo.x; Var Demo.y]] in
  let e2 :=
    Operator "wsum" [EList [Num (-2); Num (-3)]; EList [Var Demo.x; Var Demo.y]] in
  let sA := snd (@objective listing 1 e1 true init_session) in
  let sB := snd (@objective listing 1 e2 false init_session) in
  xct_solver sA = xct_solver sB
  /\ In (Init [2; 3] ["x"; "y"]) (xct_solver sB)
  /\ exists tA tB,
       @solve Demo.decided None None [] sA = (Ret true, tA)
       /\ @solve Demo.decided None None [] sB = (Ret true, tB)
       /\ var_value tB = var_value tA
       /\ var_value tA !! "x" = Some (VInt 1)
       /\ objective_value_ tA = Some 7
       /\ objective_value_ tB = Some (-7).
Proof.
  split; [reflexivity|]. split; [vm_compute; tauto|].
  destruct (proj2 (proj2 (@maximize_negates_minimize listing Demo.decided)) 1%nat
              (Operator "wsum" [EList [Num 2; Num 3]; EList [Var Demo.x; Var Demo.y]])
              (Operator "wsum"
                 [EList [Num (-2); Num (-3)]; EList [Var Demo.x; Var Demo.y]])
              _ _ [] init_session _ eq_refl eq_refl eq_refl
              (wsum_negated_normal [Num 2; Num 3] [Var Demo.x; Var Demo.y])
              eq_refl)
    as (sB & HB & _ & Hsolve).
  destruct (Hsolve None [] (or_introl eq_refl) eq_refl
              (fun _ hs => length_map _ hs)
              ltac:(repeat constructor))
    as (tA & tB & upper & HtA & HtB & Hval & Hu & HvA & HvB).
  exists tA, tB. cbv zeta. rewrite HB. simpl snd.
  split; [exact HtA|]. split; [exact HtB|]. split; [exact Hval|].
  simpl in Hu. subst upper.
  split; [|split; [exact HvA|exact HvB]].
  vm_compute in HtA. injection HtA as <-. reflexivity.
Defined.

End ExactObjective.
